(** * Node-function runtime: built-in scalar math functions and the BVM evaluator

    A shallow embedding of
      - source/blender/functions/functions/scalar_math.cpp
        (the built-in functions Add Floats, Multiply Floats, Minimum, Maximum
        and Map Range, their tuple-call and LLVM bodies, their lazily
        initialised accessors),
      - source/blender/blenvm/bvm/bvm_eval.h
        (BVM_STACK_SIZE, EvalGlobals, EvalData and the EvalContext interface),
        and
      - source/blender/editors/object/object_modes.c
        (the toggle operator of a mode, the compatibility test, setting a
        mode, the generic mode exit),
    followed by the properties of these functions.

    C [float] is IEEE-754 binary32 with round-to-nearest-even on every
    operation (no extended precision, no fused multiply-add, gradual
    underflow), taken from the parametric specification [SpecFloat] of the
    standard library at precision 24 and maximal exponent 128. *)

From Stdlib Require Import ZArith Bool Lia String.
From Stdlib Require Import Floats.SpecFloat.
From stdpp Require Import base option list strings.

Local Open Scope Z_scope.

(** ** IEEE-754 binary32 *)

Module Binary32.

Definition prec : Z := 24.
Definition emax : Z := 128.

(** A C [float].  Values that a program can hold satisfy [is_valid].  All
    NaNs are one value here: the sign and the payload of a NaN are not
    represented, so of a NaN result the properties below say that it is a
    NaN, not which one. *)
Definition float : Type := spec_float.

Definition is_valid : float -> bool := valid_binary prec emax.

Definition fadd : float -> float -> float := SFadd prec emax.
Definition fsub : float -> float -> float := SFsub prec emax.
Definition fmul : float -> float -> float := SFmul prec emax.
Definition fdiv : float -> float -> float := SFdiv prec emax.

(** The C comparisons [a < b], [a <= b] and [a == b]; all three are false
    as soon as one operand is a NaN. *)
Definition flt : float -> float -> bool := SFltb.
Definition fle : float -> float -> bool := SFleb.
Definition feq : float -> float -> bool := SFeqb.

(** The float [m * 2^e], rounded; [of_Z z] is the conversion of the
    integer literal [z]. *)
Definition scaled (m e : Z) : float := binary_normalize prec emax m e false.
Definition of_Z (z : Z) : float := scaled z 0.

Definition is_nan (x : float) : bool :=
  match x with S754_nan => true | _ => false end.

Definition is_zero (x : float) : bool :=
  match x with S754_zero _ => true | _ => false end.

(** Neither an infinity nor a NaN. *)
Definition is_finite (x : float) : bool :=
  match x with S754_zero _ | S754_finite _ _ _ => true | _ => false end.

#[global] Instance float_eq_dec : EqDecision float.
Proof. solve_decision. Defined.

End Binary32.
Import Binary32.

(** ** Errors and the state-and-error monad *)

(** The error taxonomy of the runtime. *)
Inductive Error : Type :=
  | TypeMismatch
  | OutOfRange
  | StackOverflow
  | UnresolvedBody
  | DuplicateParameter.

#[global] Instance Error_eq_dec : EqDecision Error.
Proof. solve_decision. Defined.

Inductive result (A : Type) : Type :=
  | Ok (a : A)
  | Err (e : Error).
Arguments Ok {A} a.
Arguments Err {A} e.

(** Computations that thread a state of type [S] and may abort. *)
Definition M (S A : Type) : Type := S -> result (A * S).

Definition ret {S A : Type} (a : A) : M S A := fun s => Ok (a, s).

Definition bind {S A B : Type} (m : M S A) (k : A -> M S B) : M S B :=
  fun s => match m s with
           | Ok (a, s') => k a s'
           | Err e => Err e
           end.

Definition lift {S A : Type} (r : result A) : M S A :=
  fun s => match r with
           | Ok a => Ok (a, s)
           | Err e => Err e
           end.

Declare Scope monad_scope.
Delimit Scope monad_scope with monad.
Notation "x <- m ;; k" := (bind m (fun x => k))
  (at level 100, m at next level, right associativity) : monad_scope.
Notation "m ;;; k" := (bind m (fun _ => k))
  (at level 100, right associativity) : monad_scope.
Local Open Scope monad_scope.

(** ** Types, values and tuples *)

(** Modelled from the spec: the type descriptor catalog (FN_types.hpp is not
    available).  It describes value shapes such as scalar float and integer;
    [get_float_type()] is the only descriptor the built-in functions use. *)
Inductive TypeDescriptor : Type :=
  | float_type
  | int32_type.

#[global] Instance TypeDescriptor_eq_dec : EqDecision TypeDescriptor.
Proof. solve_decision. Defined.

Definition get_float_type : TypeDescriptor := float_type.

Inductive Value : Type :=
  | VFloat (f : float)
  | VInt32 (z : Z).

#[global] Instance Value_eq_dec : EqDecision Value.
Proof. solve_decision. Defined.

Definition default_value (t : TypeDescriptor) : Value :=
  match t with
  | float_type => VFloat (S754_zero false)
  | int32_type => VInt32 0
  end.

(** Modelled from the spec: the Tuple container (FN_tuple_call.hpp is not
    available).  Each slot holds exactly one value of its declared
    type; [get<T>] and [set<T>] fail with [TypeMismatch] when [T] disagrees
    with the slot's type and with [OutOfRange] beyond the last slot. *)
Definition Tuple : Type := list Value.

Definition Tuple_bind (types : list TypeDescriptor) : Tuple :=
  map default_value types.

Definition Tuple_get_float (t : Tuple) (i : nat) : result float :=
  match t !! i with
  | None => Err OutOfRange
  | Some (VFloat f) => Ok f
  | Some _ => Err TypeMismatch
  end.

Definition Tuple_set_float (t : Tuple) (i : nat) (x : float) : result Tuple :=
  match t !! i with
  | None => Err OutOfRange
  | Some (VFloat _) => Ok (<[i := VFloat x]> t)
  | Some _ => Err TypeMismatch
  end.

(** ** Signatures *)

(** A parameter of a signature ([Parameter] is a reserved word here). *)
Record FnParameter : Type := {
  param_name : string;
  param_type : TypeDescriptor
}.

Definition InputParameter (name : string) (type : TypeDescriptor) : FnParameter :=
  {| param_name := name; param_type := type |}.

Definition OutputParameter (name : string) (type : TypeDescriptor) : FnParameter :=
  {| param_name := name; param_type := type |}.

Record Signature : Type := {
  inputs : list FnParameter;
  outputs : list FnParameter
}.

(** Modelled from the spec: the Signature constructor (FN_core is not
    available).  It validates that parameter names are unique within each
    direction and fails with [DuplicateParameter] otherwise. *)
Definition Signature_construct (ins outs : list FnParameter) : result Signature :=
  if decide (NoDup (map param_name ins)) then
    if decide (NoDup (map param_name outs)) then
      Ok {| inputs := ins; outputs := outs |}
    else Err DuplicateParameter
  else Err DuplicateParameter.

(** ** Evaluation context (bvm_eval.h) *)

Definition float3 : Type := float * float * float.

(** [Object *] and [Mesh *]: addresses of externally owned objects. *)
Definition ObjectPtr : Type := nat.
Definition MeshPtr : Type := option nat.

(** [PointerRNA] is declared outside bvm_eval.h; only its identity matters. *)
Definition PointerRNA : Type := option nat.

Definition BVM_STACK_SIZE : Z := 4095.

Record EvalGlobals : Type := {
  objects : list ObjectPtr
}.

Record EffectorEvalData : Type := {
  object : PointerRNA;
  position : float3;
  velocity : float3
}.

Record TextureEvalData : Type := {
  co : float3;
  dxt : float3;
  dyt : float3;
  cfra : Z;
  osatex : Z
}.

Record ModifierEvalData : Type := {
  base_mesh : MeshPtr
}.

Record EvalData : Type := {
  effector : EffectorEvalData;
  texture : TextureEvalData;
  modifier : ModifierEvalData;
  iteration : Z
}.

Definition zero3 : float3 := (S754_zero false, S754_zero false, S754_zero false).

(** The default constructors.  [EffectorEvalData()] initialises [position]
    and [velocity] only and leaves [object] as its storage holds it; the
    null pointer stands for that value, which nothing below reads. *)
Definition EffectorEvalData_new : EffectorEvalData :=
  {| object := None; position := zero3; velocity := zero3 |}.

Definition TextureEvalData_new : TextureEvalData :=
  {| co := zero3; dxt := zero3; dyt := zero3; cfra := 0; osatex := 0 |}.

Definition ModifierEvalData_new : ModifierEvalData :=
  {| base_mesh := None |}.

Definition EvalData_new : EvalData :=
  {| effector := EffectorEvalData_new;
     texture := TextureEvalData_new;
     modifier := ModifierEvalData_new;
     iteration := 0 |}.

(** Modelled from the spec: the execution context handed to an interpreted
    body (FN_tuple_call.hpp is not available); through it a body may consult
    the globals and the per-site data. *)
Record ExecutionContext : Type := {
  ctx_globals : EvalGlobals;
  ctx_data : EvalData
}.

(** ** Tuple-call bodies (scalar_math.cpp) *)

(** What a running [call] can touch besides its input tuple: the output
    tuple, the execution context, and (for the proofs) the log of the output
    slots it has set, most recent first. *)
Record CallState : Type := {
  fn_out : Tuple;
  ctx : ExecutionContext;
  written : list nat
}.

Definition Call (A : Type) : Type := M CallState A.

(** [fn_in.get<float>(i)] *)
Definition get_float (fn_in : Tuple) (i : nat) : Call float :=
  lift (Tuple_get_float fn_in i).

(** [fn_out.set<float>(i, x)] *)
Definition set_float (i : nat) (x : float) : Call unit :=
  fun s =>
    match Tuple_set_float (fn_out s) i x with
    | Ok t => Ok (tt, {| fn_out := t; ctx := ctx s; written := i :: written s |})
    | Err e => Err e
    end.

(** Modelled from the spec: the CLAMP macro (BLI_utildefines.h is not
    available), [if (a < b) a = b; else if (a > c) a = c;], the clamp of [a]
    to the interval from [b] to [c]. *)
Definition CLAMP (a b c : float) : float :=
  if flt a b then b else if flt c a then c else a.

Definition AddFloats_call (fn_in : Tuple) : Call unit :=
  a <- get_float fn_in 0 ;;
  b <- get_float fn_in 1 ;;
  set_float 0 (fadd a b).

Definition MultiplyFloats_call (fn_in : Tuple) : Call unit :=
  a <- get_float fn_in 0 ;;
  b <- get_float fn_in 1 ;;
  set_float 0 (fmul a b).

Definition MinFloats_call (fn_in : Tuple) : Call unit :=
  a <- get_float fn_in 0 ;;
  b <- get_float fn_in 1 ;;
  set_float 0 (if flt a b then a else b).

Definition MaxFloats_call (fn_in : Tuple) : Call unit :=
  a <- get_float fn_in 0 ;;
  b <- get_float fn_in 1 ;;
  set_float 0 (if flt a b then b else a).

(** The arithmetic of [MapRange::call], with the division it uses as a
    parameter. *)
Definition MapRange_compute (div : float -> float -> float)
    (value from_min from_max to_min to_max : float) : float :=
  let from_range := fsub from_max from_min in
  let to_range := fsub to_max to_min in
  if feq from_range (of_Z 0) then to_min
  else
    let t := div (fsub value from_min) from_range in
    let t := CLAMP t (of_Z 0) (of_Z 1) in
    fadd (fmul t to_range) to_min.

Definition MapRange_call (fn_in : Tuple) : Call unit :=
  value <- get_float fn_in 0 ;;
  from_min <- get_float fn_in 1 ;;
  from_max <- get_float fn_in 2 ;;
  to_min <- get_float fn_in 3 ;;
  to_max <- get_float fn_in 4 ;;
  let result := MapRange_compute fdiv value from_min from_max to_min to_max in
  set_float 0 result.

(** The classes deriving from [TupleCallBody], and the virtual [call]. *)
Inductive TupleCallBody : Type :=
  | AddFloats
  | MultiplyFloats
  | MinFloats
  | MaxFloats
  | MapRange.

#[global] Instance TupleCallBody_eq_dec : EqDecision TupleCallBody.
Proof. solve_decision. Defined.

Definition call (body : TupleCallBody) (fn_in : Tuple) : Call unit :=
  match body with
  | AddFloats => AddFloats_call fn_in
  | MultiplyFloats => MultiplyFloats_call fn_in
  | MinFloats => MinFloats_call fn_in
  | MaxFloats => MaxFloats_call fn_in
  | MapRange => MapRange_call fn_in
  end.

(** ** LLVM bodies (scalar_math.cpp) *)

(** Modelled from the spec: the part of LLVM's IRBuilder that [build_ir]
    uses (FN_llvm.hpp and LLVM itself are not available).  A body appends
    straight-line instructions; an [llvm::Value *] names either an incoming
    argument or the result of the n-th instruction appended.  [fadd] on
    [float] operands is the IEEE-754 binary32 addition. *)
Inductive LLVMValue : Type :=
  | IRArg (i : nat)
  | IRReg (n : nat).

Inductive IRInstruction : Type :=
  | IR_FAdd (a b : LLVMValue).

Definition LLVMValues : Type := list LLVMValue.

Record BuildState : Type := {
  builder : list IRInstruction;
  r_outputs : LLVMValues
}.

(** [builder.CreateFAdd(a, b)]: the value produced and the builder state
    left. *)
Definition CreateFAdd (a b : LLVMValue) (s : BuildState) : LLVMValue * BuildState :=
  (IRReg (length (builder s)),
   {| builder := builder s ++ [IR_FAdd a b]; r_outputs := r_outputs s |}).

(** [inputs[i]]: the read is not checked.  Beyond the values given the
    source has no defined behaviour, and the read has no result here
    ([None]). *)
Definition input_at (inputs : LLVMValues) (i : nat) : option LLVMValue :=
  inputs !! i.

(** [r_outputs.append(v)] *)
Definition append_output (v : LLVMValue) (s : BuildState) : BuildState :=
  {| builder := builder s; r_outputs := r_outputs s ++ [v] |}.

(** [build_ir] returns nothing: what remains is the builder state it
    leaves, where its reads are defined. *)
Definition GenAddFloats_build_ir (inputs : LLVMValues) (s : BuildState)
  : option BuildState :=
  match input_at inputs 0, input_at inputs 1 with
  | Some a, Some b =>
      let (output, s) := CreateFAdd a b s in
      Some (append_output output s)
  | _, _ => None
  end.

(** The classes deriving from [LLVMBuildIRBody], and the virtual
    [build_ir]. *)
Inductive LLVMBuildIRBody : Type :=
  | GenAddFloats.

#[global] Instance LLVMBuildIRBody_eq_dec : EqDecision LLVMBuildIRBody.
Proof. solve_decision. Defined.

Definition build_ir (body : LLVMBuildIRBody) (inputs : LLVMValues) (s : BuildState)
  : option BuildState :=
  match body with
  | GenAddFloats => GenAddFloats_build_ir inputs s
  end.

(** Running emitted code: [regs] holds the results of the instructions
    executed so far. *)
Definition ir_value (args regs : list float) (v : LLVMValue) : result float :=
  match v with
  | IRArg i => match args !! i with Some x => Ok x | None => Err OutOfRange end
  | IRReg n => match regs !! n with Some x => Ok x | None => Err OutOfRange end
  end.

Fixpoint ir_run (args regs : list float) (code : list IRInstruction)
  : result (list float) :=
  match code with
  | [] => Ok regs
  | IR_FAdd a b :: rest =>
      match ir_value args regs a, ir_value args regs b with
      | Ok x, Ok y => ir_run args (regs ++ [fadd x y]) rest
      | Err e, _ => Err e
      | _, Err e => Err e
      end
  end.

Fixpoint ir_values (args regs : list float) (vs : LLVMValues) : result (list float) :=
  match vs with
  | [] => Ok []
  | v :: rest =>
      match ir_value args regs v, ir_values args regs rest with
      | Ok x, Ok xs => Ok (x :: xs)
      | Err e, _ => Err e
      | _, Err e => Err e
      end
  end.

(** ** Functions *)

(** Modelled from the spec: the Function object (FN_core is not available):
    a name, an immutable signature, and the attached bodies keyed by
    strategy; [add_body] attaches a body under the strategy of its class. *)
Record Function : Type := {
  fn_name : string;
  fn_signature : Signature;
  tuple_call_body : option TupleCallBody;
  llvm_build_ir_body : option LLVMBuildIRBody
}.

Inductive Body : Type :=
  | TupleCall (b : TupleCallBody)
  | LLVMBuildIR (b : LLVMBuildIRBody).

Definition Function_add_body (body : Body) (f : Function) : Function :=
  match body with
  | TupleCall b =>
      {| fn_name := fn_name f; fn_signature := fn_signature f;
         tuple_call_body := Some b;
         llvm_build_ir_body := llvm_build_ir_body f |}
  | LLVMBuildIR b =>
      {| fn_name := fn_name f; fn_signature := fn_signature f;
         tuple_call_body := tuple_call_body f;
         llvm_build_ir_body := Some b |}
  end.

(** A [SharedFunction] is a reference to a Function object: its address in
    the heap of Function objects. *)
Definition SharedFunction : Type := nat.

(** The functions declared with [LAZY_INIT_REF__NO_ARG]; each owns one static
    storage cell. *)
Inductive LazyFunction : Type :=
  | lazy_add_floats
  | lazy_multiply_floats
  | lazy_min_floats
  | lazy_max_floats
  | lazy_map_range.

#[global] Instance LazyFunction_eq_dec : EqDecision LazyFunction.
Proof. solve_decision. Defined.

(** The process state the library touches: the Function objects allocated so
    far and the static cells ([None] while not initialised). *)
Record World : Type := {
  heap : list Function;
  statics : LazyFunction -> option SharedFunction
}.

Definition Init (A : Type) : Type := M World A.

(** At process start nothing is allocated and no cell is initialised. *)
Definition World_start : World :=
  {| heap := []; statics := fun _ => None |}.

(** [SharedFunction::New(name, signature)] *)
Definition SharedFunction_New (name : string) (sig : Signature) : Init SharedFunction :=
  fun w => Ok (length (heap w),
               {| heap := heap w ++ [{| fn_name := name; fn_signature := sig;
                                        tuple_call_body := None;
                                        llvm_build_ir_body := None |}];
                  statics := statics w |}).

(** [fn->add_body(body)] *)
Definition add_body (fn : SharedFunction) (body : Body) : Init unit :=
  fun w => match heap w !! fn with
           | Some f => Ok (tt, {| heap := <[fn := Function_add_body body f]> (heap w);
                                  statics := statics w |})
           | None => Err OutOfRange
           end.

Definition get_simple_math_function (name : string) : Init SharedFunction :=
  sig <- lift (Signature_construct
                 [ InputParameter "A" get_float_type;
                   InputParameter "B" get_float_type ]
                 [ OutputParameter "Result" get_float_type ]) ;;
  fn <- SharedFunction_New name sig ;;
  ret fn.

(** Modelled from the spec: the macro LAZY_INIT_REF__NO_ARG (BLI_lazy_init.hpp
    is not available).  The value is built by the body on the first call,
    kept in the static cell, and returned from the cell by every later
    call. *)
Definition LAZY_INIT_REF__NO_ARG (cell : LazyFunction) (impl : Init SharedFunction)
  : Init SharedFunction :=
  fun w =>
    match statics w cell with
    | Some fn => Ok (fn, w)
    | None =>
        match impl w with
        | Ok (fn, w') =>
            Ok (fn, {| heap := heap w';
                       statics := fun c => if decide (c = cell) then Some fn
                                           else statics w' c |})
        | Err e => Err e
        end
    end.

Definition add_floats : Init SharedFunction :=
  LAZY_INIT_REF__NO_ARG lazy_add_floats (
    fn <- get_simple_math_function "Add Floats" ;;
    (* fn->add_body(new AddFloats()); is commented out in the source *)
    add_body fn (LLVMBuildIR GenAddFloats) ;;;
    ret fn).

Definition multiply_floats : Init SharedFunction :=
  LAZY_INIT_REF__NO_ARG lazy_multiply_floats (
    fn <- get_simple_math_function "Multiply Floats" ;;
    add_body fn (TupleCall MultiplyFloats) ;;;
    ret fn).

Definition min_floats : Init SharedFunction :=
  LAZY_INIT_REF__NO_ARG lazy_min_floats (
    fn <- get_simple_math_function "Minimum" ;;
    add_body fn (TupleCall MinFloats) ;;;
    ret fn).

Definition max_floats : Init SharedFunction :=
  LAZY_INIT_REF__NO_ARG lazy_max_floats (
    fn <- get_simple_math_function "Maximum" ;;
    add_body fn (TupleCall MaxFloats) ;;;
    ret fn).

Definition map_range : Init SharedFunction :=
  LAZY_INIT_REF__NO_ARG lazy_map_range (
    sig <- lift (Signature_construct
                   [ InputParameter "Value" get_float_type;
                     InputParameter "From Min" get_float_type;
                     InputParameter "From Max" get_float_type;
                     InputParameter "To Min" get_float_type;
                     InputParameter "To Max" get_float_type ]
                   [ OutputParameter "Value" get_float_type ]) ;;
    fn <- SharedFunction_New "Map Range" sig ;;
    add_body fn (TupleCall MapRange) ;;;
    ret fn).

(** The accessor of each lazily initialised function. *)
Definition accessor (cell : LazyFunction) : Init SharedFunction :=
  match cell with
  | lazy_add_floats => add_floats
  | lazy_multiply_floats => multiply_floats
  | lazy_min_floats => min_floats
  | lazy_max_floats => max_floats
  | lazy_map_range => map_range
  end.

(** ** Evaluating a Function under a strategy *)

Definition rbind {A B : Type} (r : result A) (k : A -> result B) : result B :=
  match r with
  | Ok a => k a
  | Err e => Err e
  end.

Fixpoint Tuple_floats (t : Tuple) : result (list float) :=
  match t with
  | [] => Ok []
  | VFloat x :: rest => rbind (Tuple_floats rest) (fun xs => Ok (x :: xs))
  | _ :: _ => Err TypeMismatch
  end.

Inductive Strategy : Type :=
  | Interpreted
  | Codegen.

(** Modelled from the spec: evaluation of a Function under a strategy (the
    dispatch code is not available).  The body attached for the strategy is
    run; with no such body the evaluation fails with [UnresolvedBody].  The
    interpreted body runs on an output tuple bound to the output parameters;
    the codegen body is handed one value per input slot of the signature,
    in order, and the code it emits runs on the argument values.  A codegen
    body that reads more input values than the signature has slots emits no
    code: the evaluation is refused as addressing beyond bounds. *)
Definition call_interpreted (f : Function) (fn_in : Tuple) (c : ExecutionContext)
  : result Tuple :=
  match tuple_call_body f with
  | None => Err UnresolvedBody
  | Some body =>
      let out := Tuple_bind (map param_type (outputs (fn_signature f))) in
      match call body fn_in {| fn_out := out; ctx := c; written := [] |} with
      | Ok (_, s) => Ok (fn_out s)
      | Err e => Err e
      end
  end.

Definition call_compiled (f : Function) (args : list float) : result (list float) :=
  match llvm_build_ir_body f with
  | None => Err UnresolvedBody
  | Some body =>
      match build_ir body (map IRArg (seq 0 (length (inputs (fn_signature f)))))
                     {| builder := []; r_outputs := [] |} with
      | Some s =>
          rbind (ir_run args [] (builder s))
                (fun regs => ir_values args regs (r_outputs s))
      | None => Err OutOfRange
      end
  end.

Definition evaluate (strategy : Strategy) (f : Function) (args : list float)
    (c : ExecutionContext) : result (list float) :=
  match strategy with
  | Interpreted => rbind (call_interpreted f (map VFloat args) c) Tuple_floats
  | Codegen => call_compiled f args
  end.

(** ** The stack evaluator (bvm_eval.h) *)

(** Modelled from the spec: the instruction stream and the bodies of
    [EvalContext::eval_expression] and [EvalContext::eval_instructions]
    (bvm_eval.cc is not available; bvm_eval.h declares them and fixes
    BVM_STACK_SIZE).  An instruction either ends the evaluation or calls the
    interpreted body of a Function, reading its operands from fixed stack
    offsets and writing its results back at fixed stack offsets.  An offset
    outside the [BVM_STACK_SIZE] slots of the stack is a hard failure,
    detected before anything is read or written. *)
Inductive Instruction : Type :=
  | OP_CALL (fn : Function) (in_offsets out_offsets : list Z)
  | OP_END.

(** [bvm::Function]: the compiled instruction stream of a graph. *)
Record bvm_Function : Type := {
  instructions : list Instruction
}.

Definition Stack : Type := list float.

Definition stack_valid (offset : Z) : bool :=
  (0 <=? offset) && (offset <? BVM_STACK_SIZE).

Definition stack_load_float (stack : Stack) (offset : Z) : result float :=
  if stack_valid offset then
    match stack !! Z.to_nat offset with
    | Some x => Ok x
    | None => Err OutOfRange
    end
  else Err StackOverflow.

Definition stack_store_float (stack : Stack) (offset : Z) (x : float) : result Stack :=
  if stack_valid offset then
    if decide (Z.to_nat offset < length stack)%nat
    then Ok (<[Z.to_nat offset := x]> stack)
    else Err OutOfRange
  else Err StackOverflow.

Fixpoint stack_load_all (stack : Stack) (offsets : list Z) : result (list float) :=
  match offsets with
  | [] => Ok []
  | o :: rest =>
      rbind (stack_load_float stack o) (fun x =>
      rbind (stack_load_all stack rest) (fun xs => Ok (x :: xs)))
  end.

Fixpoint stack_store_all (stack : Stack) (offsets : list Z) (xs : list float)
  : result Stack :=
  match offsets, xs with
  | [], [] => Ok stack
  | o :: rest, x :: xs' =>
      rbind (stack_store_float stack o x) (fun stack' =>
      stack_store_all stack' rest xs')
  | _, _ => Err OutOfRange
  end.

Definition eval_op_call (globals : EvalGlobals) (fn : Function)
    (in_offsets out_offsets : list Z) (stack : Stack) : result Stack :=
  if forallb stack_valid (in_offsets ++ out_offsets) then
    rbind (stack_load_all stack in_offsets) (fun args =>
    rbind (evaluate Interpreted fn args
             {| ctx_globals := globals; ctx_data := EvalData_new |}) (fun results =>
    stack_store_all stack out_offsets results))
  else Err StackOverflow.

(** The instructions from the current one on; running past the end of the
    stream is an addressing error. *)
Fixpoint eval_stream (globals : EvalGlobals) (code : list Instruction)
    (stack : Stack) : result Stack :=
  match code with
  | [] => Err OutOfRange
  | OP_END :: _ => Ok stack
  | OP_CALL fn in_offsets out_offsets :: rest =>
      rbind (eval_op_call globals fn in_offsets out_offsets stack)
            (eval_stream globals rest)
  end.

Definition eval_instructions (globals : EvalGlobals) (fn : bvm_Function)
    (entry_point : Z) (stack : Stack) : result Stack :=
  if 0 <=? entry_point then
    eval_stream globals (drop (Z.to_nat entry_point) (instructions fn)) stack
  else Err OutOfRange.

Definition eval_expression (globals : EvalGlobals) (fn : bvm_Function)
    (entry_point : Z) (stack : Stack) : result Stack :=
  eval_instructions globals fn entry_point stack.

(** An execution context without globals, and the state of a call that has
    not set any output yet. *)
Definition ExecutionContext_new : ExecutionContext :=
  {| ctx_globals := {| objects := [] |}; ctx_data := EvalData_new |}.

Definition CallState_new (out : Tuple) (c : ExecutionContext) : CallState :=
  {| fn_out := out; ctx := c; written := [] |}.

(** The Function object an accessor yields in a freshly started process. *)
Definition builtin_function (cell : LazyFunction) : result Function :=
  match accessor cell World_start with
  | Ok (fn, w) =>
      match heap w !! fn with
      | Some f => Ok f
      | None => Err OutOfRange
      end
  | Err e => Err e
  end.

(** The built-in function of an accessor, evaluated by its interpreted body
    and by the code its codegen body emits. *)
Definition interpret (cell : LazyFunction) (args : list float)
    (c : ExecutionContext) : result (list float) :=
  rbind (builtin_function cell) (fun f => evaluate Interpreted f args c).

Definition run_compiled (cell : LazyFunction) (args : list float)
    (c : ExecutionContext) : result (list float) :=
  rbind (builtin_function cell) (fun f => evaluate Codegen f args c).

(** The interpolation factor of [MapRange::call]: the local [t] after
    CLAMP. *)
Definition MapRange_t (div : float -> float -> float)
    (value from_min from_max : float) : float :=
  CLAMP (div (fsub value from_min) (fsub from_max from_min)) (of_Z 0) (of_Z 1).

Definition is_nonzero (x : float) : bool := negb (is_zero x).

(** The number of input slots each body is declared with: the inputs of the
    signature of [get_simple_math_function], respectively of [map_range]. *)
Definition declared_inputs (body : TupleCallBody) : nat :=
  match body with
  | MapRange => 5
  | _ => 2
  end.

(** What remains of a call once the inputs are read: an input error, or
    setting output slot 0 to a value. *)
Definition body_effect (r : result float) : Call unit :=
  match r with
  | Ok v => set_float 0 v
  | Err e => fun _ => Err e
  end.

(** A sequence of accessor calls, in order. *)
Fixpoint call_accessors (cells : list LazyFunction) (w : World) : result World :=
  match cells with
  | [] => Ok w
  | cell :: rest =>
      match accessor cell w with
      | Ok (_, w') => call_accessors rest w'
      | Err e => Err e
      end
  end.

(** Every initialised cell refers to the Function object of its accessor. *)
Definition World_wf (w : World) : Prop :=
  forall (cell : LazyFunction) (fn : SharedFunction),
    statics w cell = Some fn ->
    exists f : Function, heap w !! fn = Some f /\ builtin_function cell = Ok f.

Definition is_OP_END (i : Instruction) : bool :=
  match i with
  | OP_END => true
  | OP_CALL _ _ _ => false
  end.

(** The strategy each built-in function has a body for (the [add_body]
    calls of the accessors). *)
Definition attached_strategy (cell : LazyFunction) : Strategy :=
  match cell with
  | lazy_add_floats => Codegen
  | _ => Interpreted
  end.

(** ** Object modes (object_modes.c) *)

(** What object_modes.c takes from headers that are not available
    (DNA_object_types.h, BLI_utildefines.h, WM_types.h, BKE_report.h,
    ED_object.h, DNA_windowmanager_types.h): the values of the enumerators
    it names, the macro ELEM, and the width in bits of the signed integer
    type of [wm->op_undo_depth].  Everything below is parametric in them. *)
Class Headers : Type := {
  OB_MODE_OBJECT : Z;
  OB_MODE_EDIT : Z;
  OB_MODE_SCULPT : Z;
  OB_MODE_VERTEX_PAINT : Z;
  OB_MODE_WEIGHT_PAINT : Z;
  OB_MODE_TEXTURE_PAINT : Z;
  OB_MODE_PARTICLE_EDIT : Z;
  OB_MODE_POSE : Z;
  OB_MODE_EDIT_GPENCIL : Z;
  OB_MODE_PAINT_GPENCIL : Z;
  OB_MODE_SCULPT_GPENCIL : Z;
  OB_MODE_WEIGHT_GPENCIL : Z;
  OB_MODE_VERTEX_GPENCIL : Z;
  OB_MODE_ALL_MODE_DATA : Z;
  OB_MESH : Z;
  OB_CURVE : Z;
  OB_SURF : Z;
  OB_FONT : Z;
  OB_MBALL : Z;
  OB_LATTICE : Z;
  OB_ARMATURE : Z;
  OB_GPENCIL : Z;
  EM_FREEDATA : Z;
  WM_OP_EXEC_REGION_WIN : Z;
  RPT_ERROR : Z;
  ELEM : Z -> Z -> Z -> bool;
  op_undo_depth_bits : Z
}.

(** [eObjectMode]: an [int] holding mode flags. *)
Definition eObjectMode : Type := Z.

(** A C integer used as a condition. *)
Definition truthy (x : Z) : bool := negb (x =? 0).

(** A nullable address ([Main *], [Depsgraph *], [Scene *], [ReportList *]). *)
Definition Ptr : Type := option nat.

Definition is_NULL (p : Ptr) : bool :=
  match p with
  | None => true
  | Some _ => false
  end.

(** The fields of [Object] that object_modes.c reads. *)
Record SculptSession : Type := {
  mode_type : eObjectMode
}.

Record Object : Type := {
  ob_type : Z;
  ob_mode : eObjectMode;
  ob_sculpt : option SculptSession;
  ob_pose : option nat
}.

(** [Object *]: the address of an object. *)
Definition ObjectRef : Type := nat.

Record wmOperatorType : Type := {
  ot_name : string;
  ot_idname : string
}.

(** The calls object_modes.c makes for their effect only, with their
    arguments ([ob] is the object as it is when the call is made).
    [BLI_assert] does not change the control flow: an assertion is recorded
    with the value of its condition. *)
Inductive Event : Type :=
  | BLI_assert (condition : bool)
  | BKE_reportf (reports : Ptr) (type : Z) (format arg : string)
  | ED_object_editmode_exit_ex (bmain scene : Ptr) (ob : Object) (flag : Z)
  | ED_object_vpaintmode_exit_ex (ob : Object)
  | ED_object_wpaintmode_exit_ex (ob : Object)
  | ED_object_sculptmode_exit_ex (bmain depsgraph scene : Ptr) (ob : Object)
  | ED_object_posemode_exit_ex (bmain : Ptr) (ob : Object)
  | ED_object_texture_paint_mode_exit_ex (bmain scene : Ptr) (ob : Object)
  | ED_object_particle_edit_mode_exit_ex (scene : Ptr) (ob : Object)
  | ED_object_gpencil_exit (bmain : Ptr) (ob : Object).

(** The calls that leave a mode. *)
Definition is_exit_call (e : Event) : bool :=
  match e with
  | BLI_assert _ | BKE_reportf _ _ _ _ => false
  | _ => true
  end.

(** The context [C] and the program state reached through it: the undo
    depth of the window manager (a signed integer of [op_undo_depth_bits]
    bits), the active object of the view layer, the objects in memory, and
    the rest of the state, which the operators may read and change. *)
Record bContext (Rest : Type) : Type := {
  op_undo_depth : Z;
  OBACT : option ObjectRef;
  memory : ObjectRef -> Object;
  rest : Rest
}.
Arguments op_undo_depth {Rest} _.
Arguments OBACT {Rest} _.
Arguments memory {Rest} _ _.
Arguments rest {Rest} _.

Definition set_op_undo_depth {Rest : Type} (C : bContext Rest) (depth : Z) : bContext Rest :=
  {| op_undo_depth := depth; OBACT := OBACT C; memory := memory C; rest := rest C |}.

(** The value a signed integer object of [bits] bits holds once [z] is
    stored in it: [z] itself when the type has it, and otherwise [z] wrapped
    around in two's complement, which is what the compiled [++] and [--]
    leave. *)
Definition wrap_signed (bits z : Z) : Z :=
  (z + 2 ^ (bits - 1)) mod 2 ^ bits - 2 ^ (bits - 1).

Section ObjectModes.

Context {headers : Headers}.

Definition object_mode_op_string (mode : eObjectMode) : option string :=
  if truthy (Z.land mode OB_MODE_EDIT) then Some "OBJECT_OT_editmode_toggle"
  else if mode =? OB_MODE_SCULPT then Some "SCULPT_OT_sculptmode_toggle"
  else if mode =? OB_MODE_VERTEX_PAINT then Some "PAINT_OT_vertex_paint_toggle"
  else if mode =? OB_MODE_WEIGHT_PAINT then Some "PAINT_OT_weight_paint_toggle"
  else if mode =? OB_MODE_TEXTURE_PAINT then Some "PAINT_OT_texture_paint_toggle"
  else if mode =? OB_MODE_PARTICLE_EDIT then Some "PARTICLE_OT_particle_edit_toggle"
  else if mode =? OB_MODE_POSE then Some "OBJECT_OT_posemode_toggle"
  else if mode =? OB_MODE_EDIT_GPENCIL then Some "GPENCIL_OT_editmode_toggle"
  else if mode =? OB_MODE_PAINT_GPENCIL then Some "GPENCIL_OT_paintmode_toggle"
  else if mode =? OB_MODE_SCULPT_GPENCIL then Some "GPENCIL_OT_sculptmode_toggle"
  else if mode =? OB_MODE_WEIGHT_GPENCIL then Some "GPENCIL_OT_weightmode_toggle"
  else if mode =? OB_MODE_VERTEX_GPENCIL then Some "GPENCIL_OT_vertexmode_toggle"
  else None.

(** The [switch] takes the first label equal to [ob->type]; C requires the
    labels to be distinct. *)
Definition ED_object_mode_compat_test (ob : option Object) (mode : eObjectMode) : bool :=
  match ob with
  | Some ob =>
      if mode =? OB_MODE_OBJECT then true
      else if ob_type ob =? OB_MESH then
        truthy (Z.land mode
                  (Z.lor (Z.lor (Z.lor (Z.lor (Z.lor OB_MODE_EDIT OB_MODE_SCULPT)
                                                     OB_MODE_VERTEX_PAINT)
                                              OB_MODE_WEIGHT_PAINT)
                                OB_MODE_TEXTURE_PAINT)
                         OB_MODE_PARTICLE_EDIT))
      else if (ob_type ob =? OB_CURVE) || (ob_type ob =? OB_SURF)
              || (ob_type ob =? OB_FONT) || (ob_type ob =? OB_MBALL) then
        truthy (Z.land mode OB_MODE_EDIT)
      else if ob_type ob =? OB_LATTICE then
        truthy (Z.land mode (Z.lor OB_MODE_EDIT OB_MODE_WEIGHT_PAINT))
      else if ob_type ob =? OB_ARMATURE then
        truthy (Z.land mode (Z.lor OB_MODE_EDIT OB_MODE_POSE))
      else if ob_type ob =? OB_GPENCIL then
        truthy (Z.land mode
                  (Z.lor (Z.lor (Z.lor (Z.lor (Z.lor OB_MODE_EDIT OB_MODE_EDIT_GPENCIL)
                                                     OB_MODE_PAINT_GPENCIL)
                                              OB_MODE_SCULPT_GPENCIL)
                                OB_MODE_WEIGHT_GPENCIL)
                         OB_MODE_VERTEX_GPENCIL))
      else false
  | None => false
  end.

Section Operators.

(** The window manager and the kernel, which are not available: looking up
    an operator type by name (the registry belongs to the program state,
    hence the first argument), running an operator (by type, by name) in a
    context, which may change any part of the state, and asking whether an
    object is in edit mode.  The value the operator calls return is not
    used. *)
Variable Rest : Type.
Variable WM_operatortype_find : bContext Rest -> option string -> bool -> option wmOperatorType.
Variable WM_operator_name_call_ptr :
  bContext Rest -> option wmOperatorType -> Z -> Ptr -> bContext Rest.
Variable WM_operator_name_call : bContext Rest -> option string -> Z -> Ptr -> bContext Rest.
Variable BKE_object_is_in_editmode : Object -> bool.

(** The functions that read [ot->name] have no result ([None]) when [ot]
    is null; otherwise they yield the value returned, the state they leave
    and the reports they file. *)
Definition ED_object_mode_compat_set (C : bContext Rest) (ob : ObjectRef)
    (mode : eObjectMode) (reports : Ptr)
  : option (bool * bContext Rest * list Event) :=
  if negb (ELEM (ob_mode (memory C ob)) mode OB_MODE_OBJECT) then
    let opstring := object_mode_op_string (ob_mode (memory C ob)) in
    let C := WM_operator_name_call C opstring WM_OP_EXEC_REGION_WIN None in
    let ok := ELEM (ob_mode (memory C ob)) mode OB_MODE_OBJECT in
    if negb ok then
      match WM_operatortype_find C opstring false with
      | Some ot =>
          Some (ok, C, [BKE_reportf reports RPT_ERROR
                          "Unable to execute '%s', error changing modes" (ot_name ot)])
      | None => None
      end
    else Some (ok, C, [])
  else Some (true, C, []).

Definition ED_object_mode_set_ex (C : bContext Rest) (mode : eObjectMode)
    (use_undo : bool) (reports : Ptr)
  : option (bool * bContext Rest * list Event) :=
  match OBACT C with
  | None => Some (mode =? OB_MODE_OBJECT, C, [])
  | Some ob =>
      let mode :=
        if (ob_type (memory C ob) =? OB_GPENCIL) && (mode =? OB_MODE_EDIT)
        then OB_MODE_EDIT_GPENCIL else mode in
      if ob_mode (memory C ob) =? mode then Some (true, C, [])
      else if negb (ED_object_mode_compat_test (Some (memory C ob)) mode)
      then Some (false, C, [])
      else
        let opstring :=
          object_mode_op_string
            (if mode =? OB_MODE_OBJECT then ob_mode (memory C ob) else mode) in
        let ot := WM_operatortype_find C opstring false in
        let C :=
          if negb use_undo
          then set_op_undo_depth C (wrap_signed op_undo_depth_bits (op_undo_depth C + 1))
          else C in
        let C := WM_operator_name_call_ptr C ot WM_OP_EXEC_REGION_WIN None in
        let C :=
          if negb use_undo
          then set_op_undo_depth C (wrap_signed op_undo_depth_bits (op_undo_depth C - 1))
          else C in
        if negb (ob_mode (memory C ob) =? mode) then
          match ot with
          | Some ot =>
              Some (false, C,
                    [BKE_reportf reports RPT_ERROR
                       "Unable to execute '%s', error changing modes" (ot_name ot)])
          | None => None
          end
        else Some (true, C, [])
  end.

Definition ED_object_mode_set (C : bContext Rest) (mode : eObjectMode)
  : option (bool * bContext Rest * list Event) :=
  ED_object_mode_set_ex C mode true None.

(** [ob->sculpt && (ob->sculpt->mode_type == mode)] *)
Definition sculpt_mode_is (ob : Object) (mode : eObjectMode) : bool :=
  match ob_sculpt ob with
  | Some ss => mode_type ss =? mode
  | None => false
  end.

(** The value returned and the calls made, in order. *)
Definition ed_object_mode_generic_exit_ex (bmain depsgraph scene : Ptr) (ob : Object)
    (only_test : bool) : bool * list Event :=
  let entry := [BLI_assert (eqb (is_NULL bmain) only_test)] in
  if truthy (Z.land (ob_mode ob) OB_MODE_EDIT) then
    if BKE_object_is_in_editmode ob then
      if only_test then (true, entry)
      else (false, entry ++ [ED_object_editmode_exit_ex bmain scene ob EM_FREEDATA])
    else (false, entry)
  else if truthy (Z.land (ob_mode ob) OB_MODE_VERTEX_PAINT) then
    if sculpt_mode_is ob OB_MODE_VERTEX_PAINT then
      if only_test then (true, entry)
      else (false, entry ++ [ED_object_vpaintmode_exit_ex ob])
    else (false, entry)
  else if truthy (Z.land (ob_mode ob) OB_MODE_WEIGHT_PAINT) then
    if sculpt_mode_is ob OB_MODE_WEIGHT_PAINT then
      if only_test then (true, entry)
      else (false, entry ++ [ED_object_wpaintmode_exit_ex ob])
    else (false, entry)
  else if truthy (Z.land (ob_mode ob) OB_MODE_SCULPT) then
    if sculpt_mode_is ob OB_MODE_SCULPT then
      if only_test then (true, entry)
      else (false, entry ++ [ED_object_sculptmode_exit_ex bmain depsgraph scene ob])
    else (false, entry)
  else if truthy (Z.land (ob_mode ob) OB_MODE_POSE) then
    match ob_pose ob with
    | Some _ =>
        if only_test then (true, entry)
        else (false, entry ++ [ED_object_posemode_exit_ex bmain ob])
    | None => (false, entry)
    end
  else if truthy (Z.land (ob_mode ob) OB_MODE_TEXTURE_PAINT) then
    if only_test then (true, entry)
    else (false, entry ++ [ED_object_texture_paint_mode_exit_ex bmain scene ob])
  else if truthy (Z.land (ob_mode ob) OB_MODE_PARTICLE_EDIT) then
    if only_test then (true, entry)
    else (false, entry ++ [ED_object_particle_edit_mode_exit_ex scene ob])
  else if ob_type ob =? OB_GPENCIL then
    let accounted := [BLI_assert (Z.land (ob_mode ob) OB_MODE_OBJECT =? 0)] in
    if only_test then (true, entry ++ accounted)
    else (false, entry ++ accounted ++ [ED_object_gpencil_exit bmain ob])
  else
    if only_test then (false, entry)
    else (false, entry ++ [BLI_assert (Z.land (ob_mode ob) OB_MODE_ALL_MODE_DATA =? 0)]).

(** The function returns nothing: only its calls remain. *)
Definition ED_object_mode_generic_exit (bmain depsgraph scene : Ptr) (ob : Object)
  : list Event :=
  snd (ed_object_mode_generic_exit_ex bmain depsgraph scene ob false).

Definition ED_object_mode_generic_has_data (depsgraph : Ptr) (ob : Object)
  : bool * list Event :=
  ed_object_mode_generic_exit_ex None depsgraph None ob true.

End Operators.

End ObjectModes.

(** *** Switch Object *)

Section SwitchObject.

Context {headers : Headers}.

(** The context queries, which are not available: the 3D region of the
    context and its active object. *)
Variable Rest : Type.
Variable CTX_wm_region_view3d : bContext Rest -> Ptr.
Variable CTX_data_active_object : bContext Rest -> option ObjectRef.

Definition object_switch_object_poll (C : bContext Rest) : bool :=
  if is_NULL (CTX_wm_region_view3d C) then false
  else
    match CTX_data_active_object C with
    | Some ob => truthy (Z.land (ob_mode (memory C ob)) (Z.lor OB_MODE_EDIT OB_MODE_SCULPT))
    | None => false
    end.

End SwitchObject.

(** *** Definitions for the properties of the object modes *)

Definition eObjectMode_flags {headers : Headers} : list eObjectMode :=
  [ OB_MODE_EDIT; OB_MODE_SCULPT; OB_MODE_VERTEX_PAINT; OB_MODE_WEIGHT_PAINT;
    OB_MODE_TEXTURE_PAINT; OB_MODE_PARTICLE_EDIT; OB_MODE_POSE; OB_MODE_EDIT_GPENCIL;
    OB_MODE_PAINT_GPENCIL; OB_MODE_SCULPT_GPENCIL; OB_MODE_WEIGHT_GPENCIL;
    OB_MODE_VERTEX_GPENCIL ].

Fixpoint pairwise_disjoint (flags : list Z) : bool :=
  match flags with
  | [] => true
  | a :: rest => forallb (fun b => Z.land a b =? 0) rest && pairwise_disjoint rest
  end.

(** [OB_MODE_OBJECT] is no flag at all, and the mode flags are nonzero and
    share no bit. *)
Definition mode_flags_wf {headers : Headers} : bool :=
  (OB_MODE_OBJECT =? 0) && forallb truthy eObjectMode_flags
  && pairwise_disjoint eObjectMode_flags.

Definition object_types {headers : Headers} : list Z :=
  [ OB_MESH; OB_CURVE; OB_SURF; OB_FONT; OB_MBALL; OB_LATTICE; OB_ARMATURE; OB_GPENCIL ].

(** [ELEM(a, b, c)]: [a] is one of [b] and [c]. *)
Definition ELEM_wf {headers : Headers} : Prop :=
  forall a b c : Z, ELEM a b c = (a =? b) || (a =? c).

(** The first entry of a table of modes that equals [mode]. *)
Fixpoint first_equal (table : list (eObjectMode * string)) (mode : eObjectMode)
  : option string :=
  match table with
  | [] => None
  | (m, s) :: rest => if mode =? m then Some s else first_equal rest mode
  end.

(** An assignment of the enumerators, with a bit per mode flag, and an
    undo depth of the width of [int]. *)
Definition sample_headers : Headers :=
  {| OB_MODE_OBJECT := 0;
     OB_MODE_EDIT := 1;
     OB_MODE_SCULPT := 2;
     OB_MODE_VERTEX_PAINT := 4;
     OB_MODE_WEIGHT_PAINT := 8;
     OB_MODE_TEXTURE_PAINT := 16;
     OB_MODE_PARTICLE_EDIT := 32;
     OB_MODE_POSE := 64;
     OB_MODE_EDIT_GPENCIL := 128;
     OB_MODE_PAINT_GPENCIL := 256;
     OB_MODE_SCULPT_GPENCIL := 512;
     OB_MODE_WEIGHT_GPENCIL := 1024;
     OB_MODE_VERTEX_GPENCIL := 2048;
     OB_MODE_ALL_MODE_DATA := 4047;
     OB_MESH := 1;
     OB_CURVE := 2;
     OB_SURF := 3;
     OB_FONT := 4;
     OB_MBALL := 5;
     OB_LATTICE := 22;
     OB_ARMATURE := 25;
     OB_GPENCIL := 26;
     EM_FREEDATA := 1;
     WM_OP_EXEC_REGION_WIN := 7;
     RPT_ERROR := 32;
     ELEM := fun a b c => (a =? b) || (a =? c);
     op_undo_depth_bits := 32 |}.

(** A state to run the functions on: an object of a given type and mode,
    the only object in memory and the active one; operator types named
    after their identifier; operators that toggle the Edit flag of every
    object. *)
Definition sample_object (type : Z) (mode : eObjectMode) : Object :=
  {| ob_type := type; ob_mode := mode; ob_sculpt := None; ob_pose := None |}.

Definition sample_mesh (mode : eObjectMode) : Object :=
  sample_object (@OB_MESH sample_headers) mode.

Definition sample_context (ob : Object) : bContext unit :=
  {| op_undo_depth := 0; OBACT := Some 0%nat; memory := fun _ => ob; rest := tt |}.

Definition sample_operatortype_find (C : bContext unit) (idname : option string)
    (quiet : bool) : option wmOperatorType :=
  option_map (fun s => {| ot_name := s; ot_idname := s |}) idname.

Definition sample_operator_call_ptr (C : bContext unit) (ot : option wmOperatorType)
    (context : Z) (properties : Ptr) : bContext unit :=
  match ot with
  | Some _ =>
      {| op_undo_depth := op_undo_depth C; OBACT := OBACT C;
         memory := fun ob => {| ob_type := ob_type (memory C ob);
                                ob_mode := Z.lxor (ob_mode (memory C ob))
                                                  (@OB_MODE_EDIT sample_headers);
                                ob_sculpt := ob_sculpt (memory C ob);
                                ob_pose := ob_pose (memory C ob) |};
         rest := rest C |}
  | None => C
  end.

Definition sample_operator_call (C : bContext unit) (opstring : option string)
    (context : Z) (properties : Ptr) : bContext unit :=
  sample_operator_call_ptr C (sample_operatortype_find C opstring false) context properties.

(** ** Rounding on integers: definitions for the proofs *)

(** Shifting right by [k] bits, as the round and sticky bits see it. *)
Definition shr_state (m : Z) (k : nat) : shr_record :=
  match k with
  | O => {| shr_m := m; shr_r := false; shr_s := false |}
  | S j => {| shr_m := m / 2 ^ Z.of_nat k;
              shr_r := Z.odd (m / 2 ^ Z.of_nat j);
              shr_s := negb (m mod 2 ^ Z.of_nat j =? 0) |}
  end.

(** [m / 2^n] rounded to the nearest integer, ties to even. *)
Definition rnd (m n : Z) : Z :=
  if n <=? 0 then m
  else match m mod 2 ^ n ?= 2 ^ (n - 1) with
       | Lt => m / 2 ^ n
       | Gt => m / 2 ^ n + 1
       | Eq => if Z.even (m / 2 ^ n) then m / 2 ^ n else m / 2 ^ n + 1
       end.

(** The two alignments and the rounding of [binary_round_aux], on
    integers. *)
Definition round_spec (s : bool) (m e : Z) : float :=
  let n := Z.max 0 (fexp prec emax (Zdigits2 m + e) - e) in
  let M := rnd m n in
  let E := e + n in
  let n2 := Z.max 0 (fexp prec emax (Zdigits2 M + E) - E) in
  match M / 2 ^ n2 with
  | Z0 => S754_zero s
  | Zpos q => if E + n2 <=? emax - prec then S754_finite s q (E + n2) else S754_infinity s
  | Zneg _ => S754_nan
  end.

(** Twice [emin]: no operation on valid floats rounds a value with a
    smaller exponent. *)
Definition unit_exp : Z := -298.

(** The value of a float in units of [2^unit_exp]; an infinity counts as
    [2^emax]. *)
Definition units (x : float) : Z :=
  match x with
  | S754_zero _ => 0
  | S754_nan => 0
  | S754_infinity s => cond_Zopp s (2 ^ (emax - unit_exp))
  | S754_finite s m e => cond_Zopp s (Zpos m * 2 ^ (e - unit_exp))
  end.

(** The second alignment and the overflow test of [binary_round_aux]. *)
Definition finish (s : bool) (M E : Z) : float :=
  let n2 := Z.max 0 (fexp prec emax (Zdigits2 M + E) - E) in
  match M / 2 ^ n2 with
  | Z0 => S754_zero s
  | Zpos q => if E + n2 <=? emax - prec then S754_finite s q (E + n2) else S754_infinity s
  | Zneg _ => S754_nan
  end.

(** Rounding to nearest (ties to even, overflow to [2^emax]) of the
    nonnegative value [N * 2^unit_exp], in units of [2^unit_exp]. *)
Definition round_pos (N : Z) : Z :=
  let n := fexp prec emax (Zdigits2 N + unit_exp) - unit_exp in
  Z.min (rnd N n * 2 ^ n) (2 ^ (emax - unit_exp)).

Definition round_units (N : Z) : Z := if N <? 0 then - round_pos (- N) else round_pos N.

(** The location of a remainder, as two bits below the quotient. *)
Definition loc_code (l : location) : Z :=
  match l with
  | loc_Exact => 0
  | loc_Inexact Lt => 1
  | loc_Inexact Eq => 2
  | loc_Inexact Gt => 3
  end.

(** [num / den] in halves, rounded to odd: twice the integer part of
    [num / (2 * den)], plus one when the division is not exact. *)
Definition sticky (num den : Z) : Z :=
  2 * (num / (2 * den)) + (if num mod (2 * den) =? 0 then 0 else 1).

(** The quotient by a positive float of value [ur], both in units of
    [2^unit_exp], as a function of the value [x] of the dividend. *)
Definition quotient_units (ur x : Z) : Z :=
  if 2 ^ (emax - unit_exp) <=? x then 2 ^ (emax - unit_exp)
  else if x <=? - 2 ^ (emax - unit_exp) then - 2 ^ (emax - unit_exp)
  else if x <? 0 then - round_pos (sticky (- x * 2 ^ (- unit_exp)) ur)
  else round_pos (sticky (x * 2 ^ (- unit_exp)) ur).

(** * Properties *)

(** ** Facts about binary32 rounding *)

Lemma digits2_pos_size (m : positive) : digits2_pos m = Pos.size m.
Proof. induction m; simpl; congruence. Qed.

Lemma digits_lower (m : positive) : 2 ^ (Zpos (digits2_pos m) - 1) <= Zpos m.
Proof.
  rewrite digits2_pos_size.
  pose proof (Pos.size_le m) as H.
  assert (Hp : Zpos (2 ^ Pos.size m) <= Zpos (2 * m)) by (apply Pos2Z.pos_le_pos; exact H).
  rewrite Pos2Z.inj_pow, Pos2Z.inj_mul in Hp.
  replace (Zpos (Pos.size m)) with (1 + (Zpos (Pos.size m) - 1)) in Hp by lia.
  rewrite Z.pow_add_r in Hp by lia. lia.
Qed.

Lemma digits_upper (m : positive) : Zpos m < 2 ^ Zpos (digits2_pos m).
Proof.
  rewrite digits2_pos_size. rewrite <- Pos2Z.inj_pow.
  apply Pos2Z.pos_lt_pos. apply Pos.size_gt.
Qed.

Lemma shr_1_m (mrs : shr_record) :
  0 <= shr_m mrs -> shr_m (shr_1 mrs) = shr_m mrs / 2.
Proof.
  destruct mrs as [m r s]; simpl; intros Hm.
  destruct m as [|p|p]; [reflexivity| |lia].
  destruct p as [p|p|]; simpl.
  - rewrite Pos2Z.inj_xI. apply Z.div_unique with 1; lia.
  - rewrite Pos2Z.inj_xO. apply Z.div_unique with 0; lia.
  - reflexivity.
Qed.

Lemma iter_shr_1_m (p : positive) : forall mrs : shr_record,
  0 <= shr_m mrs -> shr_m (SpecFloat.iter_pos shr_1 p mrs) = shr_m mrs / 2 ^ Zpos p.
Proof.
  induction p as [p IH|p IH|]; intros mrs Hm; simpl SpecFloat.iter_pos.
  - assert (H1 : 0 <= shr_m (shr_1 mrs)) by (rewrite shr_1_m by lia; apply Z.div_pos; lia).
    assert (H2 : 0 <= shr_m (SpecFloat.iter_pos shr_1 p (shr_1 mrs)))
      by (rewrite IH by lia; apply Z.div_pos; lia).
    rewrite IH, IH, shr_1_m by lia.
    rewrite !Z.div_div by lia. f_equal.
    assert (E : Zpos p~1 = 1 + Zpos p + Zpos p) by lia.
    rewrite E, !Z.pow_add_r by lia. lia.
  - assert (H2 : 0 <= shr_m (SpecFloat.iter_pos shr_1 p mrs))
      by (rewrite IH by lia; apply Z.div_pos; lia).
    rewrite IH, IH by lia.
    rewrite !Z.div_div by lia. f_equal.
    assert (E : Zpos p~0 = Zpos p + Zpos p) by lia.
    rewrite E, !Z.pow_add_r by lia. lia.
  - rewrite shr_1_m by lia. reflexivity.
Qed.

Lemma shr_record_of_loc_m (m : Z) (l : location) : shr_m (shr_record_of_loc m l) = m.
Proof. destruct l as [|[]]; reflexivity. Qed.

Lemma shr_fexp_pos (m e : Z) (l : location) :
  0 < m -> emin prec emax <= e ->
  0 < shr_m (fst (shr_fexp prec emax m e l)) /\ emin prec emax <= snd (shr_fexp prec emax m e l).
Proof.
  intros Hm He. unfold shr_fexp, shr.
  destruct m as [|p|p]; try lia. simpl Zdigits2.
  remember (fexp prec emax (Zpos (digits2_pos p) + e) - e) as n eqn:Hn.
  destruct n as [|n|n]; simpl fst; simpl snd; rewrite ?shr_record_of_loc_m; try lia.
  split.
  - rewrite iter_shr_1_m by (rewrite shr_record_of_loc_m; lia).
    rewrite shr_record_of_loc_m.
    unfold fexp, emin, prec, emax in *.
    pose proof (digits_lower p) as Hd.
    assert (Hle : 2 ^ Zpos n <= Zpos p).
    { eapply Z.le_trans; [|exact Hd]. apply Z.pow_le_mono_r; lia. }
    apply Z.div_str_pos. lia.
  - lia.
Qed.

Lemma round_nearest_even_pos (m : Z) (l : location) :
  0 < m -> 0 < round_nearest_even m l.
Proof.
  intros Hm. destruct l as [|[]]; simpl; try lia. destruct (Z.even m); lia.
Qed.

Lemma binary_round_aux_nonzero (s : bool) (m e : Z) (l : location) :
  0 < m -> emin prec emax <= e ->
  is_nonzero (binary_round_aux prec emax s m e l) = true.
Proof.
  intros Hm He. unfold binary_round_aux.
  pose proof (shr_fexp_pos m e l Hm He) as [H1 H1e].
  destruct (shr_fexp prec emax m e l) as [mrs' e']. simpl in H1, H1e.
  pose proof (shr_fexp_pos _ e' loc_Exact
                (round_nearest_even_pos _ (loc_of_shr_record mrs') H1) H1e) as [H2 _].
  destruct (shr_fexp prec emax _ e' loc_Exact) as [mrs'' e'']. simpl in H2.
  destruct (shr_m mrs'') as [|q|q]; try lia.
  destruct (e'' <=? emax - prec); reflexivity.
Qed.

Lemma binary_round_nonzero (s : bool) (m : positive) (e : Z) :
  emin prec emax <= e -> is_nonzero (binary_round prec emax s m e) = true.
Proof.
  intros He. unfold binary_round, shl_align.
  destruct (fexp prec emax (Zpos (digits2_pos m) + e) - e) eqn:Hd;
    apply binary_round_aux_nonzero; try lia.
  unfold fexp, emin, prec, emax in *. lia.
Qed.

Lemma binary_normalize_nonzero (m e : Z) (sz : bool) :
  m <> 0 -> emin prec emax <= e -> is_nonzero (binary_normalize prec emax m e sz) = true.
Proof.
  intros Hm He. destruct m as [|p|p]; [contradiction| |]; simpl;
    apply binary_round_nonzero; assumption.
Qed.

Lemma iter_xO_value (d m : positive) : Zpos (Pos.iter xO m d) = Zpos m * 2 ^ Zpos d.
Proof.
  induction d as [|d IH] using Pos.peano_ind.
  - simpl. lia.
  - rewrite Pos.iter_succ, Pos2Z.inj_xO, IH, Pos2Z.inj_succ, Z.pow_succ_r by lia. lia.
Qed.

Lemma shl_align_value (m : positive) (e e' : Z) :
  e' <= e -> Zpos (fst (shl_align m e e')) = Zpos m * 2 ^ (e - e').
Proof.
  intros Hle. unfold shl_align.
  destruct (e' - e) as [|d|d] eqn:Hd; simpl fst.
  - replace (e - e') with 0 by lia. simpl. lia.
  - lia.
  - rewrite iter_xO_value. f_equal. f_equal. lia.
Qed.

Lemma digits_unique (m : positive) (d : Z) :
  2 ^ (d - 1) <= Zpos m < 2 ^ d -> Zpos (digits2_pos m) = d.
Proof.
  intros [Hlo Hhi].
  pose proof (digits_lower m) as Hl. pose proof (digits_upper m) as Hu.
  assert (Hd : 0 < d).
  { destruct (Z_lt_le_dec 0 d) as [|Hn]; [assumption|].
    destruct (Z.eq_dec d 0) as [->|]; [simpl in Hhi; lia|].
    rewrite Z.pow_neg_r in Hhi by lia. lia. }
  assert (H1 : Zpos (digits2_pos m) - 1 < d).
  { apply (Z.pow_lt_mono_r_iff 2); lia. }
  assert (H2 : d - 1 < Zpos (digits2_pos m)).
  { apply (Z.pow_lt_mono_r_iff 2); lia. }
  lia.
Qed.

Lemma digits_shift (m : positive) (k : Z) (p : positive) :
  0 <= k -> Zpos p = Zpos m * 2 ^ k ->
  Zpos (digits2_pos p) = Zpos (digits2_pos m) + k.
Proof.
  intros Hk Hp. apply digits_unique. rewrite Hp.
  pose proof (digits_lower m) as Hl. pose proof (digits_upper m) as Hu.
  replace (Zpos (digits2_pos m) + k - 1) with (Zpos (digits2_pos m) - 1 + k) by lia.
  rewrite !Z.pow_add_r by lia.
  assert (0 < 2 ^ k) by (apply Z.pow_pos_nonneg; lia).
  split; nia.
Qed.

Lemma canonical_emin (m : positive) (e : Z) :
  canonical_mantissa prec emax m e = true -> emin prec emax <= e.
Proof.
  unfold canonical_mantissa, fexp. intros H. apply Z.eqb_eq in H. lia.
Qed.

Lemma canonical_aligned_eq (m1 m2 : positive) (e1 e2 : Z) :
  canonical_mantissa prec emax m1 e1 = true ->
  canonical_mantissa prec emax m2 e2 = true ->
  Zpos m1 * 2 ^ (e1 - Z.min e1 e2) = Zpos m2 * 2 ^ (e2 - Z.min e1 e2) ->
  e1 = e2 /\ m1 = m2.
Proof.
  unfold canonical_mantissa. intros H1 H2 Heq.
  apply Z.eqb_eq in H1, H2.
  assert (He : e1 = e2).
  { destruct (Z.lt_trichotomy e1 e2) as [Hlt|[?|Hlt]]; [|assumption|].
    - exfalso. rewrite Z.min_l in Heq by lia.
      replace (e1 - e1) with 0 in Heq by lia. rewrite Z.pow_0_r, Z.mul_1_r in Heq.
      pose proof (digits_shift m2 (e2 - e1) m1 ltac:(lia) Heq) as Hd.
      unfold fexp in *. lia.
    - exfalso. rewrite Z.min_r in Heq by lia.
      replace (e2 - e2) with 0 in Heq by lia. rewrite Z.pow_0_r, Z.mul_1_r in Heq.
      pose proof (digits_shift m1 (e1 - e2) m2 ltac:(lia) (eq_sym Heq)) as Hd.
      unfold fexp in *. lia. }
  split; [assumption|]. subst e2.
  rewrite Z.min_id in Heq. replace (e1 - e1) with 0 in Heq by lia.
  rewrite Z.pow_0_r in Heq. lia.
Qed.

Lemma is_nonzero_feq_zero (x : float) (s : bool) :
  is_nonzero x = true -> feq x (S754_zero s) = false.
Proof. destruct x as [?|[]| |[] ? ?]; intros H; try discriminate H; reflexivity. Qed.

Lemma feq_refl_finite (s : bool) (m : positive) (e : Z) :
  feq (S754_finite s m e) (S754_finite s m e) = true.
Proof.
  unfold feq, SFeqb, SFcompare.
  destruct s; rewrite Z.compare_refl, Pos.compare_cont_refl; reflexivity.
Qed.

Lemma fsub_nonzero (x y : float) :
  is_valid x = true -> is_valid y = true -> feq x y = false ->
  feq (fsub x y) (of_Z 0) = false.
Proof.
  intros Hx Hy Hne. change (of_Z 0) with (S754_zero false).
  apply is_nonzero_feq_zero.
  destruct x as [sx|sx| |sx mx ex], y as [sy|sy| |sy my ey];
    try reflexivity; try (destruct sx, sy; reflexivity);
    try (destruct sx, sy; discriminate Hne).
  unfold is_valid, valid_binary, bounded in Hx, Hy.
  apply andb_prop in Hx as [Hx _]. apply andb_prop in Hy as [Hy _].
  unfold fsub, SFsub.
  apply binary_normalize_nonzero.
  - rewrite !shl_align_value by lia.
    intros Hz.
    destruct sx, sy; unfold cond_Zopp in Hz;
      try (assert (0 < Zpos mx * 2 ^ (ex - Z.min ex ey))
             by (apply Z.mul_pos_pos; [lia|apply Z.pow_pos_nonneg; lia]);
           assert (0 < Zpos my * 2 ^ (ey - Z.min ex ey))
             by (apply Z.mul_pos_pos; [lia|apply Z.pow_pos_nonneg; lia]);
           lia).
    + destruct (canonical_aligned_eq mx my ex ey Hx Hy ltac:(lia)) as [-> ->].
      rewrite feq_refl_finite in Hne. discriminate.
    + destruct (canonical_aligned_eq mx my ex ey Hx Hy ltac:(lia)) as [-> ->].
      rewrite feq_refl_finite in Hne. discriminate.
  - apply canonical_emin in Hx, Hy. lia.
Qed.

Lemma fadd_comm (x y : float) : fadd x y = fadd y x.
Proof.
  destruct x as [sx|sx| |sx mx ex], y as [sy|sy| |sy my ey];
    try reflexivity; try (destruct sx, sy; reflexivity).
  unfold fadd, SFadd. rewrite (Z.min_comm ey ex). f_equal. apply Z.add_comm.
Qed.


Lemma SFcompare_antisym (x y : float) :
  SFcompare y x = option_map CompOpp (SFcompare x y).
Proof.
  destruct x as [sx|sx| |sx mx ex], y as [sy|sy| |sy my ey];
    try reflexivity; try (destruct sx; reflexivity); try (destruct sy; reflexivity);
    try (destruct sx, sy; reflexivity).
  unfold SFcompare.
  change (Pos.compare_cont Eq my mx) with (Pos.compare my mx).
  change (Pos.compare_cont Eq mx my) with (Pos.compare mx my).
  rewrite (Z.compare_antisym ex ey), (Pos.compare_antisym mx my).
  destruct sx, sy; try reflexivity; simpl option_map; f_equal;
    destruct (ex ?= ey); simpl; try reflexivity;
    destruct (Pos.compare mx my); reflexivity.
Qed.

Lemma SFcompare_refl (x : float) :
  is_nan x = false -> SFcompare x x = Some Eq.
Proof.
  destruct x as [sx|sx| |sx mx ex]; simpl; intros H; try discriminate;
    try reflexivity; try (destruct sx; reflexivity).
  destruct sx; rewrite Z.compare_refl, Pos.compare_cont_refl; reflexivity.
Qed.

Lemma feq_finite_inv (x y : float) :
  is_finite x = true -> is_finite y = true -> feq x y = true ->
  x = y \/ (is_zero x = true /\ is_zero y = true).
Proof.
  destruct x as [sx|sx| |sx mx ex], y as [sy|sy| |sy my ey];
    try discriminate; intros _ _ H.
  - right. split; reflexivity.
  - destruct sy; discriminate H.
  - destruct sx; discriminate H.
  - left. unfold feq, SFeqb, SFcompare in H.
    destruct sx, sy; try discriminate H;
      destruct (ex ?= ey) eqn:He; try discriminate H;
      apply Z.compare_eq in He; subst ey;
      change (Pos.compare_cont Eq mx my) with (Pos.compare mx my) in H;
      destruct (Pos.compare mx my) eqn:Hm; try discriminate H;
      apply Pos.compare_eq in Hm; subst my; reflexivity.
Qed.

Lemma fsub_self_zero (x : float) :
  is_finite x = true -> fsub x x = S754_zero false.
Proof.
  destruct x as [sx|sx| |sx mx ex]; try discriminate; intros _.
  - destruct sx; reflexivity.
  - unfold fsub, SFsub. rewrite Z.sub_diag. reflexivity.
Qed.

Lemma fsub_equal_zero (x y : float) :
  is_finite x = true -> is_finite y = true -> feq x y = true ->
  feq (fsub x y) (of_Z 0) = true.
Proof.
  intros Hx Hy H.
  destruct (feq_finite_inv x y Hx Hy H) as [->|[Zx Zy]].
  - rewrite fsub_self_zero by assumption. reflexivity.
  - destruct x as [[]| | |], y as [[]| | |]; try discriminate; reflexivity.
Qed.

(** ** Comparisons *)

Lemma SFcompare_None (x y : float) :
  SFcompare x y = None -> is_nan x = true \/ is_nan y = true.
Proof.
  destruct x as [sx|sx| |sx mx ex], y as [sy|sy| |sy my ey]; simpl;
    intros H; try discriminate H; auto.
Qed.

Lemma flt_false_fle (x y : float) :
  is_nan x = false -> is_nan y = false -> flt x y = false -> fle y x = true.
Proof.
  intros Hx Hy H. unfold flt, SFltb in H. unfold fle, SFleb.
  rewrite SFcompare_antisym.
  destruct (SFcompare x y) as [[]|] eqn:E; try reflexivity; try discriminate H.
  destruct (SFcompare_None x y E); congruence.
Qed.

Lemma flt_true_fle (x y : float) : flt x y = true -> fle x y = true.
Proof.
  unfold flt, SFltb, fle, SFleb. destruct (SFcompare x y) as [[]|]; congruence.
Qed.

Lemma flt_asym (x y : float) : flt x y = true -> flt y x = false.
Proof.
  unfold flt, SFltb. rewrite (SFcompare_antisym x y).
  destruct (SFcompare x y) as [[]|]; simpl; congruence.
Qed.

Lemma flt_irrefl (x : float) : flt x x = false.
Proof.
  unfold flt, SFltb. destruct (is_nan x) eqn:E.
  - destruct x; try discriminate E. reflexivity.
  - rewrite SFcompare_refl by assumption. reflexivity.
Qed.

Lemma fle_refl (x : float) : is_nan x = false -> fle x x = true.
Proof. intros H. unfold fle, SFleb. rewrite SFcompare_refl by assumption. reflexivity. Qed.

Lemma CLAMP_unit (a : float) :
  is_nan (CLAMP a (of_Z 0) (of_Z 1)) = true
  \/ (fle (of_Z 0) (CLAMP a (of_Z 0) (of_Z 1)) = true
      /\ fle (CLAMP a (of_Z 0) (of_Z 1)) (of_Z 1) = true).
Proof.
  unfold CLAMP.
  destruct (flt a (of_Z 0)) eqn:H0; [right; split; reflexivity|].
  destruct (flt (of_Z 1) a) eqn:H1; [right; split; reflexivity|].
  destruct (is_nan a) eqn:Hn; [left; reflexivity|right].
  split; apply flt_false_fle; auto.
Qed.

(** ** Round-to-nearest is monotone

    [binary_round_aux] is first rewritten on integers ([round_spec]).  The
    value of a float is then measured in units of [2^unit_exp] ([units]):
    there the result of adding, subtracting or multiplying valid floats is
    a monotone function ([round_units]) of the exact value, and the order
    of valid floats is the order of their measures. *)

Lemma iter_pos_nat {A : Type} (f : A -> A) (p : positive) : forall x : A,
  SpecFloat.iter_pos f p x = Nat.iter (Pos.to_nat p) f x.
Proof.
  induction p as [p IH|p IH|]; intros x; simpl SpecFloat.iter_pos.
  - rewrite !IH, Pos2Nat.inj_xI. simpl Nat.iter.
    rewrite <- Nat.iter_add, Nat.add_0_r.
    replace (Nat.iter (Pos.to_nat p + Pos.to_nat p) f (f x))
      with (Nat.iter (S (Pos.to_nat p + Pos.to_nat p)) f x); [reflexivity|].
    rewrite Nat.iter_succ_r. reflexivity.
  - rewrite !IH, Pos2Nat.inj_xO. simpl Nat.mul.
    rewrite <- Nat.iter_add, Nat.add_0_r. reflexivity.
  - reflexivity.
Qed.

Lemma shr_1_gen (m : Z) (r s : bool) :
  0 <= m ->
  shr_1 {| shr_m := m; shr_r := r; shr_s := s |}
  = {| shr_m := m / 2; shr_r := Z.odd m; shr_s := r || s |}.
Proof.
  intros Hm. destruct m as [|p|p]; [reflexivity| |lia].
  destruct p as [p|p|]; simpl shr_1; f_equal.
  - rewrite Pos2Z.inj_xI. apply Z.div_unique with 1; lia.
  - rewrite Pos2Z.inj_xO. apply Z.div_unique with 0; lia.
Qed.

Lemma sticky_step (m a : Z) :
  0 <= a ->
  negb (m mod 2 ^ (a + 1) =? 0) = Z.odd (m / 2 ^ a) || negb (m mod 2 ^ a =? 0).
Proof.
  intros Ha.
  assert (Hp : 0 < 2 ^ a) by (apply Z.pow_pos_nonneg; lia).
  rewrite Z.pow_add_r, Z.pow_1_r by lia.
  rewrite Z.rem_mul_r by lia.
  pose proof (Z.mod_pos_bound m (2 ^ a) Hp) as Hb.
  rewrite Zmod_odd.
  destruct (Z.odd (m / 2 ^ a)); destruct (m mod 2 ^ a =? 0) eqn:E; simpl.
  - apply Z.eqb_eq in E. apply negb_true_iff, Z.eqb_neq. lia.
  - apply Z.eqb_neq in E. apply negb_true_iff, Z.eqb_neq. lia.
  - apply Z.eqb_eq in E. apply negb_false_iff, Z.eqb_eq. lia.
  - apply Z.eqb_neq in E. apply negb_true_iff, Z.eqb_neq. lia.
Qed.

Lemma shr_1_state (m : Z) (k : nat) :
  0 <= m -> shr_1 (shr_state m k) = shr_state m (S k).
Proof.
  intros Hm. destruct k as [|j].
  - unfold shr_state. rewrite shr_1_gen by assumption.
    change (2 ^ Z.of_nat 0) with 1. change (2 ^ Z.of_nat 1) with 2.
    rewrite Z.div_1_r, Z.mod_1_r. reflexivity.
  - unfold shr_state.
    assert (Hq : 0 <= m / 2 ^ Z.of_nat (S j))
      by (apply Z.div_pos; [lia|apply Z.pow_pos_nonneg; lia]).
    rewrite shr_1_gen by assumption. f_equal.
    + rewrite Z.div_div by (try apply Z.pow_pos_nonneg; lia).
      f_equal. replace (Z.of_nat (S (S j))) with (Z.of_nat (S j) + 1) by lia.
      rewrite Z.pow_add_r, Z.pow_1_r by lia. reflexivity.
    + replace (Z.of_nat (S j)) with (Z.of_nat j + 1) by lia.
      symmetry. apply sticky_step. lia.
Qed.

Lemma iter_shr_1_state (m : Z) (k : nat) :
  0 <= m -> Nat.iter k shr_1 (shr_state m 0) = shr_state m k.
Proof.
  intros Hm. induction k as [|k IH]; [reflexivity|].
  rewrite Nat.iter_succ, IH. apply shr_1_state. assumption.
Qed.

Lemma shr_state_m (m : Z) (k : nat) : shr_m (shr_state m k) = m / 2 ^ Z.of_nat k.
Proof. destruct k; [simpl; rewrite Z.div_1_r|]; reflexivity. Qed.

Lemma round_state (m : Z) (k : nat) :
  0 <= m ->
  round_nearest_even (shr_m (shr_state m k)) (loc_of_shr_record (shr_state m k))
  = rnd m (Z.of_nat k).
Proof.
  intros Hm. destruct k as [|j]; [reflexivity|].
  unfold rnd.
  assert (Hk : (Z.of_nat (S j) <=? 0) = false) by (apply Z.leb_gt; lia).
  rewrite Hk.
  replace (Z.of_nat (S j) - 1) with (Z.of_nat j) by lia.
  unfold shr_state. cbv [shr_m shr_r shr_s loc_of_shr_record].
  set (a := Z.of_nat j). assert (Ha : 0 <= a) by lia.
  replace (Z.of_nat (S j)) with (a + 1) by lia.
  assert (Hp : 0 < 2 ^ a) by (apply Z.pow_pos_nonneg; lia).
  assert (Hrem : m mod 2 ^ (a + 1) = 2 ^ a * (m / 2 ^ a mod 2) + m mod 2 ^ a).
  { rewrite Z.pow_add_r, Z.pow_1_r by lia. rewrite Z.rem_mul_r by lia. lia. }
  pose proof (Z.mod_pos_bound m (2 ^ a) Hp) as Hb.
  rewrite Hrem, Zmod_odd.
  destruct (Z.odd (m / 2 ^ a)); destruct (Z.eqb_spec (m mod 2 ^ a) 0) as [E|E];
    simpl negb; cbv [round_nearest_even]; cbv beta iota.
  - replace (2 ^ a * 1 + m mod 2 ^ a ?= 2 ^ a) with Eq by (symmetry; apply Z.compare_eq_iff; lia).
    reflexivity.
  - replace (2 ^ a * 1 + m mod 2 ^ a ?= 2 ^ a) with Gt by (symmetry; apply Z.compare_gt_iff; lia).
    reflexivity.
  - replace (2 ^ a * 0 + m mod 2 ^ a ?= 2 ^ a) with Lt by (symmetry; apply Z.compare_lt_iff; lia).
    reflexivity.
  - replace (2 ^ a * 0 + m mod 2 ^ a ?= 2 ^ a) with Lt by (symmetry; apply Z.compare_lt_iff; lia).
    reflexivity.
Qed.

Lemma shr_fexp_state (m e : Z) :
  0 <= m ->
  shr_fexp prec emax m e loc_Exact
  = (shr_state m (Z.to_nat (fexp prec emax (Zdigits2 m + e) - e)),
     e + Z.max 0 (fexp prec emax (Zdigits2 m + e) - e)).
Proof.
  intros Hm. unfold shr_fexp, shr.
  destruct (fexp prec emax (Zdigits2 m + e) - e) as [|p|p].
  - simpl. rewrite Z.add_0_r. reflexivity.
  - rewrite iter_pos_nat. simpl shr_record_of_loc.
    change {| shr_m := m; shr_r := false; shr_s := false |} with (shr_state m 0).
    rewrite iter_shr_1_state by assumption. reflexivity.
  - simpl. rewrite Z.add_0_r. reflexivity.
Qed.

Lemma rnd_nonneg (m n : Z) : 0 <= m -> 0 <= rnd m n.
Proof.
  intros Hm. unfold rnd. destruct (n <=? 0) eqn:En; [assumption|].
  assert (0 <= m / 2 ^ n) by (apply Z.div_pos; [lia|apply Z.pow_pos_nonneg; lia]).
  destruct (m mod 2 ^ n ?= 2 ^ (n - 1)); try lia.
  destruct (Z.even (m / 2 ^ n)); lia.
Qed.

Lemma of_nat_to_nat (n : Z) : Z.of_nat (Z.to_nat n) = Z.max 0 n.
Proof. lia. Qed.

Lemma binary_round_aux_spec (s : bool) (m e : Z) :
  0 <= m -> binary_round_aux prec emax s m e loc_Exact = round_spec s m e.
Proof.
  intros Hm. unfold binary_round_aux, round_spec.
  rewrite shr_fexp_state by assumption.
  rewrite round_state by assumption.
  rewrite of_nat_to_nat.
  set (n := Z.max 0 (fexp prec emax (Zdigits2 m + e) - e)).
  rewrite shr_fexp_state by (apply rnd_nonneg; assumption).
  rewrite shr_state_m, of_nat_to_nat. reflexivity.
Qed.

Lemma rnd_bounds (m n : Z) :
  0 <= m -> 0 <= n -> m / 2 ^ n <= rnd m n <= m / 2 ^ n + 1.
Proof.
  intros Hm Hn. unfold rnd. destruct (Z.leb_spec n 0) as [H0|H0].
  - replace n with 0 by lia. rewrite Z.pow_0_r, Z.div_1_r. lia.
  - destruct (m mod 2 ^ n ?= 2 ^ (n - 1)); try lia.
    destruct (Z.even (m / 2 ^ n)); lia.
Qed.

Lemma rnd_exact (m : Z) : rnd m 0 = m.
Proof. reflexivity. Qed.

Lemma rnd_scale (m n k : Z) :
  0 <= m -> 0 <= n -> 0 <= k -> rnd (m * 2 ^ k) (n + k) = rnd m n.
Proof.
  intros Hm Hn Hk.
  assert (Hpk : 0 < 2 ^ k) by (apply Z.pow_pos_nonneg; lia).
  unfold rnd. destruct (Z.leb_spec n 0) as [H0|H0].
  - assert (n = 0) by lia. subst n. rewrite Z.add_0_l.
    destruct (Z.leb_spec k 0) as [Hk0|Hk0].
    + replace k with 0 by lia. rewrite Z.pow_0_r. lia.
    + rewrite Z.mod_mul, Z.div_mul by lia.
      assert (0 < 2 ^ (k - 1)) by (apply Z.pow_pos_nonneg; lia).
      replace (0 ?= 2 ^ (k - 1)) with Lt by (symmetry; apply Z.compare_lt_iff; lia).
      reflexivity.
  - destruct (Z.leb_spec (n + k) 0) as [Hk0|Hk0]; [lia|].
    assert (Hpn : 0 < 2 ^ n) by (apply Z.pow_pos_nonneg; lia).
    assert (Hq : m * 2 ^ k / 2 ^ (n + k) = m / 2 ^ n).
    { rewrite Z.pow_add_r by lia. apply Z.div_mul_cancel_r; lia. }
    assert (Hr : (m * 2 ^ k) mod 2 ^ (n + k) = m mod 2 ^ n * 2 ^ k).
    { rewrite Z.pow_add_r by lia. apply Z.mul_mod_distr_r; lia. }
    assert (Hh : 2 ^ (n + k - 1) = 2 ^ (n - 1) * 2 ^ k).
    { rewrite <- Z.pow_add_r by lia. f_equal. lia. }
    rewrite Hq, Hr, Hh.
    rewrite <- (Zmult_compare_compat_r (m mod 2 ^ n) (2 ^ (n - 1)) (2 ^ k)) by lia.
    reflexivity.
Qed.

Lemma rnd_mono (m1 m2 n : Z) :
  0 <= m1 <= m2 -> 0 <= n -> rnd m1 n <= rnd m2 n.
Proof.
  intros Hm Hn. unfold rnd. destruct (Z.leb_spec n 0) as [H0|H0]; [lia|].
  assert (Hpn : 0 < 2 ^ n) by (apply Z.pow_pos_nonneg; lia).
  assert (Hq : m1 / 2 ^ n <= m2 / 2 ^ n) by (apply Z.div_le_mono; lia).
  pose proof (Z.div_mod m1 (2 ^ n) ltac:(lia)) as E1.
  pose proof (Z.div_mod m2 (2 ^ n) ltac:(lia)) as E2.
  pose proof (Z.mod_pos_bound m1 (2 ^ n) Hpn) as B1.
  pose proof (Z.mod_pos_bound m2 (2 ^ n) Hpn) as B2.
  destruct (Z.eq_dec (m1 / 2 ^ n) (m2 / 2 ^ n)) as [Heq|Hne].
  - rewrite <- Heq in *.
    assert (Hrem : m1 mod 2 ^ n <= m2 mod 2 ^ n) by lia.
    destruct (Z.compare_spec (m1 mod 2 ^ n) (2 ^ (n - 1)));
      destruct (Z.compare_spec (m2 mod 2 ^ n) (2 ^ (n - 1)));
      try lia; destruct (Z.even (m1 / 2 ^ n)); lia.
  - assert (m1 / 2 ^ n + 1 <= m2 / 2 ^ n) by lia.
    destruct (m1 mod 2 ^ n ?= 2 ^ (n - 1)); destruct (m2 mod 2 ^ n ?= 2 ^ (n - 1));
      try destruct (Z.even (m1 / 2 ^ n)); try destruct (Z.even (m2 / 2 ^ n)); lia.
Qed.

(** Digits of a nonnegative integer. *)
Lemma Zdigits2_bounds (m : Z) :
  0 < m -> 2 ^ (Zdigits2 m - 1) <= m < 2 ^ Zdigits2 m.
Proof.
  intros Hm. destruct m as [|p|p]; try lia. simpl Zdigits2.
  split; [apply digits_lower|apply digits_upper].
Qed.

Lemma Zdigits2_nonneg (m : Z) : 0 <= Zdigits2 m.
Proof. destruct m; simpl; lia. Qed.

Lemma Zdigits2_pos (m : Z) : 0 < m -> 0 < Zdigits2 m.
Proof. destruct m; simpl; lia. Qed.

Lemma Zdigits2_mono (m1 m2 : Z) : 0 <= m1 <= m2 -> Zdigits2 m1 <= Zdigits2 m2.
Proof.
  intros [H1 H2]. destruct (Z.eq_dec m1 0) as [->|Hn].
  - apply Zdigits2_nonneg.
  - pose proof (Zdigits2_bounds m1 ltac:(lia)) as [L1 _].
    pose proof (Zdigits2_bounds m2 ltac:(lia)) as [_ U2].
    assert (Hlt : 2 ^ (Zdigits2 m1 - 1) < 2 ^ Zdigits2 m2) by lia.
    apply Z.pow_lt_mono_r_iff in Hlt; [lia|lia|apply Zdigits2_nonneg].
Qed.

Lemma Zdigits2_unique (m d : Z) :
  2 ^ (d - 1) <= m < 2 ^ d -> 0 < m -> Zdigits2 m = d.
Proof.
  intros H Hm. destruct m as [|p|p]; try lia. simpl. apply digits_unique. assumption.
Qed.

Lemma Zdigits2_scale (m k : Z) :
  0 < m -> 0 <= k -> Zdigits2 (m * 2 ^ k) = Zdigits2 m + k.
Proof.
  intros Hm Hk. pose proof (Zdigits2_bounds m Hm) as [L U].
  assert (0 < 2 ^ k) by (apply Z.pow_pos_nonneg; lia).
  pose proof (Zdigits2_pos m Hm).
  apply Zdigits2_unique; [|nia].
  replace (Zdigits2 m + k - 1) with (Zdigits2 m - 1 + k) by lia.
  rewrite !Z.pow_add_r by lia. split; nia.
Qed.

(** The rounded mantissa at the canonical exponent. *)
Lemma rnd_canonical (m e : Z) :
  0 <= m -> e <= fexp prec emax (Zdigits2 m + e) ->
  0 <= rnd m (fexp prec emax (Zdigits2 m + e) - e) <= 2 ^ prec
  /\ (emin prec emax < fexp prec emax (Zdigits2 m + e) ->
      2 ^ (prec - 1) <= rnd m (fexp prec emax (Zdigits2 m + e) - e)).
Proof.
  intros Hm He.
  set (ce := fexp prec emax (Zdigits2 m + e)) in *.
  pose proof (rnd_bounds m (ce - e) Hm ltac:(lia)) as [Lq Uq].
  assert (Hpn : 0 < 2 ^ (ce - e)) by (apply Z.pow_pos_nonneg; lia).
  assert (Hq0 : 0 <= m / 2 ^ (ce - e)) by (apply Z.div_pos; lia).
  destruct (Z.eq_dec m 0) as [->|Hm0].
  { rewrite Z.div_0_l in * by lia. unfold ce, fexp, emin, prec, emax in *.
    simpl Zdigits2 in *. split; [lia|]. intros. lia. }
  pose proof (Zdigits2_bounds m ltac:(lia)) as [L U].
  pose proof (Zdigits2_pos m ltac:(lia)) as Hd.
  split.
  - split; [lia|].
    assert (m / 2 ^ (ce - e) < 2 ^ prec); [|lia].
    apply Z.div_lt_upper_bound; [lia|].
    rewrite <- Z.pow_add_r by (unfold prec; lia).
    eapply Z.lt_le_trans; [exact U|].
    apply Z.pow_le_mono_r; [lia|]. unfold ce, fexp, emin, prec, emax in *. lia.
  - intros Hn.
    assert (Hce : ce - e = Zdigits2 m - prec)
      by (unfold ce, fexp, emin, prec, emax in *; lia).
    assert (2 ^ (prec - 1) <= m / 2 ^ (ce - e)); [|lia].
    apply Z.div_le_lower_bound; [lia|].
    rewrite <- Z.pow_add_r by (unfold prec in *; lia).
    replace (ce - e + (prec - 1)) with (Zdigits2 m - 1) by lia. exact L.
Qed.

Lemma round_spec_finish (s : bool) (m e : Z) :
  round_spec s m e
  = finish s (rnd m (Z.max 0 (fexp prec emax (Zdigits2 m + e) - e)))
           (e + Z.max 0 (fexp prec emax (Zdigits2 m + e) - e)).
Proof. reflexivity. Qed.

Lemma pow2_pos (a : Z) : 0 <= a -> 0 < 2 ^ a.
Proof. intros. apply Z.pow_pos_nonneg; lia. Qed.

Lemma pow2_le (a b : Z) : 0 <= a <= b -> 2 ^ a <= 2 ^ b.
Proof. intros. apply Z.pow_le_mono_r; lia. Qed.

Lemma pow2_lt (a b : Z) : 0 <= a < b -> 2 ^ a < 2 ^ b.
Proof. intros. apply Z.pow_lt_mono_r; lia. Qed.

Lemma finish_props (s : bool) (M E : Z) :
  0 <= M <= 2 ^ prec -> emin prec emax <= E ->
  (emin prec emax < E -> 2 ^ (prec - 1) <= M) ->
  is_valid (finish s M E) = true
  /\ is_nan (finish s M E) = false
  /\ units (finish s M E) = cond_Zopp s (Z.min (M * 2 ^ (E - unit_exp)) (2 ^ (emax - unit_exp))).
Proof.
  intros HM HE Hn.
  assert (HEb : 0 <= E - unit_exp) by (unfold emin, prec, emax, unit_exp in *; lia).
  pose proof (pow2_pos (E - unit_exp) HEb) as Hpb.
  destruct (Z.eq_dec M 0) as [->|HM0].
  { unfold finish. rewrite Z.div_0_l by (apply Z.pow_nonzero; lia).
    rewrite Z.mul_0_l, Z.min_l by (pose proof (pow2_pos (emax - unit_exp)); unfold emax, unit_exp in *; lia).
    destruct s; repeat split; reflexivity. }
  destruct (Z.eq_dec M (2 ^ prec)) as [->|HMp].
  { unfold finish.
    change (Zdigits2 (2 ^ prec)) with 25.
    assert (Hn2 : Z.max 0 (fexp prec emax (25 + E) - E) = 1)
      by (unfold fexp, emin, prec, emax in *; lia).
    rewrite Hn2. change (2 ^ prec / 2 ^ 1) with (Zpos 8388608).
    destruct (Z.leb_spec (E + 1) (emax - prec)) as [Hb|Hb].
    - split.
      { unfold is_valid, valid_binary, bounded, canonical_mantissa.
        apply andb_true_intro. split; [|apply Z.leb_le; assumption].
        apply Z.eqb_eq. simpl digits2_pos. unfold fexp, emin, prec, emax in *. lia. }
      split; [reflexivity|]. unfold units. f_equal.
      replace (E + 1 - unit_exp) with (1 + (E - unit_exp)) by lia.
      rewrite Z.pow_add_r by lia.
      rewrite Z.min_l.
      + change (2 ^ prec) with (8388608 * 2 ^ 1). lia.
      + replace (emax - unit_exp) with (prec + (emax - prec - E) + (E - unit_exp)) by lia.
        rewrite !Z.pow_add_r by (unfold prec, emax in *; lia).
        pose proof (pow2_pos (emax - prec - E) ltac:(lia)).
        pose proof (pow2_pos prec ltac:(unfold prec; lia)). nia.
    - split; [reflexivity|]. split; [reflexivity|]. unfold units. f_equal.
      rewrite Z.min_r; [reflexivity|].
      rewrite <- Z.pow_add_r by (unfold prec; lia).
      apply pow2_le. unfold prec, emax, unit_exp in *. lia. }
  assert (Hd : Zdigits2 M <= prec).
  { pose proof (Zdigits2_bounds M ltac:(lia)) as [L _].
    assert (Hlt : 2 ^ (Zdigits2 M - 1) < 2 ^ prec) by lia.
    apply Z.pow_lt_mono_r_iff in Hlt; unfold prec in *; lia. }
  pose proof (Zdigits2_pos M ltac:(lia)) as Hdp.
  unfold finish.
  assert (Hn2 : Z.max 0 (fexp prec emax (Zdigits2 M + E) - E) = 0)
    by (unfold fexp, emin, prec, emax in *; lia).
  rewrite Hn2, Z.pow_0_r, Z.div_1_r, Z.add_0_r.
  destruct M as [|q|q]; try lia.
  destruct (Z.leb_spec E (emax - prec)) as [Hb|Hb].
  - split.
    { unfold is_valid, valid_binary, bounded, canonical_mantissa.
      apply andb_true_intro. split; [|apply Z.leb_le; assumption].
      apply Z.eqb_eq. simpl Zdigits2 in *.
      destruct (Z.eq_dec E (emin prec emax)) as [HEe|HEe].
      - unfold fexp, emin, prec, emax in *. lia.
      - assert (Hlow : 2 ^ (prec - 1) <= Zpos q) by (apply Hn; lia).
        pose proof (digits_upper q) as U.
        assert (Hlt : 2 ^ (prec - 1) < 2 ^ Zpos (digits2_pos q)) by lia.
        apply Z.pow_lt_mono_r_iff in Hlt; unfold fexp, emin, prec, emax in *; lia. }
    split; [reflexivity|]. unfold units. f_equal.
    rewrite Z.min_l; [reflexivity|].
    replace (emax - unit_exp) with (prec + (emax - prec - E) + (E - unit_exp)) by lia.
    rewrite !Z.pow_add_r by (unfold prec, emax in *; lia).
    pose proof (pow2_pos (emax - prec - E) ltac:(lia)).
    pose proof (pow2_pos prec ltac:(unfold prec; lia)).
    apply Z.mul_le_mono_nonneg_r; [lia|].
    assert (2 ^ prec <= 2 ^ prec * 2 ^ (emax - prec - E)) by nia. lia.
  - split; [reflexivity|]. split; [reflexivity|]. unfold units. f_equal.
    rewrite Z.min_r; [reflexivity|].
    assert (Hlow : 2 ^ (prec - 1) <= Zpos q)
      by (apply Hn; unfold emin, prec, emax in *; lia).
    replace (E - unit_exp) with ((emax - unit_exp - (prec - 1)) + (E - (emax - prec + 1))) by lia.
    replace (emax - unit_exp) with ((prec - 1) + (emax - unit_exp - (prec - 1))) at 1 by lia.
    rewrite !Z.pow_add_r by (unfold prec, emax, unit_exp in *; lia).
    set (A := 2 ^ (emax - unit_exp - (prec - 1))). set (B := 2 ^ (E - (emax - prec + 1))).
    assert (HA : 0 < A) by (apply pow2_pos; unfold prec, emax, unit_exp; lia).
    assert (HB : 0 < B) by (apply pow2_pos; lia).
    pose proof (pow2_pos (prec - 1) ltac:(unfold prec; lia)).
    assert (A <= A * B) by nia.
    assert (2 ^ (prec - 1) * (A * B) <= Zpos q * (A * B))
      by (apply Z.mul_le_mono_nonneg_r; nia).
    nia.
Qed.

Lemma rnd_0 (n : Z) : rnd 0 n = 0.
Proof.
  unfold rnd. destruct (Z.leb_spec n 0) as [H|H]; [reflexivity|].
  rewrite Z.mod_0_l, Z.div_0_l by (apply Z.pow_nonzero; lia).
  pose proof (pow2_pos (n - 1) ltac:(lia)).
  replace (0 ?= 2 ^ (n - 1)) with Lt by (symmetry; apply Z.compare_lt_iff; lia).
  reflexivity.
Qed.

Lemma round_pos_0 : round_pos 0 = 0.
Proof. reflexivity. Qed.

Lemma round_pos_nonneg (N : Z) : 0 <= N -> 0 <= round_pos N.
Proof.
  intros HN. unfold round_pos.
  set (n := fexp prec emax (Zdigits2 N + unit_exp) - unit_exp).
  assert (Hn : 0 <= n) by (unfold n, fexp, emin, prec, emax, unit_exp; lia).
  pose proof (rnd_nonneg N n HN). pose proof (pow2_pos n Hn).
  pose proof (pow2_pos (emax - unit_exp) ltac:(unfold emax, unit_exp; lia)).
  apply Z.min_glb; nia.
Qed.

Lemma round_spec_props (s : bool) (m e : Z) :
  0 <= m -> unit_exp <= e -> e <= fexp prec emax (Zdigits2 m + e) ->
  is_valid (round_spec s m e) = true
  /\ is_nan (round_spec s m e) = false
  /\ units (round_spec s m e) = cond_Zopp s (round_pos (m * 2 ^ (e - unit_exp))).
Proof.
  intros Hm Hb He. rewrite round_spec_finish.
  set (ce := fexp prec emax (Zdigits2 m + e)) in *.
  rewrite Z.max_r by lia.
  replace (e + (ce - e)) with ce by lia.
  destruct (rnd_canonical m e Hm He) as [HM Hlow]. fold ce in HM, Hlow.
  assert (Hce : emin prec emax <= ce) by (unfold ce, fexp; lia).
  destruct (finish_props s (rnd m (ce - e)) ce HM Hce Hlow) as (Hv & Hn & HW).
  split; [assumption|]. split; [assumption|]. rewrite HW. f_equal.
  unfold round_pos. destruct (Z.eq_dec m 0) as [->|Hm0].
  - rewrite Z.mul_0_l, !rnd_0. reflexivity.
  - rewrite Zdigits2_scale by lia.
    replace (Zdigits2 m + (e - unit_exp) + unit_exp) with (Zdigits2 m + e) by lia. fold ce.
    replace (ce - unit_exp) with (ce - e + (e - unit_exp)) at 2 by lia.
    rewrite rnd_scale by lia. reflexivity.
Qed.

Lemma round_pos_mono (N1 N2 : Z) : 0 <= N1 <= N2 -> round_pos N1 <= round_pos N2.
Proof.
  intros [H1 H2]. unfold round_pos.
  set (n1 := fexp prec emax (Zdigits2 N1 + unit_exp) - unit_exp).
  set (n2 := fexp prec emax (Zdigits2 N2 + unit_exp) - unit_exp).
  pose proof (Zdigits2_mono N1 N2 ltac:(lia)) as Hd.
  pose proof (Zdigits2_nonneg N1) as Hd1.
  assert (Hn1 : 0 < n1) by (unfold n1, fexp, emin, prec, emax, unit_exp; lia).
  assert (Hn12 : n1 <= n2) by (unfold n1, n2, fexp, emin, prec, emax, unit_exp; lia).
  apply Z.min_le_compat_r.
  destruct (Z.eq_dec n1 n2) as [Heq|Hne].
  - rewrite <- Heq. apply Z.mul_le_mono_nonneg_r; [pose proof (pow2_pos n1); lia|].
    apply rnd_mono; lia.
  - destruct (Z.eq_dec N1 0) as [->|HN1].
    { rewrite rnd_0, Z.mul_0_l.
      pose proof (rnd_nonneg N2 n2 ltac:(lia)). pose proof (pow2_pos n2 ltac:(lia)). nia. }
    pose proof (Zdigits2_bounds N1 ltac:(lia)) as [L1 U1].
    pose proof (Zdigits2_bounds N2 ltac:(lia)) as [L2 U2].
    pose proof (Zdigits2_pos N1 ltac:(lia)) as Hp1.
    assert (Hn2 : n2 = Zdigits2 N2 - prec)
      by (unfold n1, n2, fexp, emin, prec, emax, unit_exp in *; lia).
    assert (Hdd : Zdigits2 N1 < Zdigits2 N2)
      by (unfold n1, n2, fexp, emin, prec, emax, unit_exp in *; lia).
    pose proof (rnd_bounds N1 n1 ltac:(lia) ltac:(lia)) as [_ Ur].
    pose proof (rnd_bounds N2 n2 ltac:(lia) ltac:(lia)) as [Lr _].
    pose proof (pow2_pos n1 ltac:(lia)) as Hp2n1.
    pose proof (pow2_pos n2 ltac:(lia)) as Hp2n2.
    (* the left side is at most [2 ^ (Zdigits2 N2 - 1)] *)
    assert (Hleft : (N1 / 2 ^ n1 + 1) * 2 ^ n1 <= 2 ^ (Zdigits2 N2 - 1)).
    { destruct (Z.le_gt_cases n1 (Zdigits2 N1)) as [Hc|Hc].
      - assert (N1 / 2 ^ n1 < 2 ^ (Zdigits2 N1 - n1)).
        { apply Z.div_lt_upper_bound; [lia|].
          rewrite <- Z.pow_add_r by lia.
          replace (n1 + (Zdigits2 N1 - n1)) with (Zdigits2 N1) by lia. exact U1. }
        assert ((N1 / 2 ^ n1 + 1) * 2 ^ n1 <= 2 ^ (Zdigits2 N1 - n1) * 2 ^ n1)
          by (apply Z.mul_le_mono_nonneg_r; lia).
        rewrite <- Z.pow_add_r in H0 by lia.
        replace (Zdigits2 N1 - n1 + n1) with (Zdigits2 N1) in H0 by lia.
        pose proof (pow2_le (Zdigits2 N1) (Zdigits2 N2 - 1) ltac:(lia)). lia.
      - rewrite Z.div_small.
        + rewrite Z.add_0_l, Z.mul_1_l. apply pow2_le. unfold prec in *. lia.
        + split; [lia|]. eapply Z.lt_le_trans; [exact U1|]. apply pow2_le. lia. }
    assert (Hright : 2 ^ (Zdigits2 N2 - 1) <= N2 / 2 ^ n2 * 2 ^ n2).
    { assert (2 ^ (prec - 1) <= N2 / 2 ^ n2).
      { apply Z.div_le_lower_bound; [lia|].
        rewrite <- Z.pow_add_r by (unfold prec in *; lia).
        replace (n2 + (prec - 1)) with (Zdigits2 N2 - 1) by lia. exact L2. }
      replace (Zdigits2 N2 - 1) with (prec - 1 + n2) by lia.
      rewrite Z.pow_add_r by (unfold prec in *; lia).
      apply Z.mul_le_mono_nonneg_r; lia. }
    assert (rnd N1 n1 * 2 ^ n1 <= (N1 / 2 ^ n1 + 1) * 2 ^ n1)
      by (apply Z.mul_le_mono_nonneg_r; lia).
    assert (N2 / 2 ^ n2 * 2 ^ n2 <= rnd N2 n2 * 2 ^ n2)
      by (apply Z.mul_le_mono_nonneg_r; lia).
    lia.
Qed.

Lemma round_units_mono (N1 N2 : Z) : N1 <= N2 -> round_units N1 <= round_units N2.
Proof.
  intros H. unfold round_units.
  destruct (Z.ltb_spec N1 0) as [H1|H1]; destruct (Z.ltb_spec N2 0) as [H2|H2].
  - pose proof (round_pos_mono (- N2) (- N1) ltac:(lia)). lia.
  - pose proof (round_pos_nonneg (- N1) ltac:(lia)). pose proof (round_pos_nonneg N2 ltac:(lia)). lia.
  - lia.
  - apply round_pos_mono. lia.
Qed.

Lemma valid_finite_inv (s : bool) (m : positive) (e : Z) :
  is_valid (S754_finite s m e) = true ->
  emin prec emax <= e <= emax - prec
  /\ Zpos (digits2_pos m) <= prec
  /\ (emin prec emax < e -> Zpos (digits2_pos m) = prec)
  /\ fexp prec emax (Zpos (digits2_pos m) + e) = e.
Proof.
  unfold is_valid, valid_binary, bounded, canonical_mantissa. intros H.
  apply andb_prop in H as [Hc Hb]. apply Z.eqb_eq in Hc. apply Z.leb_le in Hb.
  unfold fexp, emin, prec, emax in *. lia.
Qed.

Lemma units_finite_bounds (s : bool) (m : positive) (e : Z) :
  is_valid (S754_finite s m e) = true ->
  0 < Zpos m * 2 ^ (e - unit_exp) < 2 ^ (emax - unit_exp).
Proof.
  intros H. destruct (valid_finite_inv s m e H) as ([He1 He2] & Hd & _ & _).
  assert (Hb : 0 <= e - unit_exp) by (unfold emin, prec, emax, unit_exp in *; lia).
  pose proof (pow2_pos (e - unit_exp) Hb). split; [lia|].
  pose proof (digits_upper m) as U.
  pose proof (pow2_le (Zpos (digits2_pos m)) prec ltac:(lia)).
  assert (Zpos m * 2 ^ (e - unit_exp) < 2 ^ prec * 2 ^ (e - unit_exp))
    by (apply Z.mul_lt_mono_pos_r; lia).
  rewrite <- Z.pow_add_r in H2 by (unfold prec; lia).
  pose proof (pow2_le (prec + (e - unit_exp)) (emax - unit_exp)
                ltac:(unfold prec, emax, unit_exp in *; lia)). lia.
Qed.

Lemma canonical_lt (s1 s2 : bool) (m1 m2 : positive) (e1 e2 : Z) :
  is_valid (S754_finite s1 m1 e1) = true -> is_valid (S754_finite s2 m2 e2) = true ->
  e1 < e2 -> Zpos m1 * 2 ^ (e1 - unit_exp) < Zpos m2 * 2 ^ (e2 - unit_exp).
Proof.
  intros H1 H2 Hlt.
  destruct (valid_finite_inv s1 m1 e1 H1) as ([He1 _] & Hd1 & _ & _).
  destruct (valid_finite_inv s2 m2 e2 H2) as ([_ _] & _ & Hd2 & _).
  specialize (Hd2 ltac:(lia)).
  assert (Hb : 0 <= e1 - unit_exp) by (unfold emin, prec, emax, unit_exp in *; lia).
  pose proof (pow2_pos (e1 - unit_exp) Hb).
  pose proof (digits_upper m1) as U1. pose proof (digits_lower m2) as L2.
  rewrite Hd2 in L2.
  pose proof (pow2_le (Zpos (digits2_pos m1)) prec ltac:(lia)).
  assert (A : Zpos m1 * 2 ^ (e1 - unit_exp) < 2 ^ prec * 2 ^ (e1 - unit_exp))
    by (apply Z.mul_lt_mono_pos_r; lia).
  assert (B : 2 ^ (prec - 1) * 2 ^ (e2 - unit_exp) <= Zpos m2 * 2 ^ (e2 - unit_exp))
    by (apply Z.mul_le_mono_nonneg_r; [pose proof (pow2_pos (e2 - unit_exp)); lia|lia]).
  rewrite <- Z.pow_add_r in A, B by (unfold prec; lia).
  pose proof (pow2_le (prec + (e1 - unit_exp)) (prec - 1 + (e2 - unit_exp))
                ltac:(unfold prec in *; lia)). lia.
Qed.

Lemma fle_units (x y : float) :
  is_valid x = true -> is_valid y = true -> is_nan x = false -> is_nan y = false ->
  (fle x y = true <-> units x <= units y).
Proof.
  intros Hx Hy Nx Ny.
  pose proof (pow2_pos (emax - unit_exp) ltac:(unfold emax, unit_exp; lia)) as Hinf.
  destruct x as [sx|sx| |sx mx ex]; try discriminate Nx;
    destruct y as [sy|sy| |sy my ey]; try discriminate Ny;
    try pose proof (units_finite_bounds sx mx ex Hx) as Bx;
    try pose proof (units_finite_bounds sy my ey Hy) as By;
    unfold fle, SFleb, SFcompare, units, cond_Zopp.
  all: try (repeat match goal with s : bool |- _ => destruct s end;
            cbn; split; intros H; try discriminate H; try reflexivity; lia).
  - change (Pos.compare_cont Eq mx my) with (Pos.compare mx my).
    destruct sx, sy; try (split; intros H; try discriminate H; try reflexivity; lia);
      destruct (Z.compare_spec ex ey) as [He|He|He];
      try (pose proof (canonical_lt _ _ _ _ _ _ Hx Hy He) as Hlt);
      try (pose proof (canonical_lt _ _ _ _ _ _ Hy Hx He) as Hlt);
      try (split; intros H; try discriminate H; try reflexivity; lia);
      subst ey; pose proof (pow2_pos (ex - unit_exp)
                              ltac:(destruct (valid_finite_inv _ _ _ Hx) as ([? ?] & _);
                                    unfold emin, prec, emax, unit_exp in *; lia)) as Hp;
      destruct (Pos.compare_spec mx my) as [Hm|Hm|Hm]; simpl CompOpp;
      split; intros H; try discriminate H; try reflexivity; try subst my; try nia.
Qed.

Lemma round_pos_exact (s : bool) (m : positive) (e : Z) :
  is_valid (S754_finite s m e) = true ->
  round_pos (Zpos m * 2 ^ (e - unit_exp)) = Zpos m * 2 ^ (e - unit_exp).
Proof.
  intros H. pose proof (units_finite_bounds s m e H) as B.
  destruct (valid_finite_inv s m e H) as ([He1 He2] & Hd & _ & Hc).
  assert (Hb : 0 <= e - unit_exp) by (unfold emin, prec, emax, unit_exp in *; lia).
  unfold round_pos. rewrite Zdigits2_scale by lia. simpl Zdigits2.
  replace (Zpos (digits2_pos m) + (e - unit_exp) + unit_exp) with (Zpos (digits2_pos m) + e) by lia.
  rewrite Hc.
  replace (e - unit_exp) with (0 + (e - unit_exp)) at 2 by lia.
  rewrite rnd_scale by lia. rewrite rnd_exact.
  apply Z.min_l. lia.
Qed.

Lemma round_units_exact (x : float) :
  is_valid x = true -> is_finite x = true -> round_units (units x) = units x.
Proof.
  intros Hv Hf. destruct x as [s|s| |s m e]; try discriminate Hf; [reflexivity|].
  pose proof (units_finite_bounds s m e Hv) as B.
  unfold round_units, units. destruct s; simpl cond_Zopp.
  - replace (- (Zpos m * 2 ^ (e - unit_exp)) <? 0) with true by (symmetry; apply Z.ltb_lt; lia).
    rewrite Z.opp_involutive, (round_pos_exact true) by assumption. reflexivity.
  - replace (Zpos m * 2 ^ (e - unit_exp) <? 0) with false by (symmetry; apply Z.ltb_ge; lia).
    apply (round_pos_exact false). assumption.
Qed.

Lemma binary_round_units (s : bool) (m : positive) (e : Z) :
  emin prec emax <= e ->
  is_valid (binary_round prec emax s m e) = true
  /\ is_nan (binary_round prec emax s m e) = false
  /\ units (binary_round prec emax s m e) = cond_Zopp s (round_pos (Zpos m * 2 ^ (e - unit_exp))).
Proof.
  intros He.
  assert (Hb : unit_exp <= e) by (unfold emin, prec, emax, unit_exp in *; lia).
  unfold binary_round, shl_align.
  destruct (fexp prec emax (Zpos (digits2_pos m) + e) - e) as [|d|d] eqn:Hd;
    rewrite binary_round_aux_spec by lia.
  - apply round_spec_props; simpl Zdigits2; lia.
  - apply round_spec_props; simpl Zdigits2; lia.
  - assert (Hs : Zpos (digits2_pos (Pos.iter xO m d)) = Zpos (digits2_pos m) + Zpos d)
      by (apply digits_shift; [lia|apply iter_xO_value]).
    assert (Hf : emin prec emax <= fexp prec emax (Zpos (digits2_pos m) + e))
      by (unfold fexp; lia).
    destruct (round_spec_props s (Zpos (Pos.iter xO m d))
                (fexp prec emax (Zpos (digits2_pos m) + e))) as (Hv & Hn & HW).
    + lia.
    + unfold emin, prec, emax, unit_exp in *. lia.
    + simpl Zdigits2. rewrite Hs.
      replace (Zpos (digits2_pos m) + Zpos d + fexp prec emax (Zpos (digits2_pos m) + e))
        with (Zpos (digits2_pos m) + e) by lia.
      lia.
    + split; [assumption|]. split; [assumption|]. rewrite HW. f_equal. f_equal.
      rewrite iter_xO_value.
      replace (e - unit_exp)
        with (Zpos d + (fexp prec emax (Zpos (digits2_pos m) + e) - unit_exp)) by lia.
      rewrite Z.pow_add_r by (unfold emin, prec, emax, unit_exp in *; lia). lia.
Qed.

Lemma binary_normalize_units (S e : Z) (sz : bool) :
  emin prec emax <= e ->
  is_valid (binary_normalize prec emax S e sz) = true
  /\ is_nan (binary_normalize prec emax S e sz) = false
  /\ units (binary_normalize prec emax S e sz) = round_units (S * 2 ^ (e - unit_exp)).
Proof.
  intros He.
  assert (Hb : 0 <= e - unit_exp) by (unfold emin, prec, emax, unit_exp in *; lia).
  pose proof (pow2_pos (e - unit_exp) Hb) as Hp.
  destruct S as [|p|p]; simpl binary_normalize.
  - repeat split.
  - destruct (binary_round_units false p e He) as (Hv & Hn & HW).
    split; [assumption|]. split; [assumption|]. rewrite HW. unfold round_units.
    replace (Zpos p * 2 ^ (e - unit_exp) <? 0) with false by (symmetry; apply Z.ltb_ge; lia).
    reflexivity.
  - destruct (binary_round_units true p e He) as (Hv & Hn & HW).
    split; [assumption|]. split; [assumption|]. rewrite HW. unfold round_units.
    replace (Zneg p * 2 ^ (e - unit_exp) <? 0) with true by (symmetry; apply Z.ltb_lt; lia).
    simpl cond_Zopp. f_equal. f_equal. lia.
Qed.

Lemma units_aligned (s : bool) (m : positive) (e ez : Z) :
  unit_exp <= ez <= e ->
  cond_Zopp s (Zpos (fst (shl_align m e ez))) * 2 ^ (ez - unit_exp)
  = units (S754_finite s m e).
Proof.
  intros H. rewrite shl_align_value by lia. unfold units.
  replace (e - unit_exp) with (e - ez + (ez - unit_exp)) by lia.
  rewrite Z.pow_add_r by lia. destruct s; simpl cond_Zopp; lia.
Qed.

Lemma fadd_units (p x : float) :
  is_valid p = true -> is_valid x = true ->
  is_finite p = true -> is_finite x = true ->
  is_valid (fadd p x) = true
  /\ is_nan (fadd p x) = false
  /\ units (fadd p x) = round_units (units p + units x).
Proof.
  intros Vp Vx Fp Fx.
  destruct p as [sp|sp| |sp mp ep]; try discriminate Fp;
    destruct x as [sx|sx| |sx mx ex]; try discriminate Fx.
  - destruct sp, sx; repeat split.
  - change (fadd (S754_zero sp) (S754_finite sx mx ex)) with (S754_finite sx mx ex).
    split; [assumption|]. split; [reflexivity|].
    rewrite Z.add_0_l. symmetry. apply round_units_exact; [assumption|reflexivity].
  - change (fadd (S754_finite sp mp ep) (S754_zero sx)) with (S754_finite sp mp ep).
    split; [assumption|]. split; [reflexivity|].
    change (units (S754_zero sx)) with 0.
    rewrite Z.add_0_r. symmetry. apply round_units_exact; [assumption|reflexivity].
  - destruct (valid_finite_inv sp mp ep Vp) as ([Hp1 _] & _).
    destruct (valid_finite_inv sx mx ex Vx) as ([Hx1 _] & _).
    assert (He : emin prec emax <= Z.min ep ex) by lia.
    assert (Hb : unit_exp <= Z.min ep ex) by (unfold emin, prec, emax, unit_exp in *; lia).
    unfold fadd, SFadd.
    destruct (binary_normalize_units
                (cond_Zopp sp (Zpos (fst (shl_align mp ep (Z.min ep ex))))
                 + cond_Zopp sx (Zpos (fst (shl_align mx ex (Z.min ep ex)))))
                (Z.min ep ex) false He) as (Hv & Hn & HW).
    split; [assumption|]. split; [assumption|]. rewrite HW. f_equal.
    rewrite Z.mul_add_distr_r, !units_aligned by lia. reflexivity.
Qed.

Lemma fsub_fadd_opp (x y : float) : fsub x y = fadd x (SFopp y).
Proof.
  destruct x as [sx|sx| |sx mx ex], y as [sy|sy| |sy my ey];
    try reflexivity; destruct sx, sy; reflexivity.
Qed.

Lemma units_opp (y : float) : units (SFopp y) = - units y.
Proof. destruct y as [s|s| |s m e]; simpl; try reflexivity; destruct s; simpl; lia. Qed.

Lemma fsub_units (x y : float) :
  is_valid x = true -> is_valid y = true ->
  is_finite x = true -> is_finite y = true ->
  is_valid (fsub x y) = true
  /\ is_nan (fsub x y) = false
  /\ units (fsub x y) = round_units (units x - units y).
Proof.
  intros Vx Vy Fx Fy. rewrite fsub_fadd_opp.
  destruct (fadd_units x (SFopp y)) as (Hv & Hn & HW);
    try assumption; try (destruct y; assumption).
  rewrite units_opp in HW. repeat split; assumption.
Qed.

Lemma finite_of_units (x : float) :
  is_nan x = false -> - 2 ^ (emax - unit_exp) < units x < 2 ^ (emax - unit_exp) ->
  is_finite x = true.
Proof.
  destruct x as [s|s| |s m e]; intros Hn H; try discriminate Hn; try reflexivity.
  destruct s; simpl in H; lia.
Qed.

Lemma Zdigits2_mul (m1 m2 : positive) :
  Zpos (digits2_pos m1) + Zpos (digits2_pos m2) - 1 <= Zpos (digits2_pos (m1 * m2)).
Proof.
  pose proof (digits_lower m1) as L1. pose proof (digits_lower m2) as L2.
  pose proof (digits_upper (m1 * m2)) as U.
  assert (H : 2 ^ (Zpos (digits2_pos m1) - 1) * 2 ^ (Zpos (digits2_pos m2) - 1)
              <= Zpos (m1 * m2)).
  { rewrite Pos2Z.inj_mul.
    pose proof (pow2_pos (Zpos (digits2_pos m1) - 1) ltac:(lia)).
    pose proof (pow2_pos (Zpos (digits2_pos m2) - 1) ltac:(lia)). nia. }
  rewrite <- Z.pow_add_r in H by lia.
  assert (Hlt : 2 ^ (Zpos (digits2_pos m1) - 1 + (Zpos (digits2_pos m2) - 1))
                < 2 ^ Zpos (digits2_pos (m1 * m2))) by lia.
  apply Z.pow_lt_mono_r_iff in Hlt; lia.
Qed.

Lemma fmul_bounds (t r : float) :
  is_valid t = true -> is_valid r = true -> is_nan t = false -> is_finite r = true ->
  0 <= units t <= units (of_Z 1) ->
  is_valid (fmul t r) = true
  /\ is_finite (fmul t r) = true
  /\ Z.min 0 (units r) <= units (fmul t r) <= Z.max 0 (units r).
Proof.
  intros Vt Vr Nt Fr Ht.
  assert (W1 : units (of_Z 1) = 2 ^ (- unit_exp)) by reflexivity. rewrite W1 in Ht.
  pose proof (pow2_pos (emax - unit_exp) ltac:(unfold emax, unit_exp; lia)) as Hinf.
  assert (Hbig : 2 ^ (- unit_exp) < 2 ^ (emax - unit_exp))
    by (apply pow2_lt; unfold emax, unit_exp; lia).
  destruct t as [st|st| |st mt et]; try discriminate Nt;
    destruct r as [sr|sr| |sr mr er]; try discriminate Fr.
  - repeat split; simpl; lia.
  - change (fmul (S754_zero st) (S754_finite sr mr er)) with (S754_zero (xorb st sr)).
    split; [reflexivity|]. split; [reflexivity|]. change (units (S754_zero (xorb st sr))) with 0.
    lia.
  - exfalso. destruct st; simpl in Ht; lia.
  - exfalso. destruct st; simpl in Ht; lia.
  - repeat split; simpl; lia.
  - pose proof (units_finite_bounds st mt et Vt) as Bt.
    pose proof (units_finite_bounds sr mr er Vr) as Br.
    destruct st; [simpl in Ht; lia|].
    simpl units in Ht.
    destruct (valid_finite_inv false mt et Vt) as ([Ht1 Ht2] & Hdt & Hnt & _).
    destruct (valid_finite_inv sr mr er Vr) as ([Hr1 Hr2] & Hdr & Hnr & _).
    unfold fmul, SFmul. simpl xorb.
    rewrite binary_round_aux_spec by lia.
    destruct (round_spec_props sr (Zpos (mt * mr)) (et + er)) as (Hv & Hn & HW).
    + lia.
    + unfold emin, prec, emax, unit_exp in *. lia.
    + simpl Zdigits2. pose proof (Zdigits2_mul mt mr) as Hm.
      pose proof (digits_lower mt). pose proof (digits_lower mr).
      assert (0 < Zpos (digits2_pos mt)) by lia.
      assert (0 < Zpos (digits2_pos mr)) by lia.
      destruct (Z.le_gt_cases (et + er) (emin prec emax)) as [Hc|Hc].
      * unfold fexp. lia.
      * assert (prec <= Zpos (digits2_pos (mt * mr))).
        { destruct (Z.eq_dec et (emin prec emax)) as [E|E].
          - rewrite Hnr in Hm by (unfold emin, prec, emax in *; lia). lia.
          - rewrite Hnt in Hm by lia. lia. }
        unfold fexp. lia.
    + assert (Hb1 : 0 <= et - unit_exp) by (unfold emin, prec, emax, unit_exp in *; lia).
      assert (Hb2 : 0 <= er - unit_exp) by (unfold emin, prec, emax, unit_exp in *; lia).
      assert (Hb3 : 0 <= et + er - unit_exp) by (unfold emin, prec, emax, unit_exp in *; lia).
      pose proof (pow2_pos (et - unit_exp) Hb1). pose proof (pow2_pos (er - unit_exp) Hb2).
      pose proof (pow2_pos (et + er - unit_exp) Hb3).
      pose proof (pow2_pos (- unit_exp) ltac:(unfold unit_exp; lia)) as Hpb.
      assert (Hsplit : 2 ^ (et - unit_exp) * 2 ^ (er - unit_exp)
                       = 2 ^ (et + er - unit_exp) * 2 ^ (- unit_exp)).
      { rewrite <- !Z.pow_add_r by (unfold unit_exp in *; lia). f_equal. lia. }
      assert (Hprod : Zpos mt * 2 ^ (et + er - unit_exp) <= 2 ^ (er - unit_exp)).
      { apply (Z.mul_le_mono_pos_r _ _ (2 ^ (- unit_exp))); [lia|].
        rewrite <- Z.mul_assoc, <- Hsplit.
        rewrite Z.mul_assoc, (Z.mul_comm (2 ^ (er - unit_exp))).
        apply Z.mul_le_mono_nonneg_r; lia. }
      assert (Hle : Zpos (mt * mr) * 2 ^ (et + er - unit_exp) <= Zpos mr * 2 ^ (er - unit_exp)).
      { rewrite Pos2Z.inj_mul.
        replace (Zpos mt * Zpos mr * 2 ^ (et + er - unit_exp))
          with (Zpos mr * (Zpos mt * 2 ^ (et + er - unit_exp))) by lia.
        apply Z.mul_le_mono_nonneg_l; lia. }
      assert (Hnn : 0 <= Zpos (mt * mr) * 2 ^ (et + er - unit_exp))
        by (apply Z.mul_nonneg_nonneg; lia).
      pose proof (round_pos_mono _ _ (conj Hnn Hle)) as Hmono.
      rewrite (round_pos_exact sr mr er Vr) in Hmono.
      pose proof (round_pos_nonneg _ Hnn).
      split; [assumption|].
      assert (Hbd : Z.min 0 (units (S754_finite sr mr er))
                    <= units (round_spec sr (Zpos (mt * mr)) (et + er))
                    <= Z.max 0 (units (S754_finite sr mr er))).
      { rewrite HW. unfold units. destruct sr; simpl cond_Zopp; lia. }
      split; [|exact Hbd].
      assert (Hwr : - 2 ^ (emax - unit_exp) < units (S754_finite sr mr er) < 2 ^ (emax - unit_exp))
        by (unfold units; destruct sr; simpl cond_Zopp; lia).
      apply finite_of_units; [assumption|]. lia.
Qed.

Lemma quotient_canonical (m e : Z) :
  0 <= m -> e <= fexp prec emax (Zdigits2 m + e) ->
  0 <= m / 2 ^ (fexp prec emax (Zdigits2 m + e) - e) < 2 ^ prec
  /\ (emin prec emax < fexp prec emax (Zdigits2 m + e) ->
      2 ^ (prec - 1) <= m / 2 ^ (fexp prec emax (Zdigits2 m + e) - e)).
Proof.
  intros Hm He.
  set (ce := fexp prec emax (Zdigits2 m + e)) in *.
  assert (Hpn : 0 < 2 ^ (ce - e)) by (apply pow2_pos; lia).
  assert (Hq0 : 0 <= m / 2 ^ (ce - e)) by (apply Z.div_pos; lia).
  destruct (Z.eq_dec m 0) as [->|Hm0].
  { rewrite Z.div_0_l in * by lia. unfold ce, fexp, emin, prec, emax in *.
    simpl Zdigits2 in *. split; [lia|]. intros. lia. }
  pose proof (Zdigits2_bounds m ltac:(lia)) as [L U].
  pose proof (Zdigits2_pos m ltac:(lia)) as Hd.
  split.
  - split; [lia|].
    apply Z.div_lt_upper_bound; [lia|].
    rewrite <- Z.pow_add_r by (unfold prec; lia).
    eapply Z.lt_le_trans; [exact U|].
    apply Z.pow_le_mono_r; [lia|]. unfold ce, fexp, emin, prec, emax in *. lia.
  - intros Hn.
    assert (Hce : ce - e = Zdigits2 m - prec)
      by (unfold ce, fexp, emin, prec, emax in *; lia).
    apply Z.div_le_lower_bound; [lia|].
    rewrite <- Z.pow_add_r by (unfold prec in *; lia).
    replace (ce - e + (prec - 1)) with (Zdigits2 m - 1) by lia. exact L.
Qed.

Lemma round_nearest_even_bounds (q : Z) (l : location) :
  q <= round_nearest_even q l <= q + 1.
Proof.
  destruct l as [|[]]; cbv [round_nearest_even]; try lia.
  destruct (Z.even q); lia.
Qed.

Lemma finish_eq (s : bool) (M E : Z) :
  0 <= M ->
  (let '(mrs'', e'') := shr_fexp prec emax M E loc_Exact in
   match shr_m mrs'' with
   | Z0 => S754_zero s
   | Zpos m => if e'' <=? emax - prec then S754_finite s m e'' else S754_infinity s
   | Zneg _ => S754_nan
   end) = finish s M E.
Proof.
  intros HM. rewrite shr_fexp_state by assumption.
  rewrite shr_state_m, of_nat_to_nat. reflexivity.
Qed.

(** Whatever the initial location, [binary_round_aux] returns a valid
    float. *)
Lemma binary_round_aux_valid_gen (s : bool) (m e : Z) (l : location) :
  0 <= m -> e <= fexp prec emax (Zdigits2 m + e) ->
  is_valid (binary_round_aux prec emax s m e l) = true.
Proof.
  intros Hm He.
  destruct (quotient_canonical m e Hm He) as [Hq Hlow].
  set (ce := fexp prec emax (Zdigits2 m + e)) in *.
  assert (Hce : emin prec emax <= ce) by (unfold ce, fexp; lia).
  assert (Hshr : exists mrs', shr_fexp prec emax m e l = (mrs', ce)
                              /\ shr_m mrs' = m / 2 ^ (ce - e)).
  { unfold shr_fexp, shr. fold ce.
    destruct (ce - e) as [|p|p] eqn:Hn; try lia.
    - eexists. split; [f_equal; lia|].
      rewrite shr_record_of_loc_m, Z.div_1_r. reflexivity.
    - eexists. split; [f_equal; lia|].
      rewrite iter_shr_1_m by (rewrite shr_record_of_loc_m; lia).
      rewrite shr_record_of_loc_m. reflexivity. }
  destruct Hshr as (mrs' & Hs & Hm').
  unfold binary_round_aux. rewrite Hs, Hm'.
  pose proof (round_nearest_even_bounds (m / 2 ^ (ce - e)) (loc_of_shr_record mrs')) as HM.
  rewrite finish_eq by lia.
  apply finish_props; [lia|assumption|].
  intros Hn. specialize (Hlow Hn). lia.
Qed.

Lemma SFdiv_core_canonical (m1 m2 : positive) (e1 e2 : Z) :
  0 <= fst (fst (SFdiv_core_binary prec emax (Zpos m1) e1 (Zpos m2) e2))
  /\ snd (fst (SFdiv_core_binary prec emax (Zpos m1) e1 (Zpos m2) e2))
     <= fexp prec emax
          (Zdigits2 (fst (fst (SFdiv_core_binary prec emax (Zpos m1) e1 (Zpos m2) e2)))
           + snd (fst (SFdiv_core_binary prec emax (Zpos m1) e1 (Zpos m2) e2))).
Proof.
  unfold SFdiv_core_binary. simpl Zdigits2.
  set (d1 := Zpos (digits2_pos m1)). set (d2 := Zpos (digits2_pos m2)).
  set (e' := Z.min (fexp prec emax (d1 + e1 - (d2 + e2))) (e1 - e2)).
  set (s := e1 - e2 - e').
  assert (Hs : 0 <= s) by (unfold s, e'; lia).
  set (m' := match s with Zpos _ => Z.shiftl (Zpos m1) s | Z0 => Zpos m1 | Zneg _ => 0 end).
  assert (Hm' : m' = Zpos m1 * 2 ^ s).
  { unfold m'. destruct s as [|p|p] eqn:E; try lia.
    rewrite Z.shiftl_mul_pow2 by lia. reflexivity. }
  pose proof (Z_div_mod m' (Zpos m2) ltac:(lia)) as Hdm.
  destruct (Z.div_eucl m' (Zpos m2)) as [q r]. simpl fst. simpl snd.
  destruct Hdm as [Hdm Hr].
  pose proof (pow2_pos s Hs) as Hps.
  assert (Hq0 : 0 <= q) by nia.
  split; [assumption|].
  destruct (Z.le_gt_cases e' (emin prec emax)) as [Hc|Hc]; [unfold fexp; lia|].
  assert (Hds : prec <= d1 - d2 + s)
    by (unfold s, e', fexp, emin, prec, emax in *; lia).
  pose proof (digits_lower m1) as L1. pose proof (digits_upper m2) as U2.
  fold d1 in L1. fold d2 in U2.
  assert (Hq : 2 ^ (prec - 1) <= q).
  { assert (Hlow : 2 ^ (prec - 1) * Zpos m2 <= m').
    { rewrite Hm'.
      assert (2 ^ (d1 - 1) * 2 ^ s <= Zpos m1 * 2 ^ s)
        by (apply Z.mul_le_mono_nonneg_r; lia).
      assert (2 ^ (prec - 1) * Zpos m2 <= 2 ^ (prec - 1) * 2 ^ d2)
        by (apply Z.mul_le_mono_nonneg_l; [apply Z.pow_nonneg|]; lia).
      rewrite <- Z.pow_add_r in H, H0 by (unfold d1, d2, prec in *; lia).
      pose proof (pow2_le (prec - 1 + d2) (d1 - 1 + s)
                    ltac:(unfold d1, d2, prec in *; lia)). lia. }
    assert (2 ^ (prec - 1) < q + 1); [|lia].
    apply (Z.mul_lt_mono_pos_l (Zpos m2)); [lia|]. nia. }
  assert (Hd : prec <= Zdigits2 q).
  { pose proof (Zdigits2_bounds q ltac:(pose proof (pow2_pos (prec - 1)); unfold prec in *; lia))
      as [_ U].
    assert (Hlt : 2 ^ (prec - 1) < 2 ^ Zdigits2 q) by lia.
    apply Z.pow_lt_mono_r_iff in Hlt; [lia|lia|apply Zdigits2_nonneg]. }
  unfold fexp. lia.
Qed.

Lemma fdiv_valid (a b : float) : is_valid (fdiv a b) = true.
Proof.
  destruct a as [sa|sa| |sa ma ea], b as [sb|sb| |sb mb eb]; try reflexivity.
  unfold fdiv, SFdiv.
  pose proof (SFdiv_core_canonical ma mb ea eb) as [Hq He].
  destruct (SFdiv_core_binary prec emax (Zpos ma) ea (Zpos mb) eb) as [[q e'] l].
  simpl in Hq, He. apply binary_round_aux_valid_gen; assumption.
Qed.

Lemma CLAMP_valid (a : float) :
  is_valid a = true -> is_valid (CLAMP a (of_Z 0) (of_Z 1)) = true.
Proof.
  intros H. unfold CLAMP.
  destruct (flt a (of_Z 0)); [reflexivity|]. destruct (flt (of_Z 1) a); [reflexivity|].
  assumption.
Qed.

Lemma is_finite_not_nan (x : float) : is_finite x = true -> is_nan x = false.
Proof. destruct x; intros H; try discriminate H; reflexivity. Qed.

(** Between the computed endpoints: the result lies between [to_min] and
    [(to_max - to_min) + to_min]. *)
Lemma MapRange_bracket (value from_min from_max to_min to_max : float) :
  is_valid to_min = true -> is_valid to_max = true ->
  is_finite to_min = true -> is_finite to_max = true ->
  is_finite (fsub to_max to_min) = true ->
  is_nan (MapRange_t fdiv value from_min from_max) = false ->
  (fle to_min to_max = true ->
   fle to_min (MapRange_compute fdiv value from_min from_max to_min to_max) = true
   /\ fle (MapRange_compute fdiv value from_min from_max to_min to_max)
          (fadd (fsub to_max to_min) to_min) = true)
  /\ (fle to_max to_min = true ->
      fle (fadd (fsub to_max to_min) to_min)
          (MapRange_compute fdiv value from_min from_max to_min to_max) = true
      /\ fle (MapRange_compute fdiv value from_min from_max to_min to_max)
             to_min = true).
Proof.
  intros Vmin Vmax Fmin Fmax Fr Nt.
  pose proof (is_finite_not_nan _ Fmin) as Nmin.
  pose proof (is_finite_not_nan _ Fmax) as Nmax.
  destruct (fsub_units to_max to_min Vmax Vmin Fmax Fmin) as (Vr & Nr & Wr).
  set (r := fsub to_max to_min) in *.
  destruct (fadd_units r to_min Vr Vmin Fr Fmin) as (VU & NU & WU).
  pose proof (round_units_exact to_min Vmin Fmin) as Wmin.
  assert (Hres : exists res : float,
             MapRange_compute fdiv value from_min from_max to_min to_max = res
             /\ is_valid res = true /\ is_nan res = false
             /\ exists p : Z, units res = round_units (p + units to_min)
                              /\ Z.min 0 (units r) <= p <= Z.max 0 (units r)).
  { unfold MapRange_compute. fold r.
    destruct (feq (fsub from_max from_min) (of_Z 0)).
    - exists to_min. split; [reflexivity|]. split; [assumption|]. split; [assumption|].
      exists 0. rewrite Z.add_0_l. split; [symmetry; assumption|lia].
    - fold (MapRange_t fdiv value from_min from_max).
      set (t := MapRange_t fdiv value from_min from_max) in *.
      assert (Vt : is_valid t = true) by (apply CLAMP_valid, fdiv_valid).
      destruct (CLAMP_unit (fdiv (fsub value from_min) (fsub from_max from_min)))
        as [Hnan|[H0 H1]]; [fold (MapRange_t fdiv value from_min from_max) in Hnan;
                            fold t in Hnan; congruence|].
      fold (MapRange_t fdiv value from_min from_max) in H0, H1. fold t in H0, H1.
      apply (fle_units (of_Z 0) t) in H0; try assumption; try reflexivity.
      apply (fle_units t (of_Z 1)) in H1; try assumption; try reflexivity.
      change (units (of_Z 0)) with 0 in H0.
      destruct (fmul_bounds t r Vt Vr Nt Fr (conj H0 H1)) as (Vp & Fp & Hp).
      destruct (fadd_units (fmul t r) to_min Vp Vmin Fp Fmin) as (Vres & Nres & Wres).
      eexists. split; [reflexivity|]. split; [assumption|]. split; [assumption|].
      exists (units (fmul t r)). split; assumption. }
  destruct Hres as (res & -> & Vres & Nres & p & Wres & Hp).
  split; intros Hle.
  - apply (fle_units _ _ Vmin Vmax Nmin Nmax) in Hle.
    assert (Hr0 : 0 <= units r) by (rewrite Wr; change 0 with (round_units 0); apply round_units_mono; lia).
    split; apply fle_units; try assumption.
    + rewrite Wres, <- Wmin. apply round_units_mono. lia.
    + rewrite Wres, WU. apply round_units_mono. lia.
  - apply (fle_units _ _ Vmax Vmin Nmax Nmin) in Hle.
    assert (Hr0 : units r <= 0) by (rewrite Wr; change 0 with (round_units 0); apply round_units_mono; lia).
    split; apply fle_units; try assumption.
    + rewrite Wres, WU. apply round_units_mono. lia.
    + rewrite Wres, <- Wmin. apply round_units_mono. lia.
Qed.

Lemma fsub_valid (x y : float) :
  is_valid x = true -> is_valid y = true -> is_valid (fsub x y) = true.
Proof.
  intros Hx Hy.
  destruct x as [sx|sx| |sx mx ex], y as [sy|sy| |sy my ey];
    try reflexivity; try assumption; try (destruct sx, sy; reflexivity).
  destruct (valid_finite_inv sx mx ex Hx) as ([Hx1 _] & _).
  destruct (valid_finite_inv sy my ey Hy) as ([Hy1 _] & _).
  unfold fsub, SFsub. apply binary_normalize_units. lia.
Qed.

(** ** Multiplication by one and by zero *)

Lemma fmul_one_l (x : float) : is_valid x = true -> fmul (of_Z 1) x = x.
Proof.
  destruct x as [sx|sx| |sx mx ex]; intros Hx; try reflexivity.
  unfold is_valid, valid_binary, bounded in Hx.
  apply andb_prop in Hx as [Hc Hb].
  unfold canonical_mantissa in Hc. apply Z.eqb_eq in Hc.
  change (of_Z 1) with (S754_finite false 8388608 (-23)).
  unfold fmul, SFmul. simpl xorb. simpl Pos.mul.
  unfold binary_round_aux.
  assert (Hs : shr_fexp prec emax
                 (Zpos mx~0~0~0~0~0~0~0~0~0~0~0~0~0~0~0~0~0~0~0~0~0~0~0)
                 (-23 + ex) loc_Exact
               = ({| shr_m := Zpos mx; shr_r := false; shr_s := false |}, ex)).
  { unfold shr_fexp. unfold Zdigits2.
    replace (Zpos (digits2_pos mx~0~0~0~0~0~0~0~0~0~0~0~0~0~0~0~0~0~0~0~0~0~0~0)
             + (-23 + ex))
      with (Zpos (digits2_pos mx) + ex) by (simpl digits2_pos; lia).
    rewrite Hc. replace (ex - (-23 + ex)) with 23 by lia.
    unfold shr. f_equal. lia. }
  change (8388608 * mx)%positive
    with (mx~0~0~0~0~0~0~0~0~0~0~0~0~0~0~0~0~0~0~0~0~0~0~0)%positive.
  rewrite Hs. simpl loc_of_shr_record. simpl shr_m. simpl round_nearest_even.
  assert (Hs2 : shr_fexp prec emax (Zpos mx) ex loc_Exact
                = ({| shr_m := Zpos mx; shr_r := false; shr_s := false |}, ex)).
  { unfold shr_fexp. simpl Zdigits2. rewrite Hc, Z.sub_diag. reflexivity. }
  rewrite Hs2. simpl shr_m. rewrite Hb. reflexivity.
Qed.

Lemma feq_zero_inv (t : float) : feq t (of_Z 0) = true -> is_zero t = true.
Proof. destruct t as [s|[]| |[] m e]; intros H; try discriminate H; reflexivity. Qed.

Lemma feq_one_inv (t : float) : feq t (of_Z 1) = true -> t = of_Z 1.
Proof.
  intros H.
  assert (Hf : is_finite t = true)
    by (destruct t as [s|[]| |[] m e]; try discriminate H; reflexivity).
  destruct (feq_finite_inv t (of_Z 1) Hf eq_refl H) as [E|[_ E]];
    [exact E|discriminate E].
Qed.

Lemma MapRange_lower_end (t r to_min : float) :
  is_zero t = true -> is_finite r = true -> is_nan to_min = false ->
  feq (fadd (fmul t r) to_min) to_min = true.
Proof.
  intros Ht Hr Hn.
  destruct t as [st| | |]; try discriminate Ht.
  destruct r as [sr| | |sr mr er]; try discriminate Hr;
    destruct to_min as [sm|sm| |sm mm em]; try discriminate Hn;
    try (destruct st, sr, sm; reflexivity);
    apply feq_refl_finite.
Qed.

(** ** The interpreted bodies on tuples *)

Lemma MapRange_call_eq (value from_min from_max to_min to_max o : float)
    (rest : Tuple) (c : ExecutionContext) (log : list nat) :
  call MapRange
       [VFloat value; VFloat from_min; VFloat from_max; VFloat to_min; VFloat to_max]
       {| fn_out := VFloat o :: rest; ctx := c; written := log |}
  = Ok (tt, {| fn_out := VFloat (MapRange_compute fdiv value from_min from_max
                                                  to_min to_max) :: rest;
               ctx := c; written := 0%nat :: log |}).
Proof. reflexivity. Qed.

Lemma MapRange_compute_nondegenerate (div : float -> float -> float)
    (value from_min from_max to_min to_max : float) :
  is_valid from_min = true -> is_valid from_max = true ->
  feq from_max from_min = false ->
  MapRange_compute div value from_min from_max to_min to_max
  = fadd to_min
         (fmul (CLAMP (div (fsub value from_min) (fsub from_max from_min))
                      (of_Z 0) (of_Z 1))
               (fsub to_max to_min)).
Proof.
  intros Hmin Hmax Hne. unfold MapRange_compute.
  rewrite (fsub_nonzero from_max from_min Hmax Hmin Hne).
  rewrite fadd_comm. reflexivity.
Qed.

(** C1. Whenever [from_max != from_min], the interpreted body of Map Range
    writes [to_min + t * (to_max - to_min)] to its output slot, where
    [t = clamp((value - from_min) / (from_max - from_min), 0, 1)]; and
    map_range(5,0,10,0,1) = 0.5, map_range(-5,0,10,0,1) = 0.0,
    map_range(15,0,10,0,1) = 1.0 on the built-in function. *)
Theorem MapRange_interpolates :
  (forall (value from_min from_max to_min to_max o : float)
          (rest : Tuple) (c : ExecutionContext) (log : list nat),
      is_valid from_min = true -> is_valid from_max = true ->
      feq from_max from_min = false ->
      call MapRange
           [VFloat value; VFloat from_min; VFloat from_max; VFloat to_min; VFloat to_max]
           {| fn_out := VFloat o :: rest; ctx := c; written := log |}
      = Ok (tt, {| fn_out :=
                     VFloat (fadd to_min
                               (fmul (CLAMP (fdiv (fsub value from_min)
                                                  (fsub from_max from_min))
                                            (of_Z 0) (of_Z 1))
                                     (fsub to_max to_min))) :: rest;
                   ctx := c; written := 0%nat :: log |}))
  /\ interpret lazy_map_range [of_Z 5; of_Z 0; of_Z 10; of_Z 0; of_Z 1]
               ExecutionContext_new = Ok [scaled 1 (-1)]
  /\ interpret lazy_map_range [of_Z (-5); of_Z 0; of_Z 10; of_Z 0; of_Z 1]
               ExecutionContext_new = Ok [of_Z 0]
  /\ interpret lazy_map_range [of_Z 15; of_Z 0; of_Z 10; of_Z 0; of_Z 1]
               ExecutionContext_new = Ok [of_Z 1].
Proof.
  split; [|repeat split; vm_compute; reflexivity].
  intros value from_min from_max to_min to_max o rest c log Hmin Hmax Hne.
  rewrite MapRange_call_eq.
  rewrite (MapRange_compute_nondegenerate fdiv) by assumption.
  reflexivity.
Qed.

Lemma MapRange_interpolates_witness :
  call MapRange
       [VFloat (of_Z 7); VFloat (of_Z 2); VFloat (of_Z 12); VFloat (of_Z 3); VFloat (of_Z 4)]
       {| fn_out := [VFloat (of_Z 0)]; ctx := ExecutionContext_new; written := [] |}
  = Ok (tt, {| fn_out :=
                 [VFloat (fadd (of_Z 3)
                            (fmul (CLAMP (fdiv (fsub (of_Z 7) (of_Z 2))
                                               (fsub (of_Z 12) (of_Z 2)))
                                         (of_Z 0) (of_Z 1))
                                  (fsub (of_Z 4) (of_Z 3))))];
               ctx := ExecutionContext_new; written := [0%nat] |}).
Proof.
  apply (proj1 MapRange_interpolates); reflexivity.
Defined.

(** C2, as stated, fails when the common bound [c] is an infinity:
    [c - c] is then a NaN, the test [from_range == 0] is false, and the
    body divides and returns a NaN instead of [to_min]. *)
Lemma MapRange_degenerate_infinite_counterexample :
  feq (S754_infinity false) (S754_infinity false) = true
  /\ interpret lazy_map_range
       [of_Z 5; S754_infinity false; S754_infinity false; of_Z 0; of_Z 1]
       ExecutionContext_new = Ok [S754_nan]
  /\ S754_nan <> of_Z 0.
Proof. repeat split; try (vm_compute; reflexivity). discriminate. Qed.

(** C2 (amended). When [from_min] and [from_max] are finite and equal, the
    interpreted body of Map Range writes [to_min] to its output slot for
    every [value], [to_min] and [to_max], and the result does not depend on
    the division: no division is performed. *)
Theorem MapRange_degenerate
    (value from_min from_max to_min to_max o : float)
    (rest : Tuple) (c : ExecutionContext) (log : list nat) :
  is_finite from_min = true -> is_finite from_max = true ->
  feq from_max from_min = true ->
  call MapRange
       [VFloat value; VFloat from_min; VFloat from_max; VFloat to_min; VFloat to_max]
       {| fn_out := VFloat o :: rest; ctx := c; written := log |}
  = Ok (tt, {| fn_out := VFloat to_min :: rest; ctx := c; written := 0%nat :: log |})
  /\ forall div : float -> float -> float,
       MapRange_compute div value from_min from_max to_min to_max = to_min.
Proof.
  intros Hmin Hmax Heq.
  assert (Hdeg : forall div, MapRange_compute div value from_min from_max to_min to_max
                             = to_min).
  { intros div. unfold MapRange_compute.
    rewrite (fsub_equal_zero from_max from_min Hmax Hmin Heq). reflexivity. }
  split; [|exact Hdeg].
  rewrite MapRange_call_eq, Hdeg. reflexivity.
Qed.

Lemma MapRange_degenerate_witness :
  call MapRange
       [VFloat (of_Z 9); VFloat (of_Z 4); VFloat (of_Z 4); VFloat (of_Z 2); VFloat (of_Z 6)]
       {| fn_out := [VFloat (of_Z 0)]; ctx := ExecutionContext_new; written := [] |}
  = Ok (tt, {| fn_out := [VFloat (of_Z 2)]; ctx := ExecutionContext_new;
               written := [0%nat] |}).
Proof.
  apply (MapRange_degenerate (of_Z 9) (of_Z 4) (of_Z 4) (of_Z 2) (of_Z 6) (of_Z 0)
           [] ExecutionContext_new []); reflexivity.
Defined.

(** C3, as stated, fails: with [to_min <= to_max] the result can exceed
    [to_max] by rounding (the difference 16777219 rounds to 16777220, and
    so does the sum 16777220 - 1), and with [to_min > to_max] the result
    lies between [to_max] and [to_min]. *)
Lemma MapRange_leaves_destination_counterexample :
  (fle (of_Z (-1)) (of_Z 16777218) = true
   /\ interpret lazy_map_range
        [of_Z 10; of_Z 0; of_Z 10; of_Z (-1); of_Z 16777218]
        ExecutionContext_new = Ok [of_Z 16777220]
   /\ flt (of_Z 16777218) (of_Z 16777220) = true)
  /\ (interpret lazy_map_range [of_Z 5; of_Z 0; of_Z 10; of_Z 1; of_Z 0]
        ExecutionContext_new = Ok [scaled 1 (-1)]
      /\ flt (scaled 1 (-1)) (of_Z 1) = true).
Proof. repeat split; vm_compute; reflexivity. Qed.

(** C3 (amended). For every input tuple the interpolation factor [t] of the
    interpreted body of Map Range is a NaN or lies in [[0, 1]], also when
    [value] lies outside the source range.  When [to_min] and [to_max] are
    finite, their difference does not overflow and [t] is not a NaN, the
    value the body writes lies between [to_min] and
    [(to_max - to_min) + to_min] (each operation rounded to binary32), in
    the order of [to_min] and [to_max]: the result never leaves the interval
    between the two endpoints the body itself computes.  It equals [to_min]
    at [t == 0] and is [(to_max - to_min) + to_min] at [t == 1]; that
    endpoint agrees with [to_max] only up to rounding. *)
Theorem MapRange_never_extrapolates
    (value from_min from_max to_min to_max o : float)
    (rest : Tuple) (c : ExecutionContext) (log : list nat) :
  (is_nan (MapRange_t fdiv value from_min from_max) = true
   \/ (fle (of_Z 0) (MapRange_t fdiv value from_min from_max) = true
       /\ fle (MapRange_t fdiv value from_min from_max) (of_Z 1) = true))
  /\ call MapRange
       [VFloat value; VFloat from_min; VFloat from_max; VFloat to_min; VFloat to_max]
       {| fn_out := VFloat o :: rest; ctx := c; written := log |}
     = Ok (tt, {| fn_out :=
                    VFloat (MapRange_compute fdiv value from_min from_max
                                             to_min to_max) :: rest;
                  ctx := c; written := 0%nat :: log |})
  /\ (is_valid to_min = true -> is_valid to_max = true ->
      is_finite to_min = true -> is_finite to_max = true ->
      is_finite (fsub to_max to_min) = true ->
      is_nan (MapRange_t fdiv value from_min from_max) = false ->
      (fle to_min to_max = true ->
       fle to_min (MapRange_compute fdiv value from_min from_max to_min to_max) = true
       /\ fle (MapRange_compute fdiv value from_min from_max to_min to_max)
              (fadd (fsub to_max to_min) to_min) = true)
      /\ (fle to_max to_min = true ->
          fle (fadd (fsub to_max to_min) to_min)
              (MapRange_compute fdiv value from_min from_max to_min to_max) = true
          /\ fle (MapRange_compute fdiv value from_min from_max to_min to_max)
                 to_min = true))
  /\ (feq (MapRange_t fdiv value from_min from_max) (of_Z 0) = true ->
      is_finite (fsub to_max to_min) = true -> is_nan to_min = false ->
      feq (MapRange_compute fdiv value from_min from_max to_min to_max) to_min = true)
  /\ (feq (MapRange_t fdiv value from_min from_max) (of_Z 1) = true ->
      is_valid to_min = true -> is_valid to_max = true ->
      MapRange_compute fdiv value from_min from_max to_min to_max
      = (if feq (fsub from_max from_min) (of_Z 0) then to_min
         else fadd (fsub to_max to_min) to_min)).
Proof.
  split; [apply CLAMP_unit|].
  split; [apply MapRange_call_eq|].
  split; [apply MapRange_bracket|].
  split.
  - intros Ht Hr Hn. unfold MapRange_compute.
    destruct (feq (fsub from_max from_min) (of_Z 0)).
    + unfold feq, SFeqb. rewrite SFcompare_refl by assumption. reflexivity.
    + apply MapRange_lower_end; try assumption.
      apply feq_zero_inv. exact Ht.
  - intros Ht Hmin Hmax. unfold MapRange_compute.
    destruct (feq (fsub from_max from_min) (of_Z 0)); [reflexivity|].
    fold (MapRange_t fdiv value from_min from_max).
    rewrite (feq_one_inv _ Ht), fmul_one_l by (apply fsub_valid; assumption).
    reflexivity.
Qed.

Lemma MapRange_never_extrapolates_witness :
  (fle (of_Z 3) (MapRange_compute fdiv (of_Z 7) (of_Z 0) (of_Z 10) (of_Z 3) (of_Z 4))
   = true
   /\ fle (MapRange_compute fdiv (of_Z 7) (of_Z 0) (of_Z 10) (of_Z 3) (of_Z 4))
          (fadd (fsub (of_Z 4) (of_Z 3)) (of_Z 3)) = true)
  /\ feq (MapRange_compute fdiv (of_Z (-5)) (of_Z 0) (of_Z 10) (of_Z 3) (of_Z 4)) (of_Z 3)
     = true
  /\ MapRange_compute fdiv (of_Z 15) (of_Z 0) (of_Z 10) (of_Z 3) (of_Z 4)
     = (if feq (fsub (of_Z 10) (of_Z 0)) (of_Z 0) then of_Z 3
        else fadd (fsub (of_Z 4) (of_Z 3)) (of_Z 3)).
Proof.
  split; [|split].
  - apply (MapRange_never_extrapolates (of_Z 7) (of_Z 0) (of_Z 10) (of_Z 3) (of_Z 4)
             (of_Z 0) [] ExecutionContext_new []); reflexivity.
  - apply (MapRange_never_extrapolates (of_Z (-5)) (of_Z 0) (of_Z 10) (of_Z 3) (of_Z 4)
             (of_Z 0) [] ExecutionContext_new []); reflexivity.
  - apply (MapRange_never_extrapolates (of_Z 15) (of_Z 0) (of_Z 10) (of_Z 3) (of_Z 4)
             (of_Z 0) [] ExecutionContext_new []); reflexivity.
Defined.

(** ** The arithmetic bodies *)

Lemma min_is_lesser (a b : float) :
  let m := if flt a b then a else b in
  (m = a \/ m = b) /\ flt a m = false /\ flt b m = false
  /\ is_nan a || is_nan b || (fle m a && fle m b) = true.
Proof.
  simpl. destruct (flt a b) eqn:H.
  - repeat split; auto using flt_irrefl, flt_asym.
    destruct (is_nan a) eqn:Ha; [reflexivity|].
    destruct (is_nan b) eqn:Hb; [reflexivity|]. simpl.
    rewrite fle_refl, flt_true_fle by assumption. reflexivity.
  - repeat split; auto using flt_irrefl.
    destruct (is_nan a) eqn:Ha; [reflexivity|].
    destruct (is_nan b) eqn:Hb; [reflexivity|]. simpl.
    rewrite fle_refl, flt_false_fle by assumption. reflexivity.
Qed.

Lemma max_is_greater (a b : float) :
  let m := if flt a b then b else a in
  (m = a \/ m = b) /\ flt m a = false /\ flt m b = false
  /\ is_nan a || is_nan b || (fle a m && fle b m) = true.
Proof.
  simpl. destruct (flt a b) eqn:H.
  - repeat split; auto using flt_irrefl, flt_asym.
    destruct (is_nan a) eqn:Ha; [reflexivity|].
    destruct (is_nan b) eqn:Hb; [reflexivity|]. simpl.
    rewrite fle_refl, flt_true_fle by assumption. reflexivity.
  - repeat split; auto using flt_irrefl.
    destruct (is_nan a) eqn:Ha; [reflexivity|].
    destruct (is_nan b) eqn:Hb; [reflexivity|]. simpl.
    rewrite fle_refl, flt_false_fle by assumption. reflexivity.
Qed.

(** C4. On every pair of floats [a], [b] the interpreted bodies AddFloats,
    MultiplyFloats, MinFloats and MaxFloats set their single output slot
    exactly once, to [a + b], to [a * b], to the lesser and to the greater
    of [a] and [b]: the value written by MinFloats (MaxFloats) is one of the
    inputs, no input is smaller (greater) than it, and unless an input is a
    NaN it is below (above) both.  add(2,3) = 5, multiply(2,3) = 6,
    min(2,3) = 2 and max(2,3) = 3. *)
Theorem arithmetic_bodies (a b o : float) (rest : Tuple)
    (c : ExecutionContext) (log : list nat) :
  call AddFloats [VFloat a; VFloat b]
       {| fn_out := VFloat o :: rest; ctx := c; written := log |}
  = Ok (tt, {| fn_out := VFloat (fadd a b) :: rest; ctx := c;
               written := 0%nat :: log |})
  /\ call MultiplyFloats [VFloat a; VFloat b]
          {| fn_out := VFloat o :: rest; ctx := c; written := log |}
     = Ok (tt, {| fn_out := VFloat (fmul a b) :: rest; ctx := c;
                  written := 0%nat :: log |})
  /\ (exists m : float,
         call MinFloats [VFloat a; VFloat b]
              {| fn_out := VFloat o :: rest; ctx := c; written := log |}
         = Ok (tt, {| fn_out := VFloat m :: rest; ctx := c;
                      written := 0%nat :: log |})
         /\ (m = a \/ m = b) /\ flt a m = false /\ flt b m = false
         /\ is_nan a || is_nan b || (fle m a && fle m b) = true)
  /\ (exists m : float,
         call MaxFloats [VFloat a; VFloat b]
              {| fn_out := VFloat o :: rest; ctx := c; written := log |}
         = Ok (tt, {| fn_out := VFloat m :: rest; ctx := c;
                      written := 0%nat :: log |})
         /\ (m = a \/ m = b) /\ flt m a = false /\ flt m b = false
         /\ is_nan a || is_nan b || (fle a m && fle b m) = true)
  /\ call AddFloats [VFloat (of_Z 2); VFloat (of_Z 3)]
          (CallState_new [VFloat (of_Z 0)] ExecutionContext_new)
     = Ok (tt, {| fn_out := [VFloat (of_Z 5)]; ctx := ExecutionContext_new;
                  written := [0%nat] |})
  /\ interpret lazy_multiply_floats [of_Z 2; of_Z 3] ExecutionContext_new
     = Ok [of_Z 6]
  /\ interpret lazy_min_floats [of_Z 2; of_Z 3] ExecutionContext_new = Ok [of_Z 2]
  /\ interpret lazy_max_floats [of_Z 2; of_Z 3] ExecutionContext_new = Ok [of_Z 3].
Proof.
  split; [reflexivity|]. split; [reflexivity|].
  split; [eexists; split; [reflexivity|apply min_is_lesser]|].
  split; [eexists; split; [reflexivity|apply max_is_greater]|].
  repeat split; vm_compute; reflexivity.
Qed.

(** ** Interpreted and codegen bodies *)

(** C5, as stated, fails on the Add Floats function: it carries the codegen
    body only, so on the inputs 2 and 3 the interpreted strategy fails with
    [UnresolvedBody] where the codegen strategy returns 5. *)
Lemma AddFloats_not_attached_counterexample :
  (exists f : Function,
      builtin_function lazy_add_floats = Ok f
      /\ tuple_call_body f = None
      /\ llvm_build_ir_body f = Some GenAddFloats)
  /\ interpret lazy_add_floats [of_Z 2; of_Z 3] ExecutionContext_new
     = Err UnresolvedBody
  /\ run_compiled lazy_add_floats [of_Z 2; of_Z 3] ExecutionContext_new
     = Ok [of_Z 5]
  /\ interpret lazy_add_floats [of_Z 2; of_Z 3] ExecutionContext_new
     <> run_compiled lazy_add_floats [of_Z 2; of_Z 3] ExecutionContext_new.
Proof.
  split; [eexists; split; [vm_compute; reflexivity|split; reflexivity]|].
  split; [reflexivity|]. split; [vm_compute; reflexivity|].
  vm_compute. discriminate.
Qed.

(** C5 (amended). No built-in function carries both an interpreted body and
    a codegen body.  The two bodies written for addition compute the same
    value all the same: for every pair of float inputs, the interpreted body
    AddFloats, called on an output tuple bound to the outputs of the Add
    Floats signature, sets the output to [a + b], exactly the value
    returned by the code that GenAddFloats, the codegen body of Add Floats,
    emits.  The Add Floats function itself, to which AddFloats is not
    attached, fails with [UnresolvedBody] under the interpreted strategy. *)
Theorem AddFloats_GenAddFloats_agree :
  (forall cell : LazyFunction,
      exists f : Function,
        builtin_function cell = Ok f
        /\ (tuple_call_body f = None \/ llvm_build_ir_body f = None))
  /\ (exists f : Function,
         builtin_function lazy_add_floats = Ok f
         /\ llvm_build_ir_body f = Some GenAddFloats
         /\ forall (a b : float) (c : ExecutionContext),
              (exists s : CallState,
                  call AddFloats [VFloat a; VFloat b]
                       (CallState_new
                          (Tuple_bind (map param_type (outputs (fn_signature f)))) c)
                  = Ok (tt, s)
                  /\ Tuple_floats (fn_out s) = Ok [fadd a b])
              /\ evaluate Codegen f [a; b] c = Ok [fadd a b]
              /\ evaluate Interpreted f [a; b] c = Err UnresolvedBody).
Proof.
  split.
  - intros cell.
    destruct cell; eexists; (split; [vm_compute; reflexivity|]);
      first [left; reflexivity | right; reflexivity].
  - eexists. split; [vm_compute; reflexivity|]. split; [reflexivity|].
    intros a b c. split; [|split; reflexivity].
    eexists. split; reflexivity.
Qed.

(** ** Signatures *)

(** C9. Signature construction checks name uniqueness within each direction
    only: it succeeds exactly when the input names are pairwise distinct and
    the output names are pairwise distinct, and fails with
    [DuplicateParameter] otherwise.  The Map Range signature, whose first
    input and whose output are both named Value, is constructed, while a
    name used twice among the inputs is refused. *)
Theorem Signature_uniqueness_per_direction :
  (forall ins outs : list FnParameter,
      (NoDup (map param_name ins) /\ NoDup (map param_name outs)
       /\ Signature_construct ins outs = Ok {| inputs := ins; outputs := outs |})
      \/ (~ (NoDup (map param_name ins) /\ NoDup (map param_name outs))
          /\ Signature_construct ins outs = Err DuplicateParameter))
  /\ Signature_construct
       [ InputParameter "Value" get_float_type;
         InputParameter "From Min" get_float_type;
         InputParameter "From Max" get_float_type;
         InputParameter "To Min" get_float_type;
         InputParameter "To Max" get_float_type ]
       [ OutputParameter "Value" get_float_type ]
     = Ok {| inputs := [ InputParameter "Value" get_float_type;
                         InputParameter "From Min" get_float_type;
                         InputParameter "From Max" get_float_type;
                         InputParameter "To Min" get_float_type;
                         InputParameter "To Max" get_float_type ];
             outputs := [ OutputParameter "Value" get_float_type ] |}
  /\ (exists f : Function,
         builtin_function lazy_map_range = Ok f
         /\ map param_name (inputs (fn_signature f))
            = ["Value"; "From Min"; "From Max"; "To Min"; "To Max"]
         /\ map param_name (outputs (fn_signature f)) = ["Value"])
  /\ Signature_construct
       [ InputParameter "Value" get_float_type;
         InputParameter "Value" get_float_type ]
       [ OutputParameter "Result" get_float_type ]
     = Err DuplicateParameter.
Proof.
  split.
  { intros ins outs. unfold Signature_construct.
    destruct (decide (NoDup (map param_name ins))) as [Hi|Hi];
      [destruct (decide (NoDup (map param_name outs))) as [Ho|Ho]|].
    - left. auto.
    - right. split; [intros [_ H]; contradiction|reflexivity].
    - right. split; [intros [H _]; contradiction|reflexivity]. }
  split; [vm_compute; reflexivity|].
  split; [|vm_compute; reflexivity].
  eexists. split; [vm_compute; reflexivity|]. split; reflexivity.
Qed.

(** ** Bodies attached to the built-in functions *)

(** C10. Add Floats carries the codegen body GenAddFloats and no
    interpreted body; Multiply Floats, Minimum, Maximum and Map Range carry
    their interpreted body and no codegen body.  Hence, on every argument
    list, Add Floats evaluated under the interpreted strategy and the other
    four evaluated under the codegen strategy fail with [UnresolvedBody]. *)
Theorem builtin_bodies_by_strategy :
  (exists f : Function,
      builtin_function lazy_add_floats = Ok f
      /\ tuple_call_body f = None
      /\ llvm_build_ir_body f = Some GenAddFloats)
  /\ (forall (cell : LazyFunction) (body : TupleCallBody),
         In (cell, body) [ (lazy_multiply_floats, MultiplyFloats);
                           (lazy_min_floats, MinFloats);
                           (lazy_max_floats, MaxFloats);
                           (lazy_map_range, MapRange) ] ->
         exists f : Function,
           builtin_function cell = Ok f
           /\ tuple_call_body f = Some body
           /\ llvm_build_ir_body f = None)
  /\ (forall (args : list float) (c : ExecutionContext),
         interpret lazy_add_floats args c = Err UnresolvedBody
         /\ run_compiled lazy_multiply_floats args c = Err UnresolvedBody
         /\ run_compiled lazy_min_floats args c = Err UnresolvedBody
         /\ run_compiled lazy_max_floats args c = Err UnresolvedBody
         /\ run_compiled lazy_map_range args c = Err UnresolvedBody).
Proof.
  split; [eexists; split; [vm_compute; reflexivity|split; reflexivity]|].
  split.
  - intros cell body Hin.
    simpl in Hin.
    repeat (destruct Hin as [Hin|Hin];
            [injection Hin as <- <-; eexists;
             split; [vm_compute; reflexivity|split; reflexivity]|]).
    contradiction.
  - intros args c. repeat split; reflexivity.
Qed.

Lemma builtin_bodies_by_strategy_witness :
  exists f : Function,
    builtin_function lazy_map_range = Ok f
    /\ tuple_call_body f = Some MapRange
    /\ llvm_build_ir_body f = None.
Proof.
  apply (proj1 (proj2 builtin_bodies_by_strategy)).
  simpl. tauto.
Defined.

(** ** Purity of the interpreted bodies *)

Lemma get_float_agree (t1 t2 : Tuple) (i : nat) :
  t1 !! i = t2 !! i -> get_float t1 i = get_float t2 i.
Proof. intros H. unfold get_float, Tuple_get_float. rewrite H. reflexivity. Qed.

(** A body sees its input tuple through the declared input slots only. *)
Lemma call_inputs_only (body : TupleCallBody) (fn_in1 fn_in2 : Tuple) (s : CallState) :
  (forall i : nat, (i < declared_inputs body)%nat -> fn_in1 !! i = fn_in2 !! i) ->
  call body fn_in1 s = call body fn_in2 s.
Proof.
  intros H.
  destruct body; simpl in H; unfold call, AddFloats_call, MultiplyFloats_call,
    MinFloats_call, MaxFloats_call, MapRange_call;
    rewrite ?(get_float_agree fn_in1 fn_in2 0), ?(get_float_agree fn_in1 fn_in2 1),
      ?(get_float_agree fn_in1 fn_in2 2), ?(get_float_agree fn_in1 fn_in2 3),
      ?(get_float_agree fn_in1 fn_in2 4) by (apply H; lia);
    reflexivity.
Qed.

(** A body neither reads nor changes the context, and only adds to the
    log. *)
Lemma call_context_free (body : TupleCallBody) (fn_in out : Tuple)
    (c1 c2 : ExecutionContext) (log1 log2 : list nat) :
  match call body fn_in {| fn_out := out; ctx := c1; written := log1 |},
        call body fn_in {| fn_out := out; ctx := c2; written := log2 |} with
  | Ok (_, s1), Ok (_, s2) =>
      fn_out s1 = fn_out s2 /\ ctx s1 = c1 /\ ctx s2 = c2
      /\ exists new : list nat, written s1 = new ++ log1 /\ written s2 = new ++ log2
  | Err e1, Err e2 => e1 = e2
  | _, _ => False
  end.
Proof.
  destruct body; unfold call, AddFloats_call, MultiplyFloats_call, MinFloats_call,
    MaxFloats_call, MapRange_call, bind, get_float, lift, set_float; simpl;
    repeat match goal with
           | |- context [Tuple_get_float ?t ?i] =>
               destruct (Tuple_get_float t i); simpl; [|reflexivity]
           | |- context [Tuple_set_float ?t ?i ?x] =>
               destruct (Tuple_set_float t i x); simpl; [|reflexivity]
           end;
    (split; [reflexivity|split; [reflexivity|split; [reflexivity|]]]);
    exists [0%nat]; split; reflexivity.
Qed.

Lemma call_effect (body : TupleCallBody) (fn_in : Tuple) :
  exists r : result float, forall s : CallState, call body fn_in s = body_effect r s.
Proof.
  destruct body; unfold call, AddFloats_call, MultiplyFloats_call, MinFloats_call,
    MaxFloats_call, MapRange_call, bind, get_float, lift;
    repeat match goal with
           | |- context [Tuple_get_float ?t ?i] =>
               destruct (Tuple_get_float t i) as [?|e];
               [|exists (Err e); intros s; reflexivity]
           end;
    eexists (Ok _); intros s; reflexivity.
Qed.

(** C8. Every built-in interpreted body is a deterministic function of the
    values in its declared input slots: they alone decide whether the call
    fails on its inputs or which value it sets output slot 0 to, whatever
    the execution context, the output tuple and the calls made before.  So
    two invocations on input tuples that agree on the declared input slots,
    given the same output tuple under any two contexts, either both fail
    with the same error or both succeed with equal output tuples, having set
    the same slots; each leaves its context unchanged. *)
Theorem interpreted_bodies_are_pure
    (body : TupleCallBody) (fn_in1 fn_in2 : Tuple) :
  (forall i : nat, (i < declared_inputs body)%nat -> fn_in1 !! i = fn_in2 !! i) ->
  (exists r : result float,
      forall s : CallState,
        call body fn_in1 s = body_effect r s /\ call body fn_in2 s = body_effect r s)
  /\ (forall (out : Tuple) (c1 c2 : ExecutionContext) (log1 log2 : list nat),
         match call body fn_in1 {| fn_out := out; ctx := c1; written := log1 |},
               call body fn_in2 {| fn_out := out; ctx := c2; written := log2 |} with
         | Ok (_, s1), Ok (_, s2) =>
             fn_out s1 = fn_out s2 /\ ctx s1 = c1 /\ ctx s2 = c2
             /\ exists new : list nat,
                  written s1 = new ++ log1 /\ written s2 = new ++ log2
         | Err e1, Err e2 => e1 = e2
         | _, _ => False
         end).
Proof.
  intros H. split.
  - destruct (call_effect body fn_in1) as (r & Hr). exists r. intros s.
    rewrite <- (call_inputs_only body fn_in1 fn_in2 s H). split; apply Hr.
  - intros out c1 c2 log1 log2.
    rewrite (call_inputs_only body fn_in1 fn_in2 _ H).
    apply call_context_free.
Qed.

Lemma interpreted_bodies_are_pure_witness :
  match call MapRange
             [VFloat (of_Z 5); VFloat (of_Z 0); VFloat (of_Z 10); VFloat (of_Z 0);
              VFloat (of_Z 1)]
             {| fn_out := [VFloat (of_Z 0)]; ctx := ExecutionContext_new; written := [] |},
        call MapRange
             [VFloat (of_Z 5); VFloat (of_Z 0); VFloat (of_Z 10); VFloat (of_Z 0);
              VFloat (of_Z 1); VInt32 7]
             {| fn_out := [VFloat (of_Z 0)];
                ctx := {| ctx_globals := {| objects := [3%nat] |};
                          ctx_data := EvalData_new |};
                written := [0%nat] |} with
  | Ok (_, s1), Ok (_, s2) =>
      fn_out s1 = fn_out s2 /\ ctx s1 = ExecutionContext_new
      /\ ctx s2 = {| ctx_globals := {| objects := [3%nat] |}; ctx_data := EvalData_new |}
      /\ exists new : list nat, written s1 = new ++ [] /\ written s2 = new ++ [0%nat]
  | Err e1, Err e2 => e1 = e2
  | _, _ => False
  end.
Proof.
  apply (interpreted_bodies_are_pure MapRange).
  intros [|[|[|[|[|i]]]]] Hi; try reflexivity. simpl in Hi. lia.
Defined.

(** ** Lazy initialisation of the built-in functions *)

Lemma get_simple_math_function_eq (name : string) (w : World) :
  get_simple_math_function name w
  = Ok (length (heap w),
        {| heap := heap w ++
             [{| fn_name := name;
                 fn_signature := {| inputs := [InputParameter "A" get_float_type;
                                               InputParameter "B" get_float_type];
                                    outputs := [OutputParameter "Result" get_float_type] |};
                 tuple_call_body := None; llvm_build_ir_body := None |}];
           statics := statics w |}).
Proof. reflexivity. Qed.

Lemma add_body_fresh (l : list Function) (f : Function) (body : Body)
    (st : LazyFunction -> option SharedFunction) :
  add_body (length l) body {| heap := l ++ [f]; statics := st |}
  = Ok (tt, {| heap := l ++ [Function_add_body body f]; statics := st |}).
Proof.
  unfold add_body. simpl.
  rewrite list_lookup_middle by reflexivity.
  rewrite insert_app_r_alt by lia.
  rewrite Nat.sub_diag. reflexivity.
Qed.

(** The first call of an accessor allocates one Function object, the one
    [builtin_function] shows, and records its address in the cell. *)
Lemma accessor_first_call (cell : LazyFunction) :
  exists f : Function,
    builtin_function cell = Ok f
    /\ forall w : World,
         statics w cell = None ->
         accessor cell w
         = Ok (length (heap w),
               {| heap := heap w ++ [f];
                  statics := fun c => if decide (c = cell) then Some (length (heap w))
                                      else statics w c |}).
Proof.
  destruct cell; eexists; (split; [vm_compute; reflexivity|]); intros w Hw;
    unfold accessor, add_floats, multiply_floats, min_floats, max_floats, map_range,
      LAZY_INIT_REF__NO_ARG; rewrite Hw; unfold bind at 1;
    rewrite ?get_simple_math_function_eq;
    unfold bind, lift, ret, SharedFunction_New; simpl;
    rewrite add_body_fresh; reflexivity.
Qed.

Lemma accessor_later_call (cell : LazyFunction) (w : World) (fn : SharedFunction) :
  statics w cell = Some fn -> accessor cell w = Ok (fn, w).
Proof.
  intros Hw. destruct cell;
    unfold accessor, add_floats, multiply_floats, min_floats, max_floats, map_range,
      LAZY_INIT_REF__NO_ARG; rewrite Hw; reflexivity.
Qed.

Lemma World_start_wf : World_wf World_start.
Proof. intros cell fn H. discriminate H. Qed.

(** One accessor call from a well-formed world. *)
Lemma accessor_step (cell : LazyFunction) (w : World) :
  World_wf w ->
  exists (fn : SharedFunction) (w' : World) (f : Function),
    accessor cell w = Ok (fn, w')
    /\ World_wf w'
    /\ statics w' cell = Some fn
    /\ heap w' !! fn = Some f
    /\ builtin_function cell = Ok f
    /\ heap w' = heap w ++ match statics w cell with Some _ => [] | None => [f] end
    /\ (forall c : LazyFunction, c <> cell -> statics w' c = statics w c)
    /\ (forall c : LazyFunction, is_Some (statics w c) -> statics w' c = statics w c).
Proof.
  intros Hwf. destruct (statics w cell) as [fn|] eqn:Hc.
  - destruct (Hwf cell fn Hc) as (f & Hf & Hb).
    exists fn, w, f. rewrite (accessor_later_call cell w fn Hc).
    rewrite app_nil_r. repeat split; auto.
  - destruct (accessor_first_call cell) as (f & Hb & Hacc).
    eexists _, _, f. rewrite (Hacc w Hc).
    split; [reflexivity|]. simpl.
    split.
    { intros c fn Hs. simpl in Hs. destruct (decide (c = cell)) as [->|Hne].
      - injection Hs as <-. exists f. split; [|assumption].
        simpl. apply list_lookup_middle. reflexivity.
      - destruct (Hwf c fn Hs) as (g & Hg & Hbg). exists g. split; [|assumption].
        simpl. apply lookup_app_l_Some. assumption. }
    split; [rewrite decide_True by reflexivity; reflexivity|].
    split; [apply list_lookup_middle; reflexivity|].
    split; [assumption|]. split; [reflexivity|].
    split.
    + intros c Hne. rewrite decide_False by assumption. reflexivity.
    + intros c Hs. destruct (decide (c = cell)) as [->|]; [|reflexivity].
      rewrite Hc in Hs. destruct Hs as [? Hs]. discriminate Hs.
Qed.

(** A sequence of accessor calls from a well-formed world: all succeed,
    initialised cells and allocated objects stay as they are, and exactly
    the cells called become initialised. *)
Lemma call_accessors_spec (cells : list LazyFunction) : forall w : World,
  World_wf w ->
  exists w' : World,
    call_accessors cells w = Ok w'
    /\ World_wf w'
    /\ (forall c : LazyFunction, is_Some (statics w c) -> statics w' c = statics w c)
    /\ (forall (i : nat) (f : Function), heap w !! i = Some f -> heap w' !! i = Some f)
    /\ (forall c : LazyFunction,
           is_Some (statics w' c) <-> is_Some (statics w c) \/ In c cells).
Proof.
  induction cells as [|cell cells IH]; intros w Hwf.
  - exists w. simpl. repeat split; auto. intros [H|[]]. exact H.
  - destruct (accessor_step cell w Hwf)
      as (fn & w1 & f & Hacc & Hwf1 & Hs1 & Hf1 & Hb & Hheap & Hother & Hkeep).
    destruct (IH w1 Hwf1) as (w2 & Hcall & Hwf2 & Hkeep2 & Hheap2 & Hinit2).
    exists w2. simpl. rewrite Hacc. split; [assumption|]. split; [assumption|].
    split; [|split].
    + intros c Hc. rewrite Hkeep2 by (rewrite Hkeep; assumption).
      apply Hkeep. assumption.
    + intros i g Hg. apply Hheap2. rewrite Hheap. apply lookup_app_l_Some. assumption.
    + intros c. rewrite Hinit2. split.
      * intros [Hc|Hc]; [|auto].
        destruct (decide (c = cell)) as [->|Hne]; [auto|].
        rewrite Hother in Hc by assumption. auto.
      * intros [Hc|[<-|Hc]]; [|left; rewrite Hs1; eauto|auto].
        left. rewrite Hkeep; assumption.
Qed.

(** C7. In a process that has called any accessors [before], the accessor
    of a built-in function constructs its Function object if and only if it
    has not been called before (nothing exists at process start), and returns
    a reference to it; calling it again at once, or after any further
    accessor calls [after], constructs nothing and returns the same
    reference to the same, unchanged Function object. *)
Theorem lazy_functions_built_once
    (before after : list LazyFunction) (cell : LazyFunction) :
  exists (w w1 w2 : World) (fn : SharedFunction) (f : Function),
    heap World_start = []
    /\ (forall c : LazyFunction, statics World_start c = None)
    /\ call_accessors before World_start = Ok w
    /\ (is_Some (statics w cell) <-> In cell before)
    /\ accessor cell w = Ok (fn, w1)
    /\ heap w1 = heap w ++ match statics w cell with Some _ => [] | None => [f] end
    /\ heap w1 !! fn = Some f
    /\ builtin_function cell = Ok f
    /\ accessor cell w1 = Ok (fn, w1)
    /\ call_accessors after w1 = Ok w2
    /\ accessor cell w2 = Ok (fn, w2)
    /\ heap w2 !! fn = Some f.
Proof.
  destruct (call_accessors_spec before World_start World_start_wf)
    as (w & Hbefore & Hwf & _ & _ & Hinit).
  destruct (accessor_step cell w Hwf)
    as (fn & w1 & f & Hacc & Hwf1 & Hs1 & Hf1 & Hb & Hheap & _ & _).
  destruct (call_accessors_spec after w1 Hwf1)
    as (w2 & Hafter & Hwf2 & Hkeep2 & Hheap2 & _).
  exists w, w1, w2, fn, f.
  split; [reflexivity|]. split; [reflexivity|]. split; [assumption|].
  split.
  { rewrite Hinit. split; [intros [[? H]|H]; [discriminate H|exact H]|auto]. }
  split; [assumption|]. split; [assumption|]. split; [assumption|].
  split; [assumption|].
  split; [apply accessor_later_call; assumption|].
  split; [assumption|].
  split; [|apply Hheap2; assumption].
  apply accessor_later_call. rewrite Hkeep2 by (rewrite Hs1; eauto). assumption.
Qed.

(** ** The stack evaluator *)

Lemma stack_valid_iff (offset : Z) :
  stack_valid offset = true <-> 0 <= offset < 4095.
Proof. unfold stack_valid, BVM_STACK_SIZE. lia. Qed.

Lemma eval_op_call_overflow (globals : EvalGlobals) (fn : Function)
    (in_offsets out_offsets : list Z) (stack : Stack) (o : Z) :
  In o (in_offsets ++ out_offsets) -> ~ 0 <= o < 4095 ->
  eval_op_call globals fn in_offsets out_offsets stack = Err StackOverflow.
Proof.
  intros Hin Ho. unfold eval_op_call.
  destruct (forallb stack_valid (in_offsets ++ out_offsets)) eqn:E; [|reflexivity].
  rewrite forallb_forall in E. specialize (E o Hin).
  apply stack_valid_iff in E. contradiction.
Qed.

(** Instructions that all run, none of them terminal, hand their stack to
    the instructions that follow. *)
Lemma eval_stream_app (globals : EvalGlobals) (pre rest : list Instruction) :
  forall stack stack' : Stack,
    existsb is_OP_END pre = false ->
    eval_stream globals (pre ++ [OP_END]) stack = Ok stack' ->
    eval_stream globals (pre ++ rest) stack = eval_stream globals rest stack'.
Proof.
  induction pre as [|i pre IH]; intros stack stack' Hno Hrun.
  - simpl in Hrun. injection Hrun as <-. reflexivity.
  - destruct i as [f ins outs|]; [|discriminate Hno].
    simpl in *. destruct (eval_op_call globals f ins outs stack) as [s1|e]; simpl in *.
    + apply IH; assumption.
    + discriminate Hrun.
Qed.

(** C6. The stack has exactly 4095 slots.  A load or a store at an offset
    outside [[0, 4095)] fails with [StackOverflow], while one that succeeds
    addresses exactly the slot at its offset; and in every instruction
    stream run by [eval_expression], as soon as an instruction is reached
    one of whose operand offsets lies outside [[0, 4095)], the evaluation
    stops with [StackOverflow]. *)
Theorem stack_access_fails_fast :
  BVM_STACK_SIZE = 4095
  /\ (forall (stack : Stack) (offset : Z) (x : float),
         ~ 0 <= offset < 4095 ->
         stack_load_float stack offset = Err StackOverflow
         /\ stack_store_float stack offset x = Err StackOverflow)
  /\ (forall (stack : Stack) (offset : Z) (x : float),
         stack_load_float stack offset = Ok x ->
         0 <= offset < 4095 /\ stack !! Z.to_nat offset = Some x)
  /\ (forall (stack stack' : Stack) (offset : Z) (x : float),
         stack_store_float stack offset x = Ok stack' ->
         0 <= offset < 4095
         /\ stack' = <[Z.to_nat offset := x]> stack
         /\ stack' !! Z.to_nat offset = Some x)
  /\ (forall (globals : EvalGlobals) (fn : bvm_Function) (entry_point : Z)
             (stack stack' : Stack) (pre rest : list Instruction)
             (f : Function) (in_offsets out_offsets : list Z) (o : Z),
         0 <= entry_point ->
         drop (Z.to_nat entry_point) (instructions fn)
         = pre ++ OP_CALL f in_offsets out_offsets :: rest ->
         existsb is_OP_END pre = false ->
         eval_stream globals (pre ++ [OP_END]) stack = Ok stack' ->
         In o (in_offsets ++ out_offsets) -> ~ 0 <= o < 4095 ->
         eval_expression globals fn entry_point stack = Err StackOverflow).
Proof.
  split; [reflexivity|]. split; [|split; [|split]].
  - intros stack offset x Ho. unfold stack_load_float, stack_store_float.
    destruct (stack_valid offset) eqn:E; [|split; reflexivity].
    apply stack_valid_iff in E. contradiction.
  - intros stack offset x H. unfold stack_load_float in H.
    destruct (stack_valid offset) eqn:E; [|discriminate H].
    apply stack_valid_iff in E. split; [assumption|].
    destruct (stack !! Z.to_nat offset); [|discriminate H].
    injection H as ->. reflexivity.
  - intros stack stack' offset x H. unfold stack_store_float in H.
    destruct (stack_valid offset) eqn:E; [|discriminate H].
    apply stack_valid_iff in E. split; [assumption|].
    destruct (decide (Z.to_nat offset < length stack)%nat) as [Hlt|]; [|discriminate H].
    injection H as <-. split; [reflexivity|].
    apply list_lookup_insert_eq. assumption.
  - intros globals fn entry_point stack stack' pre rest f ins outs o
           Hentry Hcode Hno Hrun Hin Ho.
    unfold eval_expression, eval_instructions.
    replace (0 <=? entry_point) with true by lia.
    rewrite Hcode, (eval_stream_app globals pre _ stack stack' Hno Hrun).
    simpl. rewrite (eval_op_call_overflow globals f ins outs stack' o Hin Ho).
    reflexivity.
Qed.

Lemma stack_access_fails_fast_witness :
  eval_expression {| objects := [] |}
    {| instructions :=
         [ OP_END;
           OP_CALL {| fn_name := "Multiply Floats";
                      fn_signature :=
                        {| inputs := [InputParameter "A" float_type;
                                      InputParameter "B" float_type];
                           outputs := [OutputParameter "Result" float_type] |};
                      tuple_call_body := Some MultiplyFloats;
                      llvm_build_ir_body := None |}
                   [0; 1] [2];
           OP_CALL {| fn_name := "Multiply Floats";
                      fn_signature :=
                        {| inputs := [InputParameter "A" float_type;
                                      InputParameter "B" float_type];
                           outputs := [OutputParameter "Result" float_type] |};
                      tuple_call_body := Some MultiplyFloats;
                      llvm_build_ir_body := None |}
                   [2; 4095] [3];
           OP_END ] |}
    1 [of_Z 2; of_Z 3; of_Z 0; of_Z 0]
  = Err StackOverflow.
Proof.
  eapply (proj2 (proj2 (proj2 (proj2 stack_access_fails_fast))))
    with (stack' := [of_Z 2; of_Z 3; of_Z 6; of_Z 0])
         (pre := [OP_CALL _ [0; 1] [2]]) (o := 4095).
  - lia.
  - reflexivity.
  - reflexivity.
  - vm_compute. reflexivity.
  - simpl. tauto.
  - lia.
Defined.

(** ** Map Range outside the source range *)

Lemma binary_round_aux_shape (s : bool) (m e : Z) (l : location) :
  0 <= m -> e <= fexp prec emax (Zdigits2 m + e) ->
  exists M : Z,
    binary_round_aux prec emax s m e l = finish s M (fexp prec emax (Zdigits2 m + e))
    /\ m / 2 ^ (fexp prec emax (Zdigits2 m + e) - e) <= M
       <= m / 2 ^ (fexp prec emax (Zdigits2 m + e) - e) + 1.
Proof.
  intros Hm He.
  destruct (quotient_canonical m e Hm He) as [Hq Hlow].
  set (ce := fexp prec emax (Zdigits2 m + e)) in *.
  assert (Hshr : exists mrs', shr_fexp prec emax m e l = (mrs', ce)
                              /\ shr_m mrs' = m / 2 ^ (ce - e)).
  { unfold shr_fexp, shr. fold ce.
    destruct (ce - e) as [|p|p] eqn:Hn; try lia.
    - eexists. split; [f_equal; lia|].
      rewrite shr_record_of_loc_m, Z.div_1_r. reflexivity.
    - eexists. split; [f_equal; lia|].
      rewrite iter_shr_1_m by (rewrite shr_record_of_loc_m; lia).
      rewrite shr_record_of_loc_m. reflexivity. }
  destruct Hshr as (mrs' & Hs & Hm').
  unfold binary_round_aux. rewrite Hs, Hm'.
  pose proof (round_nearest_even_bounds (m / 2 ^ (ce - e)) (loc_of_shr_record mrs')) as HM.
  rewrite finish_eq by lia.
  eexists. split; [reflexivity|]. exact HM.
Qed.

(** The quotient of two finite floats: the sign is the exclusive or of the
    signs, and the result is never a NaN. *)
Lemma fdiv_finite_shape (sa sb : bool) (ma mb : positive) (ea eb : Z) :
  exists (M E : Z),
    fdiv (S754_finite sa ma ea) (S754_finite sb mb eb) = finish (xorb sa sb) M E
    /\ 0 <= M <= 2 ^ prec /\ emin prec emax <= E
    /\ (emin prec emax < E -> 2 ^ (prec - 1) <= M)
    /\ (forall q e', fst (SFdiv_core_binary prec emax (Zpos ma) ea (Zpos mb) eb) = (q, e') ->
          E = fexp prec emax (Zdigits2 q + e')).
Proof.
  unfold fdiv, SFdiv.
  pose proof (SFdiv_core_canonical ma mb ea eb) as [Hq He].
  destruct (SFdiv_core_binary prec emax (Zpos ma) ea (Zpos mb) eb) as [[q e'] l].
  simpl in Hq, He.
  destruct (binary_round_aux_shape (xorb sa sb) q e' l Hq He) as (M & HM & Hb).
  destruct (quotient_canonical q e' Hq He) as [Hq1 Hq2].
  exists M, (fexp prec emax (Zdigits2 q + e')).
  split; [exact HM|]. split; [lia|]. split; [unfold fexp; lia|].
  split; [intros H; specialize (Hq2 H); lia|].
  intros q0 e0 H. simpl in H. injection H as <- <-. reflexivity.
Qed.

Lemma finish_signed (s : bool) (M E : Z) :
  0 <= M ->
  match finish s M E with
  | S754_zero s' | S754_infinity s' | S754_finite s' _ _ => s' = s
  | S754_nan => False
  end.
Proof.
  intros HM. unfold finish.
  set (n2 := Z.max 0 (fexp prec emax (Zdigits2 M + E) - E)).
  assert (0 <= M / 2 ^ n2) by (apply Z.div_pos; [lia|apply pow2_pos; lia]).
  destruct (M / 2 ^ n2) as [|q|q]; try lia; [reflexivity|].
  destruct (E + n2 <=? emax - prec); reflexivity.
Qed.

(** Dividing by a finite float of the opposite sign (or dividing a zero)
    gives a quotient that CLAMP sends to a zero. *)
Lemma CLAMP_fdiv_opposite (a : float) (sr : bool) (mr : positive) (er : Z) :
  match a with
  | S754_zero _ => True
  | S754_infinity sa | S754_finite sa _ _ => sa = negb sr
  | S754_nan => False
  end ->
  is_zero (CLAMP (fdiv a (S754_finite sr mr er)) (of_Z 0) (of_Z 1)) = true.
Proof.
  destruct a as [sa|sa| |sa ma ea]; intros Ha; try contradiction.
  - destruct sa, sr; reflexivity.
  - subst sa. destruct sr; reflexivity.
  - subst sa.
    destruct (fdiv_finite_shape (negb sr) sr ma mr ea er) as (M & E & -> & HM & _).
    pose proof (finish_signed (xorb (negb sr) sr) M E ltac:(lia)) as Hs.
    replace (xorb (negb sr) sr) with true in * by (destruct sr; reflexivity).
    destruct (finish true M E) as [s'|s'| |s' m' e']; try contradiction; subst s'; reflexivity.
Qed.

Lemma fle_antisym_feq (x y : float) : fle x y = true -> fle y x = true -> feq x y = true.
Proof.
  unfold fle, feq, SFleb, SFeqb. rewrite (SFcompare_antisym x y).
  destruct (SFcompare x y) as [[]|]; simpl; intros H1 H2; try discriminate; reflexivity.
Qed.

Lemma CLAMP_ge_one (t : float) :
  is_valid t = true -> fle (of_Z 1) t = true -> CLAMP t (of_Z 0) (of_Z 1) = of_Z 1.
Proof.
  intros Vt H1.
  assert (Nt : is_nan t = false) by (destruct t; try reflexivity; discriminate H1).
  unfold CLAMP.
  destruct (flt t (of_Z 0)) eqn:H0.
  { apply flt_true_fle in H0.
    apply (fle_units t (of_Z 0)) in H0; try assumption; try reflexivity.
    apply (fle_units (of_Z 1) t) in H1; try assumption; try reflexivity.
    change (units (of_Z 0)) with 0 in H0.
    assert (0 < units (of_Z 1)) by (vm_compute; reflexivity). lia. }
  destruct (flt (of_Z 1) t) eqn:H2; [reflexivity|].
  apply flt_false_fle in H2; try assumption; try reflexivity.
  apply feq_one_inv, fle_antisym_feq; assumption.
Qed.

Lemma fdiv_ge_one (s : bool) (ma mb : positive) (ea eb : Z) :
  is_valid (S754_finite s ma ea) = true -> is_valid (S754_finite s mb eb) = true ->
  Zpos mb * 2 ^ (eb - unit_exp) <= Zpos ma * 2 ^ (ea - unit_exp) ->
  fle (of_Z 1) (fdiv (S754_finite s ma ea) (S754_finite s mb eb)) = true.
Proof.
  intros Va Vb Hle.
  destruct (valid_finite_inv s ma ea Va) as ([Ha1 Ha2] & _).
  destruct (valid_finite_inv s mb eb Vb) as ([Hb1 Hb2] & _).
  destruct (fdiv_finite_shape s s ma mb ea eb) as (M & E & HE & HM & HEm & Hlow & Hce).
  pose proof (SFdiv_core_canonical ma mb ea eb) as [Hq He].
  (* the quotient is at least one *)
  assert (HD : exists q e', fst (SFdiv_core_binary prec emax (Zpos ma) ea (Zpos mb) eb) = (q, e')
                            /\ 1 <= Zdigits2 q + e').
  { revert Hq He. unfold SFdiv_core_binary. simpl Zdigits2.
    set (d1 := Zpos (digits2_pos ma)). set (d2 := Zpos (digits2_pos mb)).
    set (e' := Z.min (fexp prec emax (d1 + ea - (d2 + eb))) (ea - eb)).
    set (sh := ea - eb - e').
    assert (Hs : 0 <= sh) by (unfold sh, e'; lia).
    set (m' := match sh with Zpos _ => Z.shiftl (Zpos ma) sh | Z0 => Zpos ma | Zneg _ => 0 end).
    assert (Hm' : m' = Zpos ma * 2 ^ sh).
    { unfold m'. destruct sh as [|p|p] eqn:E0; try lia.
      rewrite Z.shiftl_mul_pow2 by lia. reflexivity. }
    pose proof (Z_div_mod m' (Zpos mb) ltac:(lia)) as Hdm.
    destruct (Z.div_eucl m' (Zpos mb)) as [q r] eqn:Hde. simpl fst. simpl snd.
    destruct Hdm as [Hdm Hr]. intros Hq He.
    exists q, e'. split; [reflexivity|].
    destruct (Z.le_gt_cases e' 0) as [Hneg|Hpos].
    - assert (Hge : 2 ^ (- e') <= q).
      { assert (Hprod : Zpos mb * 2 ^ (- e') <= m').
        { rewrite Hm'.
          apply (Z.mul_le_mono_pos_r _ _ (2 ^ (eb - unit_exp)));
            [apply pow2_pos; unfold unit_exp, emin, prec, emax in *; lia|].
          replace (Zpos ma * 2 ^ sh * 2 ^ (eb - unit_exp))
            with (Zpos ma * 2 ^ (ea - unit_exp) * 2 ^ (- e')).
          2:{ rewrite <- !Z.mul_assoc, <- !Z.pow_add_r
                by (unfold sh, unit_exp, emin, prec, emax in *; lia).
              f_equal. f_equal. unfold sh. lia. }
          replace (Zpos mb * 2 ^ (- e') * 2 ^ (eb - unit_exp))
            with (Zpos mb * 2 ^ (eb - unit_exp) * 2 ^ (- e')) by ring.
          apply Z.mul_le_mono_nonneg_r; [apply Z.pow_nonneg; lia|assumption]. }
        pose proof (pow2_pos (- e') ltac:(lia)).
        assert (2 ^ (- e') < q + 1); [|lia].
        apply (Z.mul_lt_mono_pos_l (Zpos mb)); [lia|]. nia. }
      pose proof (pow2_pos (- e') ltac:(lia)).
      pose proof (Zdigits2_bounds q ltac:(lia)) as [_ U].
      assert (Hlt : 2 ^ (- e') < 2 ^ Zdigits2 q) by lia.
      apply Z.pow_lt_mono_r_iff in Hlt; [lia|lia|apply Zdigits2_nonneg].
    - unfold fexp, emin, prec, emax in He. lia. }
  destruct HD as (q & e' & Hfst & HD).
  specialize (Hce q e' Hfst).
  assert (HE1 : E = Zdigits2 q + e' - prec) by (unfold fexp, emin, prec, emax in *; lia).
  specialize (Hlow ltac:(unfold emin, prec, emax in *; lia)).
  destruct (finish_props (xorb s s) M E HM HEm ltac:(intros _; exact Hlow)) as (Vf & Nf & Uf).
  rewrite HE.
  apply fle_units; try assumption; try reflexivity.
  rewrite Uf. replace (xorb s s) with false by (destruct s; reflexivity).
  unfold cond_Zopp.
  assert (H1 : units (of_Z 1) = 2 ^ (- unit_exp)) by (vm_compute; reflexivity).
  rewrite H1. apply Z.min_glb.
  - assert (2 ^ (prec - 1) * 2 ^ (E - unit_exp) <= M * 2 ^ (E - unit_exp)).
    { apply Z.mul_le_mono_nonneg_r; [apply Z.pow_nonneg; lia|assumption]. }
    rewrite <- Z.pow_add_r in H by (unfold unit_exp, emin, prec, emax in *; lia).
    pose proof (pow2_le (- unit_exp) (prec - 1 + (E - unit_exp))
                  ltac:(unfold unit_exp, emin, prec, emax in *; lia)). lia.
  - apply pow2_le. unfold unit_exp, emax. lia.
Qed.

Lemma units_sign (x : float) :
  is_valid x = true -> is_nan x = false ->
  (units x <= 0 ->
   match x with
   | S754_zero _ => True
   | S754_infinity s | S754_finite s _ _ => s = true
   | S754_nan => False
   end)
  /\ (0 <= units x ->
      match x with
      | S754_zero _ => True
      | S754_infinity s | S754_finite s _ _ => s = false
      | S754_nan => False
      end).
Proof.
  intros Vx Nx. destruct x as [s|s| |s m e]; try discriminate Nx.
  - split; trivial.
  - pose proof (pow2_pos (emax - unit_exp) ltac:(unfold emax, unit_exp; lia)).
    destruct s; simpl; split; intros; try reflexivity; lia.
  - pose proof (units_finite_bounds s m e Vx).
    destruct s; simpl; split; intros; try reflexivity; lia.
Qed.

Lemma round_units_sign (N : Z) :
  (N <= 0 -> round_units N <= 0) /\ (0 <= N -> 0 <= round_units N).
Proof.
  split; intros H.
  - pose proof (round_units_mono N 0 H) as H1. exact H1.
  - pose proof (round_units_mono 0 N H) as H1. exact H1.
Qed.

Lemma flt_feq_false (x y : float) : flt x y = true -> feq y x = false /\ feq x y = false.
Proof.
  unfold flt, feq, SFltb, SFeqb. rewrite (SFcompare_antisym x y).
  destruct (SFcompare x y) as [[]|]; simpl; intros H; try discriminate H; split; reflexivity.
Qed.

(** The source range [from_max - from_min] of a non-degenerate finite
    range: a nonzero finite float with the sign of the difference. *)
Lemma from_range_shape (from_min from_max : float) :
  is_valid from_min = true -> is_valid from_max = true ->
  is_finite from_min = true -> is_finite from_max = true ->
  is_finite (fsub from_max from_min) = true ->
  feq from_max from_min = false ->
  exists (sr : bool) (mr : positive) (er : Z),
    fsub from_max from_min = S754_finite sr mr er
    /\ is_valid (S754_finite sr mr er) = true
    /\ units (S754_finite sr mr er) = round_units (units from_max - units from_min)
    /\ feq (fsub from_max from_min) (of_Z 0) = false.
Proof.
  intros Vmin Vmax Fmin Fmax Fr Hne.
  pose proof (fsub_nonzero from_max from_min Vmax Vmin Hne) as Hnz.
  destruct (fsub_units from_max from_min Vmax Vmin Fmax Fmin) as (Vr & Nr & Ur).
  destruct (fsub from_max from_min) as [s|s| |sr mr er] eqn:E; try discriminate Fr.
  - destruct s; discriminate Hnz.
  - exists sr, mr, er. auto.
Qed.

(** On the [from_min] side of a finite source range, and beyond it, the
    interpolation factor is a zero. *)
Lemma MapRange_t_low (value from_min from_max : float) :
  is_valid value = true -> is_valid from_min = true -> is_valid from_max = true ->
  is_finite value = true -> is_finite from_min = true -> is_finite from_max = true ->
  is_finite (fsub from_max from_min) = true ->
  (flt from_min from_max = true /\ fle value from_min = true)
  \/ (flt from_max from_min = true /\ fle from_min value = true) ->
  feq (fsub from_max from_min) (of_Z 0) = false
  /\ is_zero (MapRange_t fdiv value from_min from_max) = true.
Proof.
  intros Vv Vmin Vmax Fv Fmin Fmax Fr Hside.
  pose proof (is_finite_not_nan _ Fv) as Nv.
  pose proof (is_finite_not_nan _ Fmin) as Nmin.
  pose proof (is_finite_not_nan _ Fmax) as Nmax.
  assert (Hne : feq from_max from_min = false).
  { destruct Hside as [[H _]|[H _]]; apply flt_feq_false in H; tauto. }
  destruct (from_range_shape from_min from_max Vmin Vmax Fmin Fmax Fr Hne)
    as (sr & mr & er & Er & Vr & Ur & Hnz).
  split; [exact Hnz|].
  destruct (fsub_units value from_min Vv Vmin Fv Fmin) as (Va & Na & Ua).
  unfold MapRange_t. rewrite Er.
  apply CLAMP_fdiv_opposite.
  destruct (units_sign _ Va Na) as [Hneg Hpos].
  destruct (units_sign _ Vr eq_refl) as [Hrneg Hrpos].
  destruct Hside as [[Hlt Hle]|[Hlt Hle]].
  - apply flt_true_fle in Hlt.
    apply (fle_units _ _ Vmin Vmax Nmin Nmax) in Hlt.
    apply (fle_units _ _ Vv Vmin Nv Nmin) in Hle.
    assert (H0 : 0 <= units (S754_finite sr mr er))
      by (rewrite Ur; apply round_units_sign; lia).
    specialize (Hrpos H0). simpl in Hrpos. subst sr.
    assert (Ha0 : units (fsub value from_min) <= 0)
      by (rewrite Ua; apply round_units_sign; lia).
    specialize (Hneg Ha0).
    destruct (fsub value from_min); auto.
  - apply flt_true_fle in Hlt.
    apply (fle_units _ _ Vmax Vmin Nmax Nmin) in Hlt.
    apply (fle_units _ _ Vmin Vv Nmin Nv) in Hle.
    assert (H0 : units (S754_finite sr mr er) <= 0)
      by (rewrite Ur; apply round_units_sign; lia).
    specialize (Hrneg H0). simpl in Hrneg. subst sr.
    assert (Ha0 : 0 <= units (fsub value from_min))
      by (rewrite Ua; apply round_units_sign; lia).
    specialize (Hpos Ha0).
    destruct (fsub value from_min); auto.
Qed.

(** On the [from_max] side of a finite source range, and beyond it, the
    interpolation factor is one. *)
Lemma MapRange_t_high (value from_min from_max : float) :
  is_valid value = true -> is_valid from_min = true -> is_valid from_max = true ->
  is_finite value = true -> is_finite from_min = true -> is_finite from_max = true ->
  is_finite (fsub from_max from_min) = true ->
  (flt from_min from_max = true /\ fle from_max value = true)
  \/ (flt from_max from_min = true /\ fle value from_max = true) ->
  feq (fsub from_max from_min) (of_Z 0) = false
  /\ MapRange_t fdiv value from_min from_max = of_Z 1.
Proof.
  intros Vv Vmin Vmax Fv Fmin Fmax Fr Hside.
  pose proof (is_finite_not_nan _ Fv) as Nv.
  pose proof (is_finite_not_nan _ Fmin) as Nmin.
  pose proof (is_finite_not_nan _ Fmax) as Nmax.
  assert (Hne : feq from_max from_min = false).
  { destruct Hside as [[H _]|[H _]]; apply flt_feq_false in H; tauto. }
  destruct (from_range_shape from_min from_max Vmin Vmax Fmin Fmax Fr Hne)
    as (sr & mr & er & Er & Vr & Ur & Hnz).
  split; [exact Hnz|].
  destruct (fsub_units value from_min Vv Vmin Fv Fmin) as (Va & Na & Ua).
  unfold MapRange_t. rewrite Er.
  apply CLAMP_ge_one; [apply fdiv_valid|].
  destruct (units_sign _ Va Na) as [Hneg Hpos].
  destruct (units_sign _ Vr eq_refl) as [Hrneg Hrpos].
  pose proof (units_finite_bounds sr mr er Vr) as Hrb.
  destruct Hside as [[Hlt Hle]|[Hlt Hle]].
  - apply flt_true_fle in Hlt.
    apply (fle_units _ _ Vmin Vmax Nmin Nmax) in Hlt.
    apply (fle_units _ _ Vmax Vv Nmax Nv) in Hle.
    assert (H0 : 0 <= units (S754_finite sr mr er))
      by (rewrite Ur; apply round_units_sign; lia).
    specialize (Hrpos H0). simpl in Hrpos. subst sr.
    assert (Har : units (S754_finite false mr er) <= units (fsub value from_min))
      by (rewrite Ur, Ua; apply round_units_mono; lia).
    specialize (Hpos ltac:(lia)).
    destruct (fsub value from_min) as [sa|sa| |sa ma ea]; try contradiction.
    + simpl in Har. simpl in H0. lia.
    + subst sa. reflexivity.
    + subst sa. apply fdiv_ge_one; try assumption; simpl in Har; lia.
  - apply flt_true_fle in Hlt.
    apply (fle_units _ _ Vmax Vmin Nmax Nmin) in Hlt.
    apply (fle_units _ _ Vv Vmax Nv Nmax) in Hle.
    assert (H0 : units (S754_finite sr mr er) <= 0)
      by (rewrite Ur; apply round_units_sign; lia).
    specialize (Hrneg H0). simpl in Hrneg. subst sr.
    assert (Har : units (fsub value from_min) <= units (S754_finite true mr er))
      by (rewrite Ur, Ua; apply round_units_mono; lia).
    specialize (Hneg ltac:(lia)).
    destruct (fsub value from_min) as [sa|sa| |sa ma ea]; try contradiction.
    + simpl in Har. simpl in H0. lia.
    + subst sa. reflexivity.
    + subst sa. apply fdiv_ge_one; try assumption; simpl in Har; lia.
Qed.

Lemma fdiv_not_nan (a : float) (sr : bool) (mr : positive) (er : Z) :
  is_nan a = false -> is_nan (fdiv a (S754_finite sr mr er)) = false.
Proof.
  destruct a as [sa|sa| |sa ma ea]; intros Ha; try discriminate Ha; try reflexivity.
  destruct (fdiv_finite_shape sa sr ma mr ea er) as (M & E & -> & HM & _).
  pose proof (finish_signed (xorb sa sr) M E ltac:(lia)) as Hs.
  destruct (finish (xorb sa sr) M E); try contradiction; reflexivity.
Qed.

Lemma CLAMP_not_nan (x : float) :
  is_nan x = false -> is_nan (CLAMP x (of_Z 0) (of_Z 1)) = false.
Proof.
  intros H. unfold CLAMP.
  destruct (flt x (of_Z 0)); [reflexivity|]. destruct (flt (of_Z 1) x); [reflexivity|exact H].
Qed.

Lemma fle_total (x y : float) :
  is_nan x = false -> is_nan y = false -> fle x y = true \/ fle y x = true.
Proof.
  intros Hx Hy. destruct (flt x y) eqn:E.
  - left. apply flt_true_fle. exact E.
  - right. apply flt_false_fle; assumption.
Qed.

Lemma fle_not_nan (x y : float) : fle x y = true -> is_nan x = false /\ is_nan y = false.
Proof.
  destruct x, y; intros H; try discriminate H; split; reflexivity.
Qed.

(** X1. On the [from_min] side of the source range the interpreted body of
    Map Range is pinned to [to_min]: for finite inputs whose source range
    does not overflow, a [value] at or below [from_min] (at or above it when
    the source range is reversed, [from_max < from_min]) makes the body
    write a float equal to [to_min], whatever [to_max] is, as long as
    [to_max - to_min] is finite. *)
Theorem MapRange_pinned_at_from_min
    (value from_min from_max to_min to_max o : float)
    (rest : Tuple) (c : ExecutionContext) (log : list nat) :
  is_valid value = true -> is_valid from_min = true -> is_valid from_max = true ->
  is_finite value = true -> is_finite from_min = true -> is_finite from_max = true ->
  is_finite (fsub from_max from_min) = true ->
  (flt from_min from_max = true /\ fle value from_min = true)
  \/ (flt from_max from_min = true /\ fle from_min value = true) ->
  is_finite (fsub to_max to_min) = true -> is_nan to_min = false ->
  exists v : float,
    call MapRange
         [VFloat value; VFloat from_min; VFloat from_max; VFloat to_min; VFloat to_max]
         {| fn_out := VFloat o :: rest; ctx := c; written := log |}
    = Ok (tt, {| fn_out := VFloat v :: rest; ctx := c; written := 0%nat :: log |})
    /\ feq v to_min = true.
Proof.
  intros Vv Vmin Vmax Fv Fmin Fmax Fr Hside Ft Nt.
  destruct (MapRange_t_low value from_min from_max Vv Vmin Vmax Fv Fmin Fmax Fr Hside)
    as [Hnz Hz].
  eexists. split; [apply MapRange_call_eq|].
  unfold MapRange_compute. rewrite Hnz.
  apply MapRange_lower_end; assumption.
Qed.

Lemma MapRange_pinned_at_from_min_witness :
  exists v : float,
    call MapRange
         [VFloat (of_Z (-5)); VFloat (of_Z 0); VFloat (of_Z 10); VFloat (of_Z 3);
          VFloat (of_Z 4)]
         {| fn_out := [VFloat (of_Z 0)]; ctx := ExecutionContext_new; written := [] |}
    = Ok (tt, {| fn_out := [VFloat v]; ctx := ExecutionContext_new; written := [0%nat] |})
    /\ feq v (of_Z 3) = true.
Proof.
  apply (MapRange_pinned_at_from_min (of_Z (-5)) (of_Z 0) (of_Z 10) (of_Z 3) (of_Z 4)
           (of_Z 0) [] ExecutionContext_new []); try reflexivity.
  left. split; reflexivity.
Defined.

(** X2. On the [from_max] side of the source range the interpreted body of
    Map Range is pinned to the upper endpoint it computes: for finite inputs
    whose source range does not overflow, a [value] at or above [from_max]
    (at or below it when the source range is reversed) makes the body write
    exactly [(to_max - to_min) + to_min], each operation rounded to
    binary32. *)
Theorem MapRange_pinned_at_from_max
    (value from_min from_max to_min to_max o : float)
    (rest : Tuple) (c : ExecutionContext) (log : list nat) :
  is_valid value = true -> is_valid from_min = true -> is_valid from_max = true ->
  is_finite value = true -> is_finite from_min = true -> is_finite from_max = true ->
  is_finite (fsub from_max from_min) = true ->
  (flt from_min from_max = true /\ fle from_max value = true)
  \/ (flt from_max from_min = true /\ fle value from_max = true) ->
  is_valid to_min = true -> is_valid to_max = true ->
  call MapRange
       [VFloat value; VFloat from_min; VFloat from_max; VFloat to_min; VFloat to_max]
       {| fn_out := VFloat o :: rest; ctx := c; written := log |}
  = Ok (tt, {| fn_out := VFloat (fadd (fsub to_max to_min) to_min) :: rest;
               ctx := c; written := 0%nat :: log |}).
Proof.
  intros Vv Vmin Vmax Fv Fmin Fmax Fr Hside Vtmin Vtmax.
  destruct (MapRange_t_high value from_min from_max Vv Vmin Vmax Fv Fmin Fmax Fr Hside)
    as [Hnz H1].
  rewrite MapRange_call_eq. unfold MapRange_compute. rewrite Hnz.
  fold (MapRange_t fdiv value from_min from_max).
  rewrite H1, fmul_one_l by (apply fsub_valid; assumption). reflexivity.
Qed.

Lemma MapRange_pinned_at_from_max_witness :
  call MapRange
       [VFloat (of_Z 15); VFloat (of_Z 0); VFloat (of_Z 10); VFloat (of_Z 3);
        VFloat (of_Z 4)]
       {| fn_out := [VFloat (of_Z 0)]; ctx := ExecutionContext_new; written := [] |}
  = Ok (tt, {| fn_out := [VFloat (fadd (fsub (of_Z 4) (of_Z 3)) (of_Z 3))];
               ctx := ExecutionContext_new; written := [0%nat] |}).
Proof.
  apply (MapRange_pinned_at_from_max (of_Z 15) (of_Z 0) (of_Z 10) (of_Z 3) (of_Z 4)
           (of_Z 0) [] ExecutionContext_new []); try reflexivity.
  left. split; reflexivity.
Defined.

(** X3. On finite inputs none of whose two ranges overflows, and with
    [from_min <> from_max], the Map Range function never produces a NaN:
    the interpolation factor lies in [[0, 1]] and the result lies between
    [to_min] and [(to_max - to_min) + to_min], in the order of [to_min] and
    [to_max]. *)
Theorem MapRange_defined_on_finite_inputs
    (value from_min from_max to_min to_max : float) (c : ExecutionContext) :
  is_valid value = true -> is_valid from_min = true -> is_valid from_max = true ->
  is_finite value = true -> is_finite from_min = true -> is_finite from_max = true ->
  is_finite (fsub from_max from_min) = true ->
  feq from_max from_min = false ->
  is_valid to_min = true -> is_valid to_max = true ->
  is_finite to_min = true -> is_finite to_max = true ->
  is_finite (fsub to_max to_min) = true ->
  exists r : float,
    interpret lazy_map_range [value; from_min; from_max; to_min; to_max] c = Ok [r]
    /\ is_nan r = false
    /\ fle (of_Z 0) (MapRange_t fdiv value from_min from_max) = true
    /\ fle (MapRange_t fdiv value from_min from_max) (of_Z 1) = true
    /\ (if fle to_min to_max
        then fle to_min r = true /\ fle r (fadd (fsub to_max to_min) to_min) = true
        else fle (fadd (fsub to_max to_min) to_min) r = true /\ fle r to_min = true).
Proof.
  intros Vv Vmin Vmax Fv Fmin Fmax Fr Hne Vtmin Vtmax Ftmin Ftmax Ftr.
  exists (MapRange_compute fdiv value from_min from_max to_min to_max).
  split; [reflexivity|].
  destruct (from_range_shape from_min from_max Vmin Vmax Fmin Fmax Fr Hne)
    as (sr & mr & er & Er & _).
  destruct (fsub_units value from_min Vv Vmin Fv Fmin) as (_ & Na & _).
  assert (Nt : is_nan (MapRange_t fdiv value from_min from_max) = false).
  { unfold MapRange_t. rewrite Er. apply CLAMP_not_nan, fdiv_not_nan. exact Na. }
  destruct (CLAMP_unit (fdiv (fsub value from_min) (fsub from_max from_min)))
    as [Hnan|[H0 H1]];
    fold (MapRange_t fdiv value from_min from_max) in *; [congruence|].
  destruct (MapRange_bracket value from_min from_max to_min to_max
              Vtmin Vtmax Ftmin Ftmax Ftr Nt) as [Hup Hdown].
  destruct (fle to_min to_max) eqn:Hle.
  - destruct (Hup eq_refl) as [Ha Hb].
    split; [apply (fle_not_nan _ _ Ha)|]. auto.
  - destruct (fle_total to_min to_max (is_finite_not_nan _ Ftmin) (is_finite_not_nan _ Ftmax))
      as [H|H]; [congruence|].
    destruct (Hdown H) as [Ha Hb].
    split; [apply (fle_not_nan _ _ Hb)|]. auto.
Qed.

Lemma MapRange_defined_on_finite_inputs_witness :
  exists r : float,
    interpret lazy_map_range [of_Z 7; of_Z 0; of_Z 10; of_Z 4; of_Z 3] ExecutionContext_new
    = Ok [r]
    /\ is_nan r = false
    /\ fle (of_Z 0) (MapRange_t fdiv (of_Z 7) (of_Z 0) (of_Z 10)) = true
    /\ fle (MapRange_t fdiv (of_Z 7) (of_Z 0) (of_Z 10)) (of_Z 1) = true
    /\ (if fle (of_Z 4) (of_Z 3)
        then fle (of_Z 4) r = true /\ fle r (fadd (fsub (of_Z 3) (of_Z 4)) (of_Z 4)) = true
        else fle (fadd (fsub (of_Z 3) (of_Z 4)) (of_Z 4)) r = true
             /\ fle r (of_Z 4) = true).
Proof.
  apply (MapRange_defined_on_finite_inputs (of_Z 7) (of_Z 0) (of_Z 10) (of_Z 4) (of_Z 3)
           ExecutionContext_new); reflexivity.
Defined.

(** ** Operand order of the arithmetic bodies *)



(** X5. Minimum and Maximum always return the two inputs between them: one
    returns [a] and the other [b].  When an input is a NaN, Minimum returns
    the second input and Maximum the first, whichever of them is the NaN:
    a NaN in the first slot is dropped by Minimum and kept by Maximum.
    Without a NaN the value of Minimum is at most that of Maximum. *)
Theorem MinFloats_MaxFloats_operands (a b : float) (c : ExecutionContext) :
  exists mn mx : float,
    interpret lazy_min_floats [a; b] c = Ok [mn]
    /\ interpret lazy_max_floats [a; b] c = Ok [mx]
    /\ ((mn = a /\ mx = b) \/ (mn = b /\ mx = a))
    /\ (if is_nan a || is_nan b then mn = b /\ mx = a else fle mn mx = true).
Proof.
  exists (if flt a b then a else b), (if flt a b then b else a).
  split; [reflexivity|]. split; [reflexivity|].
  destruct (flt a b) eqn:H.
  - split; [auto|].
    destruct (is_nan a) eqn:Ha; [destruct a; discriminate|].
    destruct (is_nan b) eqn:Hb; [destruct a, b; discriminate|].
    simpl. apply flt_true_fle. exact H.
  - split; [auto|].
    destruct (is_nan a) eqn:Ha; simpl; [auto|].
    destruct (is_nan b) eqn:Hb; [auto|].
    apply flt_false_fle; assumption.
Qed.

(** ** Signatures and bodies of the built-in functions *)

(** X6. The signature of every built-in function agrees with the slots its
    body uses: all parameters are floats and there is exactly one output.
    A codegen body, handed one value per input of the signature, reads only
    values it is given and appends one output per output of the signature.
    Under the strategy the function has a body for, the evaluation succeeds
    with exactly one result on every argument list that has one value per
    input of the signature. *)
Theorem builtin_signature_matches_body (cell : LazyFunction) (args : list float)
    (c : ExecutionContext) :
  exists f : Function,
    builtin_function cell = Ok f
    /\ Forall (fun p => param_type p = float_type)
              (inputs (fn_signature f) ++ outputs (fn_signature f))
    /\ length (outputs (fn_signature f)) = 1%nat
    /\ (forall body : LLVMBuildIRBody,
           llvm_build_ir_body f = Some body ->
           exists s : BuildState,
             build_ir body (map IRArg (seq 0 (length (inputs (fn_signature f)))))
                      {| builder := []; r_outputs := [] |} = Some s
             /\ length (r_outputs s) = length (outputs (fn_signature f)))
    /\ (length args = length (inputs (fn_signature f)) ->
        exists v : float, evaluate (attached_strategy cell) f args c = Ok [v]).
Proof.
  destruct cell; eexists; (split; [vm_compute; reflexivity|]);
    (split; [repeat constructor|]); (split; [reflexivity|]);
    (split;
     [intros body Hb; simpl in Hb;
      first [discriminate Hb | injection Hb as <-; eexists; split; reflexivity]|]);
    simpl; intros H;
    do 6 (try (destruct args as [|? args]; simpl in H; try discriminate H));
    eexists; reflexivity.
Qed.

Lemma builtin_signature_matches_body_witness :
  exists f : Function,
    builtin_function lazy_map_range = Ok f
    /\ exists v : float,
         evaluate Interpreted f [of_Z 5; of_Z 0; of_Z 10; of_Z 0; of_Z 1]
                  ExecutionContext_new = Ok [v].
Proof.
  destruct (builtin_signature_matches_body lazy_map_range
              [of_Z 5; of_Z 0; of_Z 10; of_Z 0; of_Z 1] ExecutionContext_new)
    as (f & Hf & _ & _ & _ & Hrun).
  exists f. split; [exact Hf|].
  apply Hrun. vm_compute in Hf. injection Hf as <-. reflexivity.
Defined.

(** ** Emitted code *)

Lemma ir_run_app (args : list float) (code1 code2 : list IRInstruction) :
  forall regs : list float,
    ir_run args regs (code1 ++ code2)
    = rbind (ir_run args regs code1) (fun regs' => ir_run args regs' code2).
Proof.
  induction code1 as [|[a b] code1 IH]; intros regs; [reflexivity|].
  simpl. destruct (ir_value args regs a), (ir_value args regs b); try reflexivity.
  apply IH.
Qed.

Lemma ir_value_mono (args regs extra : list float) (v : LLVMValue) (x : float) :
  ir_value args regs v = Ok x -> ir_value args (regs ++ extra) v = Ok x.
Proof.
  destruct v as [i|n]; simpl; [auto|].
  destruct (regs !! n) as [y|] eqn:E; [|discriminate].
  intros H. rewrite (lookup_app_l_Some _ _ _ _ E). exact H.
Qed.

Lemma ir_values_mono (args regs extra : list float) (vs : LLVMValues) :
  forall xs : list float,
    ir_values args regs vs = Ok xs -> ir_values args (regs ++ extra) vs = Ok xs.
Proof.
  induction vs as [|v vs IH]; intros xs H; [exact H|].
  simpl in *.
  destruct (ir_value args regs v) as [x|e] eqn:Ev; [|discriminate H].
  rewrite (ir_value_mono _ _ extra _ _ Ev).
  destruct (ir_values args regs vs) as [ys|e]; [|discriminate H].
  rewrite (IH ys eq_refl). exact H.
Qed.

Lemma ir_values_app (args regs : list float) (vs1 vs2 : LLVMValues) (xs1 xs2 : list float) :
  ir_values args regs vs1 = Ok xs1 -> ir_values args regs vs2 = Ok xs2 ->
  ir_values args regs (vs1 ++ vs2) = Ok (xs1 ++ xs2).
Proof.
  revert xs1. induction vs1 as [|v vs1 IH]; intros xs1 H1 H2.
  - injection H1 as <-. exact H2.
  - simpl in *. destruct (ir_value args regs v) as [x|e]; [|discriminate H1].
    destruct (ir_values args regs vs1) as [ys|e]; [|discriminate H1].
    injection H1 as <-. rewrite (IH ys eq_refl H2). reflexivity.
Qed.

Lemma ir_run_length (args : list float) (code : list IRInstruction) :
  forall regs regs' : list float,
    ir_run args regs code = Ok regs' -> length regs' = (length regs + length code)%nat.
Proof.
  induction code as [|[a b] code IH]; intros regs regs' H; simpl in *.
  - injection H as <-. lia.
  - destruct (ir_value args regs a), (ir_value args regs b); try discriminate H.
    rewrite (IH _ _ H), length_app. simpl. lia.
Qed.

(** X7. [GenAddFloats::build_ir] composes: given at least two input values,
    in any builder state it appends one [fadd] of [inputs[0]] and
    [inputs[1]] after the code already emitted and one output after the
    outputs already produced, and changes nothing else.  Running the
    extended code computes what the code computed before, leaves the values
    of the earlier outputs as they were, and yields as the new output the
    sum of the values of the two inputs. *)
Theorem GenAddFloats_build_ir_composes (inputs : LLVMValues) (s : BuildState)
    (a b : LLVMValue) :
  inputs !! 0%nat = Some a -> inputs !! 1%nat = Some b ->
  build_ir GenAddFloats inputs s
  = Some {| builder := builder s ++ [IR_FAdd a b];
            r_outputs := r_outputs s ++ [IRReg (length (builder s))] |}
  /\ forall (args regs outs : list float) (x y : float),
       ir_run args [] (builder s) = Ok regs ->
       ir_values args regs (r_outputs s) = Ok outs ->
       ir_value args regs a = Ok x -> ir_value args regs b = Ok y ->
       ir_run args [] (builder s ++ [IR_FAdd a b]) = Ok (regs ++ [fadd x y])
       /\ ir_values args (regs ++ [fadd x y])
            (r_outputs s ++ [IRReg (length (builder s))])
          = Ok (outs ++ [fadd x y]).
Proof.
  intros Ha Hb. split.
  - unfold build_ir, GenAddFloats_build_ir, input_at. rewrite Ha, Hb. reflexivity.
  - intros args regs outs x y Hrun Houts Hx Hy. split.
    + rewrite ir_run_app, Hrun. simpl. rewrite Hx, Hy. reflexivity.
    + apply ir_values_app; [apply ir_values_mono; assumption|].
      simpl. pose proof (ir_run_length _ _ _ _ Hrun) as Hlen. simpl in Hlen.
      rewrite <- Hlen, list_lookup_middle by reflexivity. reflexivity.
Qed.

Lemma GenAddFloats_build_ir_composes_witness :
  build_ir GenAddFloats [IRReg 0; IRArg 2]
    {| builder := [IR_FAdd (IRArg 0) (IRArg 1)]; r_outputs := [IRReg 0] |}
  = Some {| builder := [IR_FAdd (IRArg 0) (IRArg 1)] ++ [IR_FAdd (IRReg 0) (IRArg 2)];
            r_outputs := [IRReg 0] ++ [IRReg 1] |}
  /\ ir_run [of_Z 1; of_Z 2; of_Z 3] []
       ([IR_FAdd (IRArg 0) (IRArg 1)] ++ [IR_FAdd (IRReg 0) (IRArg 2)])
     = Ok ([of_Z 3] ++ [fadd (of_Z 3) (of_Z 3)]).
Proof.
  destruct (GenAddFloats_build_ir_composes [IRReg 0; IRArg 2]
              {| builder := [IR_FAdd (IRArg 0) (IRArg 1)]; r_outputs := [IRReg 0] |}
              (IRReg 0) (IRArg 2) eq_refl eq_refl) as [Hb Hrun].
  split; [exact Hb|].
  apply (Hrun [of_Z 1; of_Z 2; of_Z 3] [of_Z 3] [of_Z 3] (of_Z 3) (of_Z 3));
    vm_compute; reflexivity.
Defined.

(** ** Distinct built-in functions *)

Lemma builtin_function_name_inj (c1 c2 : LazyFunction) (f1 f2 : Function) :
  builtin_function c1 = Ok f1 -> builtin_function c2 = Ok f2 ->
  fn_name f1 = fn_name f2 -> c1 = c2.
Proof.
  intros H1 H2 E.
  destruct c1, c2; try reflexivity; vm_compute in H1, H2;
    injection H1 as <-; injection H2 as <-; discriminate E.
Qed.

(** X8. The built-in functions are distinct objects: after any accessor
    calls, two accessors return the same reference exactly when they are
    the same accessor, and the Function objects they refer to carry the same
    name exactly then. *)
Theorem builtin_functions_are_distinct (before : list LazyFunction)
    (c1 c2 : LazyFunction) :
  exists (w w1 w2 : World) (fn1 fn2 : SharedFunction) (f1 f2 : Function),
    call_accessors before World_start = Ok w
    /\ accessor c1 w = Ok (fn1, w1)
    /\ accessor c2 w1 = Ok (fn2, w2)
    /\ heap w2 !! fn1 = Some f1
    /\ heap w2 !! fn2 = Some f2
    /\ (fn1 = fn2 <-> c1 = c2)
    /\ (fn_name f1 = fn_name f2 <-> c1 = c2).
Proof.
  destruct (call_accessors_spec before World_start World_start_wf)
    as (w & Hbefore & Hwf & _).
  destruct (accessor_step c1 w Hwf)
    as (fn1 & w1 & f1 & Hacc1 & Hwf1 & Hs1 & Hf1 & Hb1 & _).
  destruct (accessor_step c2 w1 Hwf1)
    as (fn2 & w2 & f2 & Hacc2 & Hwf2 & Hs2 & Hf2 & Hb2 & Hheap & _ & Hkeep).
  assert (Hf1' : heap w2 !! fn1 = Some f1)
    by (rewrite Hheap; apply lookup_app_l_Some; assumption).
  exists w, w1, w2, fn1, fn2, f1, f2.
  repeat (split; [assumption|]).
  assert (Hsame : c1 = c2 -> fn1 = fn2 /\ f1 = f2).
  { intros <-. rewrite (accessor_later_call c1 w1 fn1 Hs1) in Hacc2.
    injection Hacc2 as <- <-. split; [reflexivity|]. congruence. }
  split; split.
  - intros <-. apply (builtin_function_name_inj c1 c2 f1 f2 Hb1 Hb2). congruence.
  - intros E. apply Hsame, E.
  - apply builtin_function_name_inj; assumption.
  - intros E. destruct (Hsame E) as [_ ->]. reflexivity.
Qed.

(** ** Map Range is monotone in the value

    Division is correctly rounded: the quotient of two finite floats is the
    exact quotient rounded to nearest.  With it every step of Map Range keeps
    or reverses the order of two values. *)

Lemma loc_code_range (l : location) : 0 <= loc_code l < 4.
Proof. destruct l as [|[]]; simpl; lia. Qed.

Lemma shr_record_of_loc_state (q : Z) (l : location) :
  shr_record_of_loc q l = shr_state (4 * q + loc_code l) 2.
Proof.
  unfold shr_state. change (2 ^ Z.of_nat 2) with 4. change (2 ^ Z.of_nat 1) with 2.
  assert (Hm : (4 * q + loc_code l) / 4 = q)
    by (pose proof (loc_code_range l); Z.div_mod_to_equations; lia).
  rewrite Hm.
  destruct l as [|[]]; simpl loc_code; unfold shr_record_of_loc; f_equal.
  - replace ((4 * q + 0) / 2) with (2 * q) by (Z.div_mod_to_equations; lia).
    rewrite Z.odd_mul. reflexivity.
  - replace ((4 * q + 0) mod 2) with 0 by (Z.div_mod_to_equations; lia). reflexivity.
  - replace ((4 * q + 2) / 2) with (1 + 2 * q) by (Z.div_mod_to_equations; lia).
    rewrite Z.odd_add_mul_2. reflexivity.
  - replace ((4 * q + 2) mod 2) with 0 by (Z.div_mod_to_equations; lia). reflexivity.
  - replace ((4 * q + 1) / 2) with (2 * q) by (Z.div_mod_to_equations; lia).
    rewrite Z.odd_mul. reflexivity.
  - replace ((4 * q + 1) mod 2) with 1 by (Z.div_mod_to_equations; lia). reflexivity.
  - replace ((4 * q + 3) / 2) with (1 + 2 * q) by (Z.div_mod_to_equations; lia).
    rewrite Z.odd_add_mul_2. reflexivity.
  - replace ((4 * q + 3) mod 2) with 1 by (Z.div_mod_to_equations; lia). reflexivity.
Qed.

Lemma iter_shr_1_state_from (m : Z) (j k : nat) :
  0 <= m -> Nat.iter k shr_1 (shr_state m j) = shr_state m (k + j).
Proof.
  intros Hm. induction k as [|k IH]; [reflexivity|].
  simpl. rewrite IH. apply shr_1_state. exact Hm.
Qed.

Lemma shr_fexp_loc (q e : Z) (l : location) :
  0 <= q -> e <= fexp prec emax (Zdigits2 q + e) ->
  shr_fexp prec emax q e l
  = (shr_state (4 * q + loc_code l) (Z.to_nat (fexp prec emax (Zdigits2 q + e) - e) + 2),
     fexp prec emax (Zdigits2 q + e)).
Proof.
  intros Hq He. unfold shr_fexp, shr.
  set (ce := fexp prec emax (Zdigits2 q + e)) in *.
  pose proof (loc_code_range l) as Hc.
  destruct (ce - e) as [|p|p] eqn:Hn; try lia.
  - rewrite shr_record_of_loc_state. f_equal. lia.
  - rewrite iter_pos_nat, shr_record_of_loc_state, iter_shr_1_state_from by lia.
    f_equal. lia.
Qed.

Lemma fexp_digits_code (q c e : Z) :
  0 <= q -> 0 <= c < 4 -> e <= fexp prec emax (Zdigits2 q + e) ->
  fexp prec emax (Zdigits2 (4 * q + c) + (e - 2)) = fexp prec emax (Zdigits2 q + e).
Proof.
  intros Hq Hc He.
  destruct (Z.eq_dec q 0) as [->|Hq0].
  - simpl Zdigits2 in He. rewrite Z.mul_0_r, Z.add_0_l.
    assert (Hd : 0 <= Zdigits2 c <= 2).
    { split; [apply Zdigits2_nonneg|].
      destruct (Z.eq_dec c 0) as [->|]; [simpl; lia|].
      pose proof (Zdigits2_bounds c ltac:(lia)) as [L _].
      destruct (Z.le_gt_cases (Zdigits2 c) 2) as [|Hgt]; [assumption|].
      pose proof (pow2_le 2 (Zdigits2 c - 1) ltac:(lia)). simpl in H. lia. }
    simpl Zdigits2. unfold fexp, emin, prec, emax in *. lia.
  - pose proof (Zdigits2_bounds q ltac:(lia)) as [L U].
    pose proof (Zdigits2_pos q ltac:(lia)) as Hd.
    assert (E : Zdigits2 (4 * q + c) = Zdigits2 q + 2).
    { apply Zdigits2_unique; [|lia].
      replace (Zdigits2 q + 2 - 1) with (Zdigits2 q - 1 + 2) by lia.
      rewrite !Z.pow_add_r by lia. change (2 ^ 2) with 4. lia. }
    rewrite E. f_equal. lia.
Qed.

(** Rounding a quotient with the location of its remainder is rounding the
    quotient with two more bits. *)
Lemma binary_round_aux_loc (s : bool) (q e : Z) (l : location) :
  0 <= q -> e <= fexp prec emax (Zdigits2 q + e) ->
  binary_round_aux prec emax s q e l = round_spec s (4 * q + loc_code l) (e - 2).
Proof.
  intros Hq He.
  pose proof (loc_code_range l) as Hc.
  rewrite <- binary_round_aux_spec by lia.
  unfold binary_round_aux.
  rewrite shr_fexp_loc by assumption.
  rewrite (shr_fexp_state (4 * q + loc_code l) (e - 2)) by lia.
  rewrite (fexp_digits_code q (loc_code l) e Hq Hc He).
  set (ce := fexp prec emax (Zdigits2 q + e)) in *.
  replace (Z.to_nat (ce - (e - 2))) with (Z.to_nat (ce - e) + 2)%nat by lia.
  replace (e - 2 + Z.max 0 (ce - (e - 2))) with ce by lia.
  reflexivity.
Qed.

Lemma new_location_code (d r : Z) :
  0 < d -> 0 <= r < d ->
  loc_code (new_location d r)
  = if r =? 0 then 0 else match 2 * r ?= d with Lt => 1 | Eq => 2 | Gt => 3 end.
Proof.
  intros Hd Hr. unfold new_location.
  destruct (Z.even d) eqn:Hev; unfold new_location_even, new_location_odd;
    destruct (Z.eqb_spec r 0) as [->|Hr0]; try reflexivity.
  assert (Hodd : Z.odd d = true) by (rewrite <- Z.negb_even, Hev; reflexivity).
  apply Z.odd_spec in Hodd as [z Hz].
  destruct (Z.compare_spec (2 * r + 1) d) as [E|E|E];
    destruct (Z.compare_spec (2 * r) d) as [E'|E'|E']; try reflexivity; lia.
Qed.

(** Where the part of [N] below bit [n] lies with respect to the middle,
    read from the bits from [j] on and from whether the bits below [j]
    vanish. *)
Lemma middle_compare (N j n : Z) :
  0 <= N -> 0 <= j < n ->
  (N mod 2 ^ n ?= 2 ^ (n - 1))
  = match (N / 2 ^ j) mod 2 ^ (n - j) ?= 2 ^ (n - 1 - j) with
    | Lt => Lt
    | Gt => Gt
    | Eq => if N mod 2 ^ j =? 0 then Eq else Gt
    end.
Proof.
  intros HN Hj.
  pose proof (pow2_pos j ltac:(lia)) as Hpj.
  pose proof (pow2_pos (n - j) ltac:(lia)) as Hpnj.
  pose proof (pow2_pos (n - 1 - j) ltac:(lia)) as HH.
  assert (En : 2 ^ n = 2 ^ j * 2 ^ (n - j))
    by (rewrite <- Z.pow_add_r by lia; f_equal; lia).
  assert (Eh : 2 ^ (n - 1) = 2 ^ j * 2 ^ (n - 1 - j))
    by (rewrite <- Z.pow_add_r by lia; f_equal; lia).
  rewrite En, Eh, Z.rem_mul_r by lia.
  pose proof (Z.mod_pos_bound N (2 ^ j) Hpj) as Hrho.
  pose proof (Z.mod_pos_bound (N / 2 ^ j) (2 ^ (n - j)) Hpnj) as HG.
  set (rho := N mod 2 ^ j) in *. set (G := (N / 2 ^ j) mod 2 ^ (n - j)) in *.
  set (H := 2 ^ (n - 1 - j)) in *. set (B := 2 ^ j) in *.
  destruct (Z.compare_spec G H) as [E|E|E].
  - subst G. rewrite E.
    destruct (Z.eqb_spec rho 0) as [E0|E0].
    + rewrite E0. apply Z.compare_eq_iff. lia.
    + apply Z.compare_gt_iff. lia.
  - apply Z.compare_lt_iff.
    assert (B * (G + 1) <= B * H) by (apply Z.mul_le_mono_nonneg_l; lia). lia.
  - apply Z.compare_gt_iff.
    assert (B * (H + 1) <= B * G) by (apply Z.mul_le_mono_nonneg_l; lia). lia.
Qed.

(** Rounding at bit [n] sees the bits below [j < n] only through whether
    they vanish. *)
Lemma rnd_sticky (N1 N2 j n : Z) :
  0 <= N1 -> 0 <= N2 -> 0 <= j < n ->
  N1 / 2 ^ j = N2 / 2 ^ j -> (N1 mod 2 ^ j = 0 <-> N2 mod 2 ^ j = 0) ->
  rnd N1 n = rnd N2 n.
Proof.
  intros H1 H2 Hj HF Hz. unfold rnd.
  replace (n <=? 0) with false by lia.
  pose proof (pow2_pos j ltac:(lia)) as Hpj.
  pose proof (pow2_pos (n - j) ltac:(lia)) as Hpnj.
  assert (En : 2 ^ n = 2 ^ j * 2 ^ (n - j))
    by (rewrite <- Z.pow_add_r by lia; f_equal; lia).
  assert (Hq : forall N, N / 2 ^ n = N / 2 ^ j / 2 ^ (n - j))
    by (intros N; rewrite En, Z.div_div by lia; reflexivity).
  rewrite (middle_compare N1 j n), (middle_compare N2 j n) by lia.
  rewrite (Hq N1), (Hq N2), HF.
  assert (Hb : (N1 mod 2 ^ j =? 0) = (N2 mod 2 ^ j =? 0)).
  { destruct (Z.eqb_spec (N1 mod 2 ^ j) 0) as [E|E], (Z.eqb_spec (N2 mod 2 ^ j) 0) as [E'|E'];
      try reflexivity; tauto. }
  rewrite Hb. reflexivity.
Qed.

Lemma Zdigits2_above (N F j : Z) :
  0 <= j -> 0 < F -> N / 2 ^ j = F -> Zdigits2 N = Zdigits2 F + j.
Proof.
  intros Hj HF E.
  pose proof (pow2_pos j Hj) as Hpj.
  pose proof (Zdigits2_bounds F HF) as [L U].
  pose proof (Zdigits2_pos F HF) as Hd.
  pose proof (Z.mul_div_le N (2 ^ j) Hpj) as Hlow.
  pose proof (Z.mul_succ_div_gt N (2 ^ j) Hpj) as Hup.
  rewrite E in Hlow, Hup.
  assert (L' : 2 ^ (Zdigits2 F - 1) * 2 ^ j <= F * 2 ^ j)
    by (apply Z.mul_le_mono_nonneg_r; lia).
  assert (U' : (F + 1) * 2 ^ j <= 2 ^ Zdigits2 F * 2 ^ j)
    by (apply Z.mul_le_mono_nonneg_r; lia).
  rewrite <- Z.pow_add_r in L', U' by lia.
  apply Zdigits2_unique; [|lia].
  replace (Zdigits2 F + j - 1) with (Zdigits2 F - 1 + j) by lia. lia.
Qed.

Lemma Zdigits2_below (N j : Z) : 0 <= j -> 0 <= N -> N / 2 ^ j = 0 -> Zdigits2 N <= j.
Proof.
  intros Hj HN E.
  destruct (Z.eq_dec N 0) as [->|HN0]; [simpl; lia|].
  pose proof (pow2_pos j Hj) as Hpj.
  pose proof (Z.mul_succ_div_gt N (2 ^ j) Hpj) as Hup. rewrite E in Hup.
  pose proof (Zdigits2_bounds N ltac:(lia)) as [L _].
  destruct (Z.le_gt_cases (Zdigits2 N) j) as [|Hgt]; [assumption|].
  pose proof (pow2_le j (Zdigits2 N - 1) ltac:(lia)). lia.
Qed.

(** Two values that agree from bit [j] on, and on whether the bits below
    vanish, round alike when the rounding takes place above bit [j]. *)
Lemma round_pos_sticky (N1 N2 j : Z) :
  0 <= N1 -> 0 <= N2 -> 0 <= j ->
  N1 / 2 ^ j = N2 / 2 ^ j -> (N1 mod 2 ^ j = 0 <-> N2 mod 2 ^ j = 0) ->
  j < fexp prec emax (Zdigits2 N1 + unit_exp) - unit_exp ->
  j < fexp prec emax (Zdigits2 N2 + unit_exp) - unit_exp ->
  round_pos N1 = round_pos N2.
Proof.
  intros H1 H2 Hj HF Hz Hn1 Hn2.
  assert (En : fexp prec emax (Zdigits2 N1 + unit_exp)
               = fexp prec emax (Zdigits2 N2 + unit_exp)).
  { pose proof (pow2_pos j Hj) as Hpj.
    assert (HF0 : 0 <= N1 / 2 ^ j) by (apply Z.div_pos; lia).
    destruct (Z.eq_dec (N1 / 2 ^ j) 0) as [E0|E0].
    - pose proof (Zdigits2_below N1 j Hj H1 E0).
      pose proof (Zdigits2_below N2 j Hj H2 ltac:(congruence)).
      unfold fexp, emin, prec, emax, unit_exp in *. lia.
    - rewrite (Zdigits2_above N1 (N1 / 2 ^ j) j Hj ltac:(lia) eq_refl).
      rewrite (Zdigits2_above N2 (N1 / 2 ^ j) j Hj ltac:(lia) ltac:(congruence)).
      reflexivity. }
  unfold round_pos. rewrite <- En.
  rewrite (rnd_sticky N1 N2 j (fexp prec emax (Zdigits2 N1 + unit_exp) - unit_exp))
    by (try assumption; lia).
  reflexivity.
Qed.

Lemma sticky_mono (num1 num2 den : Z) :
  0 < den -> num1 <= num2 -> sticky num1 den <= sticky num2 den.
Proof.
  intros Hd Hle. unfold sticky.
  pose proof (Z.div_le_mono num1 num2 (2 * den) ltac:(lia) Hle) as Hq.
  destruct (Z.eqb_spec (num1 mod (2 * den)) 0) as [E1|E1];
    destruct (Z.eqb_spec (num2 mod (2 * den)) 0) as [E2|E2]; try lia.
  destruct (Z.eq_dec (num1 / (2 * den)) (num2 / (2 * den))) as [E|E]; [|lia].
  exfalso.
  pose proof (Z.div_mod num1 (2 * den) ltac:(lia)) as D1.
  pose proof (Z.div_mod num2 (2 * den) ltac:(lia)) as D2.
  pose proof (Z.mod_pos_bound num1 (2 * den) ltac:(lia)).
  rewrite E in D1. lia.
Qed.

Lemma sticky_nonneg (num den : Z) : 0 < den -> 0 <= num -> 0 <= sticky num den.
Proof.
  intros Hd Hn. unfold sticky.
  pose proof (Z.div_pos num (2 * den) Hn ltac:(lia)).
  destruct (num mod (2 * den) =? 0); lia.
Qed.

(** [sticky] does not see a common factor of numerator and denominator. *)
Lemma sticky_cancel (num den c : Z) :
  0 < den -> 0 < c -> sticky (num * c) (den * c) = sticky num den.
Proof.
  intros Hd Hc. unfold sticky.
  replace (2 * (den * c)) with (2 * den * c) by ring.
  rewrite Z.div_mul_cancel_r, Z.mul_mod_distr_r by lia.
  destruct (Z.eqb_spec (num mod (2 * den)) 0) as [E|E].
  - rewrite E. reflexivity.
  - destruct (Z.eqb_spec (num mod (2 * den) * c) 0) as [E'|E']; [|reflexivity].
    apply Z.mul_eq_0 in E'. lia.
Qed.

Lemma sticky_double (A den : Z) :
  0 < den -> sticky (2 * A) den = 2 * (A / den) + (if A mod den =? 0 then 0 else 1).
Proof.
  intros Hd. unfold sticky.
  rewrite Z.div_mul_cancel_l, Z.mul_mod_distr_l by lia.
  destruct (Z.eqb_spec (A mod den) 0) as [E|E].
  - rewrite E. reflexivity.
  - destruct (Z.eqb_spec (2 * (A mod den)) 0) as [E'|E']; [lia|reflexivity].
Qed.

(** The quotient with its location, shifted left by [k] bits, and the
    sticky form of the exact quotient agree from bit [k + 1] on, and on
    whether the bits below vanish. *)
Lemma sticky_quotient (m' mr q rem k : Z) :
  0 < mr -> m' = mr * q + rem -> 0 <= rem < mr -> 0 <= q -> 0 <= k ->
  (4 * q + loc_code (new_location mr rem)) * 2 ^ k / 2 ^ (k + 1)
  = sticky (m' * 2 ^ (k + 2)) mr / 2 ^ (k + 1)
  /\ ((4 * q + loc_code (new_location mr rem)) * 2 ^ k mod 2 ^ (k + 1) = 0
      <-> sticky (m' * 2 ^ (k + 2)) mr mod 2 ^ (k + 1) = 0).
Proof.
  intros Hmr Hm Hrem Hq Hk.
  pose proof (pow2_pos k Hk) as Hpk.
  assert (Ek1 : 2 ^ (k + 1) = 2 * 2 ^ k) by (rewrite Z.pow_add_r by lia; ring).
  assert (Ek2 : 2 ^ (k + 2) = 2 * (2 * 2 ^ k))
    by (rewrite Z.pow_add_r by lia; change (2 ^ 2) with 4; ring).
  (* the doubled quotient and its remainder *)
  assert (HF : exists F beta kappa : Z,
             2 * m' = F * mr + beta /\ 0 <= beta < mr /\ 0 <= F
             /\ 4 * q + loc_code (new_location mr rem) = 2 * F + kappa
             /\ 0 <= kappa <= 1 /\ (kappa = 0 <-> beta = 0)).
  { rewrite (new_location_code mr rem Hmr Hrem).
    destruct (Z.eqb_spec rem 0) as [E0|E0].
    - exists (2 * q), 0, 0. repeat split; try lia.
    - destruct (Z.compare_spec (2 * rem) mr) as [E|E|E].
      + exists (2 * q + 1), 0, 0. repeat split; try lia.
      + exists (2 * q), (2 * rem), 1. repeat split; try lia.
      + exists (2 * q + 1), (2 * rem - mr), 1. repeat split; try lia. }
  destruct HF as (F & beta & kappa & H2m & Hbeta & HF0 & Hc & Hkappa & Hkb).
  rewrite Hc.
  (* the sticky form *)
  replace (m' * 2 ^ (k + 2)) with (2 * (2 * m' * 2 ^ k)) by (rewrite Ek2; ring).
  rewrite sticky_double by lia.
  set (T := (beta * 2 ^ k) / mr). set (U := (beta * 2 ^ k) mod mr).
  pose proof (Z.div_mod (beta * 2 ^ k) mr ltac:(lia)) as HTU. fold T U in HTU.
  pose proof (Z.mod_pos_bound (beta * 2 ^ k) mr Hmr) as HU. fold U in HU.
  assert (HT0 : 0 <= T) by (apply Z.div_pos; [apply Z.mul_nonneg_nonneg|]; lia).
  assert (HT1 : T < 2 ^ k).
  { apply Z.div_lt_upper_bound; [lia|].
    apply Z.mul_lt_mono_pos_r; lia. }
  assert (HA : 2 * m' * 2 ^ k = mr * (F * 2 ^ k + T) + U).
  { rewrite H2m. replace ((F * mr + beta) * 2 ^ k) with (mr * (F * 2 ^ k) + beta * 2 ^ k) by ring.
    rewrite HTU. ring. }
  assert (Hdiv : 2 * m' * 2 ^ k / mr = F * 2 ^ k + T)
    by (symmetry; apply (Z.div_unique _ mr _ U); [lia|exact HA]).
  assert (Hmod : (2 * m' * 2 ^ k) mod mr = U)
    by (symmetry; apply (Z.mod_unique _ mr (F * 2 ^ k + T) U); [lia|exact HA]).
  rewrite Hdiv, Hmod.
  set (st := if U =? 0 then 0 else 1).
  assert (Hst : 0 <= st <= 1 /\ (st = 0 <-> U = 0))
    by (unfold st; destruct (Z.eqb_spec U 0); lia).
  assert (HTU0 : T = 0 /\ U = 0 <-> beta = 0).
  { split.
    - intros [-> ->]. rewrite Z.mul_0_r, Z.add_0_l in HTU.
      apply Z.mul_eq_0 in HTU. lia.
    - intros ->. unfold T, U. rewrite Z.mul_0_l, Z.div_0_l, Z.mod_0_l by lia. auto. }
  rewrite Ek1.
  assert (HP : (2 * F + kappa) * 2 ^ k = 2 * 2 ^ k * F + kappa * 2 ^ k) by ring.
  assert (HS : 2 * (F * 2 ^ k + T) + st = 2 * 2 ^ k * F + (2 * T + st)) by ring.
  assert (Hk2 : 0 <= kappa * 2 ^ k < 2 * 2 ^ k) by nia.
  split.
  - rewrite <- (Z.div_unique _ (2 * 2 ^ k) F (kappa * 2 ^ k) ltac:(lia) HP).
    rewrite <- (Z.div_unique _ (2 * 2 ^ k) F (2 * T + st) ltac:(lia) HS).
    reflexivity.
  - rewrite <- (Z.mod_unique _ (2 * 2 ^ k) F (kappa * 2 ^ k) ltac:(lia) HP).
    rewrite <- (Z.mod_unique _ (2 * 2 ^ k) F (2 * T + st) ltac:(lia) HS).
    split; intros H0.
    + apply Z.mul_eq_0 in H0. assert (kappa = 0) by lia.
      assert (beta = 0) by tauto. assert (T = 0 /\ U = 0) by tauto. lia.
    + assert (T = 0 /\ U = 0) by lia. assert (beta = 0) by tauto.
      assert (kappa = 0) by tauto. subst kappa. lia.
Qed.

Lemma round_pos_sticky_low (N1 N2 j : Z) :
  0 <= N1 -> 0 <= N2 -> 0 <= j ->
  N1 / 2 ^ j = N2 / 2 ^ j -> (N1 mod 2 ^ j = 0 <-> N2 mod 2 ^ j = 0) ->
  j < fexp prec emax (Zdigits2 N1 + unit_exp) - unit_exp ->
  (N1 / 2 ^ j = 0 -> j < emin prec emax - unit_exp) ->
  round_pos N1 = round_pos N2.
Proof.
  intros H1 H2 Hj HF Hz Hn1 Hlow.
  apply (round_pos_sticky N1 N2 j); try assumption.
  pose proof (pow2_pos j Hj) as Hpj.
  assert (HF0 : 0 <= N1 / 2 ^ j) by (apply Z.div_pos; lia).
  destruct (Z.eq_dec (N1 / 2 ^ j) 0) as [E0|E0].
  - specialize (Hlow E0). unfold fexp. lia.
  - rewrite (Zdigits2_above N2 (N1 / 2 ^ j) j Hj ltac:(lia) ltac:(congruence)).
    rewrite <- (Zdigits2_above N1 (N1 / 2 ^ j) j Hj ltac:(lia) eq_refl). exact Hn1.
Qed.

(** The quotient of two finite floats is the exact quotient, in sticky
    form, rounded to nearest. *)
Lemma fdiv_units (sa sr : bool) (ma mr : positive) (ea er : Z) :
  is_valid (S754_finite sa ma ea) = true -> is_valid (S754_finite sr mr er) = true ->
  units (fdiv (S754_finite sa ma ea) (S754_finite sr mr er))
  = cond_Zopp (xorb sa sr)
      (round_pos (sticky (Zpos ma * 2 ^ (ea - unit_exp) * 2 ^ (- unit_exp))
                         (Zpos mr * 2 ^ (er - unit_exp)))).
Proof.
  intros Va Vr.
  destruct (valid_finite_inv sa ma ea Va) as ([Ha1 Ha2] & _).
  destruct (valid_finite_inv sr mr er Vr) as ([Hr1 Hr2] & _).
  unfold fdiv, SFdiv.
  pose proof (SFdiv_core_canonical ma mr ea er) as Hcan.
  unfold SFdiv_core_binary in *. simpl Zdigits2 in *.
  set (d1 := Zpos (digits2_pos ma)) in *. set (d2 := Zpos (digits2_pos mr)) in *.
  set (e' := Z.min (fexp prec emax (d1 + ea - (d2 + er))) (ea - er)) in *.
  set (sh := ea - er - e') in *.
  assert (Hs : 0 <= sh) by (unfold sh, e'; lia).
  set (m' := match sh with Zpos _ => Z.shiftl (Zpos ma) sh | Z0 => Zpos ma | Zneg _ => 0 end)
    in *.
  assert (Hm' : m' = Zpos ma * 2 ^ sh).
  { unfold m'. destruct sh as [|p|p] eqn:E; try lia.
    rewrite Z.shiftl_mul_pow2 by lia. reflexivity. }
  pose proof (Z_div_mod m' (Zpos mr) ltac:(lia)) as Hdm.
  destruct (Z.div_eucl m' (Zpos mr)) as [q rem]. simpl fst in Hcan. simpl snd in Hcan.
  destruct Hdm as [Hdm Hrem]. destruct Hcan as [Hq He].
  pose proof (pow2_pos sh Hs) as Hps.
  assert (Hm0 : 0 < m') by (rewrite Hm'; lia).
  assert (He'lo : -253 <= e') by (unfold e', fexp, emin, prec, emax in *; lia).
  assert (He'hi : e' <= 253) by (unfold e', fexp, emin, prec, emax in *; lia).
  rewrite binary_round_aux_loc by assumption.
  pose proof (loc_code_range (new_location (Zpos mr) rem)) as Hc.
  set (N' := 4 * q + loc_code (new_location (Zpos mr) rem)) in *.
  assert (HN' : 0 < N').
  { unfold N'. destruct (Z.eq_dec q 0) as [->|]; [|lia].
    rewrite (new_location_code (Zpos mr) rem ltac:(lia) Hrem).
    destruct (Z.eqb_spec rem 0) as [->|]; [lia|].
    destruct (2 * rem ?= Zpos mr); lia. }
  assert (Hfe : fexp prec emax (Zdigits2 N' + (e' - 2)) = fexp prec emax (Zdigits2 q + e'))
    by (apply fexp_digits_code; assumption).
  destruct (round_spec_props (xorb sa sr) N' (e' - 2)) as (_ & _ & HW).
  { lia. } { unfold unit_exp. lia. } { rewrite Hfe. lia. }
  rewrite HW. f_equal.
  set (k := e' - 2 - unit_exp) in *.
  assert (Hk : 0 <= k) by (unfold k, unit_exp; lia).
  set (w := er - unit_exp).
  assert (Hw : 0 <= w) by (unfold w, unit_exp, emin, prec, emax in *; lia).
  pose proof (pow2_pos w Hw) as Hpw.
  (* the exact quotient, in units *)
  assert (Enum : Zpos ma * 2 ^ (ea - unit_exp) * 2 ^ (- unit_exp)
                 = m' * 2 ^ (k + 2) * 2 ^ w).
  { rewrite Hm', <- !Z.mul_assoc, <- !Z.pow_add_r
      by (unfold k, w, sh, unit_exp, emin, prec, emax in *; lia).
    f_equal. f_equal. unfold k, w, sh. lia. }
  fold w. rewrite Enum, sticky_cancel by lia.
  destruct (sticky_quotient m' (Zpos mr) q rem k ltac:(lia) Hdm Hrem Hq Hk) as [HF Hz].
  fold N' in HF, Hz.
  apply (round_pos_sticky_low _ _ (k + 1)); try assumption; try lia.
  - apply sticky_nonneg; [lia|]. apply Z.mul_nonneg_nonneg; [lia|]. apply Z.pow_nonneg. lia.
  - rewrite Zdigits2_scale by lia.
    replace (Zdigits2 N' + k + unit_exp) with (Zdigits2 N' + (e' - 2)) by (unfold k; lia).
    rewrite Hfe. unfold k. lia.
  - intros E0.
    assert (Hq0 : q = 0).
    { destruct (Z.eq_dec q 0) as [|Hne]; [assumption|exfalso].
      pose proof (pow2_pos k Hk) as Hpk.
      assert (Hbig : 2 ^ (k + 1) <= N' * 2 ^ k).
      { rewrite Z.pow_add_r by lia. change (2 ^ 1) with 2.
        rewrite (Z.mul_comm (2 ^ k)). apply Z.mul_le_mono_nonneg_r; lia. }
      pose proof (Z.div_le_lower_bound (N' * 2 ^ k) (2 ^ (k + 1)) 1
                    (pow2_pos (k + 1) ltac:(lia)) ltac:(lia)). lia. }
    subst q. simpl Zdigits2 in He.
    unfold k, fexp, emin, prec, emax, unit_exp in *. lia.
Qed.

Lemma flt_negb_fle (x y : float) :
  is_nan x = false -> is_nan y = false -> flt x y = negb (fle y x).
Proof.
  intros Hx Hy. unfold flt, fle, SFltb, SFleb. rewrite (SFcompare_antisym x y).
  destruct (SFcompare x y) as [[]|] eqn:E; try reflexivity.
  apply SFcompare_None in E. destruct E; congruence.
Qed.

Lemma flt_units (x y : float) :
  is_valid x = true -> is_valid y = true -> is_nan x = false -> is_nan y = false ->
  (flt x y = true <-> units x < units y).
Proof.
  intros Vx Vy Nx Ny. rewrite flt_negb_fle by assumption.
  pose proof (fle_units y x Vy Vx Ny Nx) as H.
  destruct (fle y x); simpl; split; intros H'; try discriminate H'; try reflexivity.
  - assert (units y <= units x) by (apply H; reflexivity). lia.
  - destruct (Z.le_gt_cases (units y) (units x)) as [Hle|Hgt]; [|assumption].
    apply H in Hle. discriminate Hle.
Qed.

Lemma round_pos_le_max (N : Z) : round_pos N <= 2 ^ (emax - unit_exp).
Proof. unfold round_pos. apply Z.le_min_r. Qed.

Lemma sticky_0 (den : Z) : sticky 0 den = 0.
Proof. unfold sticky. rewrite Zdiv_0_l, Zmod_0_l. reflexivity. Qed.

Lemma quotient_units_mono (ur x1 x2 : Z) :
  0 < ur -> x1 <= x2 -> quotient_units ur x1 <= quotient_units ur x2.
Proof.
  intros Hur Hle. unfold quotient_units.
  pose proof (pow2_pos (emax - unit_exp) ltac:(unfold emax, unit_exp; lia)) as Hmax.
  pose proof (pow2_pos (- unit_exp) ltac:(unfold unit_exp; lia)) as Hone.
  assert (Hh : forall x, 0 <= x ->
                 0 <= round_pos (sticky (x * 2 ^ (- unit_exp)) ur) <= 2 ^ (emax - unit_exp)).
  { intros x Hx. split; [|apply round_pos_le_max].
    apply round_pos_nonneg, sticky_nonneg; [assumption|]. apply Z.mul_nonneg_nonneg; lia. }
  assert (Hm : forall x y, 0 <= x <= y ->
                 round_pos (sticky (x * 2 ^ (- unit_exp)) ur)
                 <= round_pos (sticky (y * 2 ^ (- unit_exp)) ur)).
  { intros x y Hxy. apply round_pos_mono. split.
    - apply sticky_nonneg; [assumption|]. apply Z.mul_nonneg_nonneg; lia.
    - apply sticky_mono; [assumption|]. apply Z.mul_le_mono_nonneg_r; lia. }
  destruct (Z.leb_spec (2 ^ (emax - unit_exp)) x1), (Z.leb_spec (2 ^ (emax - unit_exp)) x2);
    try lia;
    destruct (Z.leb_spec x1 (- 2 ^ (emax - unit_exp))),
             (Z.leb_spec x2 (- 2 ^ (emax - unit_exp))); try lia;
    destruct (Z.ltb_spec x1 0), (Z.ltb_spec x2 0); try lia;
    try (pose proof (Hh x1 ltac:(lia)); pose proof (Hh x2 ltac:(lia)); lia);
    try (pose proof (Hh (- x1) ltac:(lia)); pose proof (Hh x2 ltac:(lia)); lia);
    try (pose proof (Hh (- x1) ltac:(lia)); pose proof (Hh (- x2) ltac:(lia)); lia);
    try (pose proof (Hh x2 ltac:(lia)); lia);
    try (pose proof (Hh x1 ltac:(lia)); lia);
    try (pose proof (Hh (- x1) ltac:(lia)); lia);
    try (pose proof (Hh (- x2) ltac:(lia)); lia).
  - pose proof (Hm (- x2) (- x1) ltac:(lia)). lia.
  - pose proof (Hm x1 x2 ltac:(lia)). lia.
Qed.

(** Division by a finite nonzero float, in units. *)
Lemma fdiv_quotient_units (a : float) (sr : bool) (mr : positive) (er : Z) :
  is_valid a = true -> is_nan a = false -> is_valid (S754_finite sr mr er) = true ->
  units (fdiv a (S754_finite sr mr er))
  = cond_Zopp sr (quotient_units (Zpos mr * 2 ^ (er - unit_exp)) (units a)).
Proof.
  intros Va Na Vr.
  pose proof (pow2_pos (emax - unit_exp) ltac:(unfold emax, unit_exp; lia)) as Hmax.
  destruct a as [sa|sa| |sa ma ea]; try discriminate Na.
  - change (fdiv (S754_zero sa) (S754_finite sr mr er)) with (S754_zero (xorb sa sr)).
    cbn [units]. unfold quotient_units.
    replace (2 ^ (emax - unit_exp) <=? 0) with false by lia.
    replace (0 <=? - 2 ^ (emax - unit_exp)) with false by lia.
    replace (0 <? 0) with false by lia.
    rewrite Z.mul_0_l, sticky_0, round_pos_0. destruct sr; reflexivity.
  - change (fdiv (S754_infinity sa) (S754_finite sr mr er)) with (S754_infinity (xorb sa sr)).
    cbn [units]. unfold quotient_units.
    destruct sa; cbn [cond_Zopp].
    + replace (2 ^ (emax - unit_exp) <=? - 2 ^ (emax - unit_exp)) with false by lia.
      rewrite Z.leb_refl. destruct sr; reflexivity.
    + rewrite Z.leb_refl. destruct sr; reflexivity.
  - rewrite (fdiv_units sa sr ma mr ea er Va Vr).
    pose proof (units_finite_bounds sa ma ea Va) as Hb.
    unfold quotient_units. cbn [units].
    destruct sa; cbn [cond_Zopp].
    + replace (2 ^ (emax - unit_exp) <=? - (Zpos ma * 2 ^ (ea - unit_exp))) with false by lia.
      replace (- (Zpos ma * 2 ^ (ea - unit_exp)) <=? - 2 ^ (emax - unit_exp)) with false by lia.
      replace (- (Zpos ma * 2 ^ (ea - unit_exp)) <? 0) with true by lia.
      rewrite Z.opp_involutive. destruct sr; cbn [xorb cond_Zopp]; lia.
    + replace (2 ^ (emax - unit_exp) <=? Zpos ma * 2 ^ (ea - unit_exp)) with false by lia.
      replace (Zpos ma * 2 ^ (ea - unit_exp) <=? - 2 ^ (emax - unit_exp)) with false by lia.
      replace (Zpos ma * 2 ^ (ea - unit_exp) <? 0) with false by lia.
      destruct sr; reflexivity.
Qed.

(** CLAMP to the unit interval, in units. *)
Lemma CLAMP_units (x : float) :
  is_valid x = true -> is_nan x = false ->
  units (CLAMP x (of_Z 0) (of_Z 1)) = Z.max 0 (Z.min (units x) (units (of_Z 1))).
Proof.
  intros Vx Nx. unfold CLAMP.
  assert (H1 : 0 < units (of_Z 1)) by (vm_compute; reflexivity).
  pose proof (flt_units x (of_Z 0) Vx eq_refl Nx eq_refl) as H0.
  pose proof (flt_units (of_Z 1) x eq_refl Vx eq_refl Nx) as H2.
  change (units (of_Z 0)) with 0 in H0.
  destruct (flt x (of_Z 0)).
  - assert (units x < 0) by (apply H0; reflexivity). change (units (of_Z 0)) with 0. lia.
  - assert (~ units x < 0) by (intros H; apply H0 in H; discriminate H).
    destruct (flt (of_Z 1) x).
    + assert (units (of_Z 1) < units x) by (apply H2; reflexivity). lia.
    + assert (~ units (of_Z 1) < units x) by (intros H'; apply H2 in H'; discriminate H').
      lia.
Qed.

(** The product of two finite floats, in units. *)
Lemma fmul_units (st sr : bool) (mt mr : positive) (et er : Z) :
  is_valid (S754_finite st mt et) = true -> is_valid (S754_finite sr mr er) = true ->
  units (fmul (S754_finite st mt et) (S754_finite sr mr er))
  = cond_Zopp (xorb st sr) (round_pos (Zpos mt * Zpos mr * 2 ^ (et + er - unit_exp))).
Proof.
  intros Vt Vr.
  destruct (valid_finite_inv st mt et Vt) as ([Ht1 Ht2] & Hdt & Hnt & _).
  destruct (valid_finite_inv sr mr er Vr) as ([Hr1 Hr2] & Hdr & Hnr & _).
  unfold fmul, SFmul.
  rewrite binary_round_aux_spec by lia.
  destruct (round_spec_props (xorb st sr) (Zpos (mt * mr)) (et + er)) as (_ & _ & HW).
  - lia.
  - unfold emin, prec, emax, unit_exp in *. lia.
  - simpl Zdigits2. pose proof (Zdigits2_mul mt mr) as Hm.
    pose proof (digits_lower mt). pose proof (digits_lower mr).
    assert (0 < Zpos (digits2_pos mt)) by lia.
    assert (0 < Zpos (digits2_pos mr)) by lia.
    destruct (Z.le_gt_cases (et + er) (emin prec emax)) as [Hc|Hc].
    + unfold fexp. lia.
    + assert (prec <= Zpos (digits2_pos (mt * mr))).
      { destruct (Z.eq_dec et (emin prec emax)) as [E|E].
        - rewrite Hnr in Hm by (unfold emin, prec, emax in *; lia). lia.
        - rewrite Hnt in Hm by lia. lia. }
      unfold fexp. lia.
  - rewrite HW, Pos2Z.inj_mul. reflexivity.
Qed.

(** Multiplying by a finite float keeps or reverses the order of two
    nonnegative finite factors, according to its sign. *)
Lemma fmul_mono (t1 t2 R : float) :
  is_valid t1 = true -> is_valid t2 = true -> is_valid R = true ->
  is_finite t1 = true -> is_finite t2 = true -> is_finite R = true ->
  0 <= units t1 <= units t2 ->
  (0 <= units R -> units (fmul t1 R) <= units (fmul t2 R))
  /\ (units R <= 0 -> units (fmul t2 R) <= units (fmul t1 R)).
Proof.
  intros V1 V2 VR F1 F2 FR Ht.
  destruct R as [sr|sr| |sr mr er]; try discriminate FR.
  { destruct t1 as [s1|s1| |s1 m1 e1]; try discriminate F1;
      destruct t2 as [s2|s2| |s2 m2 e2]; try discriminate F2; simpl; lia. }
  pose proof (units_finite_bounds sr mr er VR) as HR.
  assert (Hzero : forall s, units (fmul (S754_zero s) (S754_finite sr mr er)) = 0)
    by (intros s; reflexivity).
  assert (Hfin : forall s m e, is_valid (S754_finite s m e) = true ->
                   0 <= units (S754_finite s m e) ->
                   s = false
                   /\ units (fmul (S754_finite s m e) (S754_finite sr mr er))
                      = cond_Zopp sr (round_pos (Zpos m * Zpos mr * 2 ^ (e + er - unit_exp)))
                   /\ 0 <= Zpos m * Zpos mr * 2 ^ (e + er - unit_exp)).
  { intros s m e V H0. pose proof (units_finite_bounds s m e V) as Hb.
    destruct s; [cbn [units cond_Zopp] in H0; lia|].
    split; [reflexivity|]. split; [apply (fmul_units false sr m mr e er V VR)|].
    apply Z.mul_nonneg_nonneg; [lia|apply Z.pow_nonneg; lia]. }
  destruct t1 as [s1|s1| |s1 m1 e1]; try discriminate F1;
    destruct t2 as [s2|s2| |s2 m2 e2]; try discriminate F2.
  - rewrite !Hzero. lia.
  - destruct (Hfin s2 m2 e2 V2 ltac:(lia)) as (-> & E2 & H2).
    rewrite Hzero, E2. pose proof (round_pos_nonneg _ H2).
    destruct sr; cbn [units cond_Zopp] in *; lia.
  - exfalso. pose proof (units_finite_bounds s1 m1 e1 V1).
    destruct s1; cbn [units cond_Zopp] in Ht; lia.
  - destruct (Hfin s1 m1 e1 V1 ltac:(lia)) as (-> & E1 & H1).
    destruct (Hfin s2 m2 e2 V2 ltac:(lia)) as (-> & E2 & H2).
    rewrite E1, E2.
    destruct (valid_finite_inv false m1 e1 V1) as ([Ha1 _] & _).
    destruct (valid_finite_inv false m2 e2 V2) as ([Ha2 _] & _).
    destruct (valid_finite_inv sr mr er VR) as ([Hr1 _] & _).
    assert (Hle : Zpos m1 * Zpos mr * 2 ^ (e1 + er - unit_exp)
                  <= Zpos m2 * Zpos mr * 2 ^ (e2 + er - unit_exp)).
    { pose proof (pow2_pos (- unit_exp) ltac:(unfold unit_exp; lia)) as Hone.
      apply (Z.mul_le_mono_pos_r _ _ (2 ^ (- unit_exp))); [assumption|].
      assert (Hsplit : forall m e, emin prec emax <= e ->
                 Zpos m * Zpos mr * 2 ^ (e + er - unit_exp) * 2 ^ (- unit_exp)
                 = Zpos m * 2 ^ (e - unit_exp) * (Zpos mr * 2 ^ (er - unit_exp))).
      { intros m e He.
        replace (Zpos m * 2 ^ (e - unit_exp) * (Zpos mr * 2 ^ (er - unit_exp)))
          with (Zpos m * Zpos mr * (2 ^ (e - unit_exp) * 2 ^ (er - unit_exp))) by ring.
        rewrite <- !Z.mul_assoc, <- !Z.pow_add_r
          by (unfold unit_exp, emin, prec, emax in *; lia).
        do 3 f_equal. lia. }
      rewrite !Hsplit by assumption.
      apply Z.mul_le_mono_nonneg_r; [lia|].
      cbn [units cond_Zopp] in Ht. lia. }
    pose proof (round_pos_mono _ _ (conj H1 Hle)) as Hmono.
    destruct sr; cbn [units cond_Zopp] in *; lia.
Qed.

Lemma interpret_map_range (value from_min from_max to_min to_max : float)
    (c : ExecutionContext) :
  interpret lazy_map_range [value; from_min; from_max; to_min; to_max] c
  = Ok [MapRange_compute fdiv value from_min from_max to_min to_max].
Proof.
  unfold interpret.
  assert (E : exists f, builtin_function lazy_map_range = Ok f
                        /\ tuple_call_body f = Some MapRange
                        /\ map param_type (outputs (fn_signature f)) = [float_type]).
  { eexists. split; [vm_compute; reflexivity|]. split; reflexivity. }
  destruct E as (f & -> & Hb & Ho). simpl rbind.
  unfold evaluate, call_interpreted. rewrite Hb, Ho.
  change (Tuple_bind [float_type]) with [VFloat (S754_zero false)].
  change (map VFloat [value; from_min; from_max; to_min; to_max])
    with [VFloat value; VFloat from_min; VFloat from_max; VFloat to_min; VFloat to_max].
  rewrite MapRange_call_eq. reflexivity.
Qed.

(** The interpolation factor, in units: it rises with [value] when the
    source range is positive and falls when it is negative. *)
Lemma MapRange_t_mono (v1 v2 from_min : float) (sr : bool) (mr : positive) (er : Z) :
  is_valid v1 = true -> is_valid v2 = true -> is_valid from_min = true ->
  is_finite v1 = true -> is_finite v2 = true -> is_finite from_min = true ->
  is_valid (S754_finite sr mr er) = true ->
  fle v1 v2 = true ->
  let t1 := CLAMP (fdiv (fsub v1 from_min) (S754_finite sr mr er)) (of_Z 0) (of_Z 1) in
  let t2 := CLAMP (fdiv (fsub v2 from_min) (S754_finite sr mr er)) (of_Z 0) (of_Z 1) in
  is_valid t1 = true /\ is_valid t2 = true
  /\ is_finite t1 = true /\ is_finite t2 = true
  /\ 0 <= units t1 <= units (of_Z 1) /\ 0 <= units t2 <= units (of_Z 1)
  /\ (if sr then units t2 <= units t1 else units t1 <= units t2).
Proof.
  intros V1 V2 Vm F1 F2 Fm Vr Hle t1 t2.
  pose proof (is_finite_not_nan _ F1) as N1.
  pose proof (is_finite_not_nan _ F2) as N2.
  apply (fle_units v1 v2 V1 V2 N1 N2) in Hle.
  destruct (fsub_units v1 from_min V1 Vm F1 Fm) as (Va1 & Na1 & Ua1).
  destruct (fsub_units v2 from_min V2 Vm F2 Fm) as (Va2 & Na2 & Ua2).
  assert (Ha : units (fsub v1 from_min) <= units (fsub v2 from_min))
    by (rewrite Ua1, Ua2; apply round_units_mono; lia).
  pose proof (units_finite_bounds sr mr er Vr) as Hr.
  pose proof (quotient_units_mono (Zpos mr * 2 ^ (er - unit_exp)) _ _ ltac:(lia) Ha) as HG.
  pose proof (fdiv_quotient_units _ sr mr er Va1 Na1 Vr) as Q1.
  pose proof (fdiv_quotient_units _ sr mr er Va2 Na2 Vr) as Q2.
  pose proof (fdiv_valid (fsub v1 from_min) (S754_finite sr mr er)) as Vq1.
  pose proof (fdiv_valid (fsub v2 from_min) (S754_finite sr mr er)) as Vq2.
  pose proof (fdiv_not_nan _ sr mr er Na1) as Nq1.
  pose proof (fdiv_not_nan _ sr mr er Na2) as Nq2.
  pose proof (CLAMP_units _ Vq1 Nq1) as C1. pose proof (CLAMP_units _ Vq2 Nq2) as C2.
  fold t1 in C1. fold t2 in C2.
  assert (H1 : 0 < units (of_Z 1)) by (vm_compute; reflexivity).
  assert (Hbig : units (of_Z 1) < 2 ^ (emax - unit_exp)) by (vm_compute; reflexivity).
  assert (Vt1 : is_valid t1 = true) by (apply CLAMP_valid; assumption).
  assert (Vt2 : is_valid t2 = true) by (apply CLAMP_valid; assumption).
  assert (Nt1 : is_nan t1 = false) by (apply CLAMP_not_nan; assumption).
  assert (Nt2 : is_nan t2 = false) by (apply CLAMP_not_nan; assumption).
  split; [assumption|]. split; [assumption|].
  split; [apply finite_of_units; [assumption|lia]|].
  split; [apply finite_of_units; [assumption|lia]|].
  split; [lia|]. split; [lia|].
  rewrite C1, C2, Q1, Q2. destruct sr; cbn [cond_Zopp]; lia.
Qed.

(** X9. Map Range is monotone in [value]: for finite inputs none of whose
    two ranges overflows and two values [v1 <= v2], the results are ordered
    the same way when the source range and the destination range point the
    same way ([from_min < from_max] and [to_min <= to_max], or both
    reversed), and the opposite way otherwise.  Rounding never makes two
    results cross. *)
Theorem MapRange_monotone
    (v1 v2 from_min from_max to_min to_max : float) (c : ExecutionContext) :
  is_valid v1 = true -> is_valid v2 = true ->
  is_valid from_min = true -> is_valid from_max = true ->
  is_valid to_min = true -> is_valid to_max = true ->
  is_finite v1 = true -> is_finite v2 = true ->
  is_finite from_min = true -> is_finite from_max = true ->
  is_finite to_min = true -> is_finite to_max = true ->
  is_finite (fsub from_max from_min) = true ->
  is_finite (fsub to_max to_min) = true ->
  fle v1 v2 = true ->
  exists r1 r2 : float,
    interpret lazy_map_range [v1; from_min; from_max; to_min; to_max] c = Ok [r1]
    /\ interpret lazy_map_range [v2; from_min; from_max; to_min; to_max] c = Ok [r2]
    /\ if eqb (flt from_min from_max) (fle to_min to_max)
       then fle r1 r2 = true else fle r2 r1 = true.
Proof.
  intros V1 V2 Vfm VfM Vtm VtM F1 F2 Ffm FfM Ftm FtM Fr FR Hle.
  exists (MapRange_compute fdiv v1 from_min from_max to_min to_max),
         (MapRange_compute fdiv v2 from_min from_max to_min to_max).
  split; [apply interpret_map_range|]. split; [apply interpret_map_range|].
  pose proof (is_finite_not_nan _ Ffm) as Nfm. pose proof (is_finite_not_nan _ FfM) as NfM.
  pose proof (is_finite_not_nan _ Ftm) as Ntm. pose proof (is_finite_not_nan _ FtM) as NtM.
  unfold MapRange_compute.
  destruct (feq (fsub from_max from_min) (of_Z 0)) eqn:Hdeg.
  { rewrite (fle_refl to_min Ntm). destruct (eqb _ _); reflexivity. }
  destruct (fsub_units from_max from_min VfM Vfm FfM Ffm) as (Vr & Nr & Ur).
  destruct (fsub_units to_max to_min VtM Vtm FtM Ftm) as (VR & NR & UR).
  destruct (fsub from_max from_min) as [s|s| |sr mr er] eqn:Er; try discriminate Fr.
  { destruct s; discriminate Hdeg. }
  set (R := fsub to_max to_min) in *.
  destruct (MapRange_t_mono v1 v2 from_min sr mr er V1 V2 Vfm F1 F2 Ffm Vr Hle)
    as (Vt1 & Vt2 & Ft1 & Ft2 & B1 & B2 & Ht).
  set (t1 := CLAMP (fdiv (fsub v1 from_min) (S754_finite sr mr er)) (of_Z 0) (of_Z 1)) in *.
  set (t2 := CLAMP (fdiv (fsub v2 from_min) (S754_finite sr mr er)) (of_Z 0) (of_Z 1)) in *.
  pose proof (is_finite_not_nan _ Ft1) as Nt1. pose proof (is_finite_not_nan _ Ft2) as Nt2.
  destruct (fmul_bounds t1 R Vt1 VR Nt1 FR B1) as (Vp1 & Fp1 & _).
  destruct (fmul_bounds t2 R Vt2 VR Nt2 FR B2) as (Vp2 & Fp2 & _).
  destruct (fadd_units (fmul t1 R) to_min Vp1 Vtm Fp1 Ftm) as (Vres1 & Nres1 & U1).
  destruct (fadd_units (fmul t2 R) to_min Vp2 Vtm Fp2 Ftm) as (Vres2 & Nres2 & U2).
  (* the orientation of the two ranges *)
  pose proof (units_finite_bounds sr mr er Vr) as Hr.
  pose proof (flt_units from_min from_max Vfm VfM Nfm NfM) as Hsrc.
  pose proof (fle_units to_min to_max Vtm VtM Ntm NtM) as Hdst.
  pose proof (round_units_sign (units from_max - units from_min)) as [Sneg Spos].
  pose proof (round_units_sign (units to_max - units to_min)) as [Rneg Rpos].
  assert (Hflt : flt from_min from_max = negb sr).
  { destruct sr; cbn [units cond_Zopp] in Ur; simpl negb.
    - destruct (flt from_min from_max); [|reflexivity].
      assert (units from_min < units from_max) by (apply Hsrc; reflexivity). lia.
    - apply Hsrc.
      destruct (Z.lt_ge_cases (units from_min) (units from_max)); [assumption|lia]. }
  rewrite Hflt.
  destruct (fle to_min to_max) eqn:Hto.
  - assert (HR0 : 0 <= units R).
    { rewrite UR. apply Rpos.
      assert (units to_min <= units to_max) by (apply Hdst; reflexivity). lia. }
    destruct sr; simpl negb; simpl eqb; cbv iota; apply fle_units; try assumption;
      rewrite U1, U2; apply round_units_mono.
    + pose proof (proj1 (fmul_mono t2 t1 R Vt2 Vt1 VR Ft2 Ft1 FR ltac:(lia)) HR0). lia.
    + pose proof (proj1 (fmul_mono t1 t2 R Vt1 Vt2 VR Ft1 Ft2 FR ltac:(lia)) HR0). lia.
  - assert (HR0 : units R <= 0).
    { rewrite UR. apply Rneg.
      destruct (Z.le_gt_cases (units to_min) (units to_max)) as [H|H]; [|lia].
      apply Hdst in H. discriminate H. }
    destruct sr; simpl negb; simpl eqb; cbv iota; apply fle_units; try assumption;
      rewrite U1, U2; apply round_units_mono.
    + pose proof (proj2 (fmul_mono t2 t1 R Vt2 Vt1 VR Ft2 Ft1 FR ltac:(lia)) HR0). lia.
    + pose proof (proj2 (fmul_mono t1 t2 R Vt1 Vt2 VR Ft1 Ft2 FR ltac:(lia)) HR0). lia.
Qed.

Lemma MapRange_monotone_witness :
  exists r1 r2 : float,
    interpret lazy_map_range [of_Z 3; of_Z 0; of_Z 10; of_Z 4; of_Z 2] ExecutionContext_new
    = Ok [r1]
    /\ interpret lazy_map_range [of_Z 7; of_Z 0; of_Z 10; of_Z 4; of_Z 2]
         ExecutionContext_new = Ok [r2]
    /\ if eqb (flt (of_Z 0) (of_Z 10)) (fle (of_Z 4) (of_Z 2))
       then fle r1 r2 = true else fle r2 r1 = true.
Proof.
  apply (MapRange_monotone (of_Z 3) (of_Z 7) (of_Z 0) (of_Z 10) (of_Z 4) (of_Z 2)
           ExecutionContext_new); reflexivity.
Defined.

(** ** Object modes *)

Lemma truthy_true (x : Z) : truthy x = true <-> x <> 0.
Proof. unfold truthy. destruct (Z.eqb_spec x 0); simpl; split; intros; congruence. Qed.

Lemma truthy_false (x : Z) : truthy x = false <-> x = 0.
Proof. unfold truthy. destruct (Z.eqb_spec x 0); simpl; split; intros; congruence. Qed.

Lemma pairwise_disjoint_In (flags : list Z) (a b : Z) :
  pairwise_disjoint flags = true -> In a flags -> In b flags ->
  a = b \/ Z.land a b = 0.
Proof.
  induction flags as [|x flags IH]; intros Hpd Ha Hb; [destruct Ha|].
  simpl in Hpd. apply andb_prop in Hpd as [Hx Hpd].
  rewrite forallb_forall in Hx.
  destruct Ha as [<-|Ha], Hb as [<-|Hb]; auto.
  - right. apply Z.eqb_eq, Hx, Hb.
  - right. rewrite Z.land_comm. apply Z.eqb_eq, Hx, Ha.
Qed.

Lemma first_equal_None (table : list (eObjectMode * string)) (mode : eObjectMode) :
  ~ In mode (map fst table) -> first_equal table mode = None.
Proof.
  induction table as [|[m s] table IH]; intros Hn; [reflexivity|].
  simpl in *. destruct (Z.eqb_spec mode m) as [->|Hne]; [tauto|]. apply IH. tauto.
Qed.

Lemma first_equal_In (table : list (eObjectMode * string)) (mode : eObjectMode) (s : string) :
  first_equal table mode = Some s -> In (mode, s) table.
Proof.
  induction table as [|[m s'] table IH]; intros H; [discriminate H|].
  simpl in *. destruct (Z.eqb_spec mode m) as [->|Hne].
  - injection H as <-. auto.
  - auto.
Qed.

Lemma first_equal_Some (table : list (eObjectMode * string)) (mode : eObjectMode) :
  In mode (map fst table) -> is_Some (first_equal table mode).
Proof.
  induction table as [|[m s] table IH]; intros Hin; [destruct Hin|].
  simpl in *. destruct (Z.eqb_spec mode m) as [->|Hne]; [eauto|].
  apply IH. destruct Hin; congruence.
Qed.

Lemma object_mode_op_string_table {headers : Headers} (mode : eObjectMode) :
  object_mode_op_string mode
  = if truthy (Z.land mode OB_MODE_EDIT) then Some "OBJECT_OT_editmode_toggle"%string
    else first_equal
           [ (OB_MODE_SCULPT, "SCULPT_OT_sculptmode_toggle"%string);
             (OB_MODE_VERTEX_PAINT, "PAINT_OT_vertex_paint_toggle"%string);
             (OB_MODE_WEIGHT_PAINT, "PAINT_OT_weight_paint_toggle"%string);
             (OB_MODE_TEXTURE_PAINT, "PAINT_OT_texture_paint_toggle"%string);
             (OB_MODE_PARTICLE_EDIT, "PARTICLE_OT_particle_edit_toggle"%string);
             (OB_MODE_POSE, "OBJECT_OT_posemode_toggle"%string);
             (OB_MODE_EDIT_GPENCIL, "GPENCIL_OT_editmode_toggle"%string);
             (OB_MODE_PAINT_GPENCIL, "GPENCIL_OT_paintmode_toggle"%string);
             (OB_MODE_SCULPT_GPENCIL, "GPENCIL_OT_sculptmode_toggle"%string);
             (OB_MODE_WEIGHT_GPENCIL, "GPENCIL_OT_weightmode_toggle"%string);
             (OB_MODE_VERTEX_GPENCIL, "GPENCIL_OT_vertexmode_toggle"%string) ] mode.
Proof. reflexivity. Qed.

Lemma mode_flags_wf_inv {headers : Headers} :
  mode_flags_wf = true ->
  OB_MODE_OBJECT = 0
  /\ (forall m : Z, In m eObjectMode_flags -> m <> 0)
  /\ (forall a b : Z, In a eObjectMode_flags -> In b eObjectMode_flags ->
        a = b \/ Z.land a b = 0).
Proof.
  unfold mode_flags_wf. intros H.
  apply andb_prop in H as [H Hpd]. apply andb_prop in H as [H0 Hnz].
  split; [apply Z.eqb_eq, H0|].
  split; [intros m Hm; rewrite forallb_forall in Hnz; apply truthy_true, Hnz, Hm|].
  intros a b; apply pairwise_disjoint_In; assumption.
Qed.

(** Two distinct flags joined are no flag. *)
Lemma lor_not_flag {headers : Headers} (a b f : Z) :
  mode_flags_wf = true ->
  In a eObjectMode_flags -> In b eObjectMode_flags -> In f eObjectMode_flags ->
  a <> b -> Z.lor a b <> f.
Proof.
  intros Hwf Ha Hb Hf Hab E.
  destruct (mode_flags_wf_inv Hwf) as (_ & Hnz & Hd).
  destruct (Hd a f Ha Hf) as [->|Haf].
  - destruct (Hd b f Hb Hf) as [->|Hbf]; [congruence|].
    rewrite <- E in Hbf. rewrite Z.land_lor_distr_r, Z.land_diag in Hbf.
    apply Z.lor_eq_0_iff in Hbf as [_ Hb0]. apply (Hnz b Hb Hb0).
  - rewrite <- E in Haf. rewrite Z.land_lor_distr_r, Z.land_diag in Haf.
    apply Z.lor_eq_0_iff in Haf as [Ha0 _]. apply (Hnz a Ha Ha0).
Qed.

(** X10. When [OB_MODE_OBJECT] is zero and the twelve mode flags are nonzero
    and share no bit, [object_mode_op_string] has no operator for
    [OB_MODE_OBJECT], has one for each of the twelve flags, and no two flags
    share an operator; every mode with the Edit flag set, whatever other
    flags it has, gets the Edit mode toggle; and a mode made of two distinct
    flags other than Edit has no operator. *)
Theorem object_mode_op_string_flags {headers : Headers} :
  mode_flags_wf = true ->
  object_mode_op_string OB_MODE_OBJECT = None
  /\ (forall m : eObjectMode,
         In m eObjectMode_flags -> is_Some (object_mode_op_string m))
  /\ (forall m1 m2 : eObjectMode,
         In m1 eObjectMode_flags -> In m2 eObjectMode_flags ->
         object_mode_op_string m1 = object_mode_op_string m2 -> m1 = m2)
  /\ (forall m : eObjectMode,
         Z.land m OB_MODE_EDIT <> 0 ->
         object_mode_op_string m = Some "OBJECT_OT_editmode_toggle"%string)
  /\ (forall m1 m2 : eObjectMode,
         In m1 eObjectMode_flags -> In m2 eObjectMode_flags -> m1 <> m2 ->
         m1 <> OB_MODE_EDIT -> m2 <> OB_MODE_EDIT ->
         object_mode_op_string (Z.lor m1 m2) = None).
Proof.
  intros Hwf.
  destruct (mode_flags_wf_inv Hwf) as (H0 & Hnz & Hd).
  assert (Hedit : In OB_MODE_EDIT eObjectMode_flags) by (left; reflexivity).
  assert (Hne : forall m, In m eObjectMode_flags -> m <> OB_MODE_EDIT ->
                          truthy (Z.land m OB_MODE_EDIT) = false).
  { intros m Hm Hme. apply truthy_false. destruct (Hd m _ Hm Hedit); [contradiction|assumption]. }
  assert (Hkeys : forall m, In m eObjectMode_flags -> m <> OB_MODE_EDIT ->
                            In m (tl eObjectMode_flags)).
  { intros m [E|Hm] Hme; [congruence|exact Hm]. }
  split; [|split; [|split; [|split]]].
  - rewrite object_mode_op_string_table, H0. simpl Z.land. cbn [truthy Z.eqb negb].
    apply first_equal_None. intros Hin.
    apply (Hnz 0); [right; exact Hin|reflexivity].
  - intros m Hm. rewrite object_mode_op_string_table.
    destruct (Z.eq_dec m OB_MODE_EDIT) as [->|Hme].
    + rewrite Z.land_diag. rewrite (proj2 (truthy_true _) (Hnz _ Hedit)). eauto.
    + rewrite (Hne m Hm Hme). apply first_equal_Some. exact (Hkeys m Hm Hme).
  - intros m1 m2 Hm1 Hm2. rewrite !object_mode_op_string_table.
    destruct (Z.eq_dec m1 OB_MODE_EDIT) as [->|Hme1];
      destruct (Z.eq_dec m2 OB_MODE_EDIT) as [->|Hme2]; [reflexivity| | |].
    + rewrite Z.land_diag, (proj2 (truthy_true _) (Hnz _ Hedit)), (Hne m2 Hm2 Hme2).
      intros E. symmetry in E. apply first_equal_In in E.
      simpl in E. repeat (destruct E as [E|E]; [discriminate E|]). destruct E.
    + rewrite Z.land_diag, (proj2 (truthy_true _) (Hnz _ Hedit)), (Hne m1 Hm1 Hme1).
      intros E. apply first_equal_In in E.
      simpl in E. repeat (destruct E as [E|E]; [discriminate E|]). destruct E.
    + rewrite (Hne m1 Hm1 Hme1), (Hne m2 Hm2 Hme2).
      match goal with
      | |- first_equal ?t m1 = _ -> _ =>
          destruct (first_equal_Some t m1 (Hkeys m1 Hm1 Hme1)) as [s1 E1];
          destruct (first_equal_Some t m2 (Hkeys m2 Hm2 Hme2)) as [s2 E2]
      end.
      rewrite E1, E2. intros E. injection E as <-.
      apply first_equal_In in E1, E2. simpl in E1, E2.
      repeat (destruct E1 as [E1|E1]; [injection E1 as E1 <-|]); try destruct E1;
        repeat (destruct E2 as [E2|E2]; [try discriminate E2; injection E2 as E2|]);
        try destruct E2; congruence.
  - intros m Hm. rewrite object_mode_op_string_table.
    rewrite (proj2 (truthy_true _) Hm). reflexivity.
  - intros m1 m2 Hm1 Hm2 Hne12 Hme1 Hme2. rewrite object_mode_op_string_table.
    assert (E : Z.land (Z.lor m1 m2) OB_MODE_EDIT = 0).
    { rewrite Z.land_lor_distr_l.
      rewrite (proj1 (truthy_false _) (Hne m1 Hm1 Hme1)).
      rewrite (proj1 (truthy_false _) (Hne m2 Hm2 Hme2)). reflexivity. }
    rewrite E. cbn [truthy Z.eqb negb].
    apply first_equal_None. intros Hin.
    apply (lor_not_flag m1 m2 (Z.lor m1 m2) Hwf Hm1 Hm2); [right; exact Hin|assumption|reflexivity].
Qed.

Lemma object_mode_op_string_flags_witness :
  @mode_flags_wf sample_headers = true
  /\ @object_mode_op_string sample_headers (@OB_MODE_OBJECT sample_headers) = None
  /\ @object_mode_op_string sample_headers
       (Z.lor (@OB_MODE_SCULPT sample_headers) (@OB_MODE_POSE sample_headers)) = None.
Proof.
  split; [reflexivity|].
  destruct (@object_mode_op_string_flags sample_headers eq_refl) as (H0 & _ & _ & _ & H2).
  split; [exact H0|].
  apply (H2 (@OB_MODE_SCULPT sample_headers) (@OB_MODE_POSE sample_headers));
    simpl; try tauto; discriminate.
Defined.

Lemma truthy_land_lor (mode extra mask : Z) :
  truthy (Z.land mode mask) = true -> truthy (Z.land (Z.lor mode extra) mask) = true.
Proof.
  rewrite !truthy_true, Z.land_lor_distr_l, Z.lor_eq_0_iff. tauto.
Qed.

(** X11. [ED_object_mode_compat_test] refuses every mode, [OB_MODE_OBJECT]
    included, when there is no object, and accepts [OB_MODE_OBJECT] for
    every object; an object whose type is none of the eight types of the
    [switch] is compatible with [OB_MODE_OBJECT] only; and the test looks
    for a shared flag: a mode other than [OB_MODE_OBJECT] that is accepted
    stays accepted with any further flags added. *)
Theorem ED_object_mode_compat_test_edges {headers : Headers} :
  (forall mode : eObjectMode, ED_object_mode_compat_test None mode = false)
  /\ (forall ob : Object, ED_object_mode_compat_test (Some ob) OB_MODE_OBJECT = true)
  /\ (forall (ob : Object) (mode : eObjectMode),
         ~ In (ob_type ob) object_types ->
         ED_object_mode_compat_test (Some ob) mode = (mode =? OB_MODE_OBJECT))
  /\ (forall (ob : Object) (mode extra : eObjectMode),
         ED_object_mode_compat_test (Some ob) mode = true ->
         mode <> OB_MODE_OBJECT ->
         ED_object_mode_compat_test (Some ob) (Z.lor mode extra) = true).
Proof.
  split; [reflexivity|].
  split; [intros ob; unfold ED_object_mode_compat_test; rewrite Z.eqb_refl; reflexivity|].
  split.
  - intros ob mode Hn. unfold ED_object_mode_compat_test.
    destruct (mode =? OB_MODE_OBJECT); [reflexivity|].
    unfold object_types in Hn. simpl in Hn.
    repeat match goal with
           | |- context [ob_type ob =? ?k] =>
               destruct (Z.eqb_spec (ob_type ob) k) as [E|_]; [exfalso; apply Hn; rewrite E; tauto|]
           end.
    reflexivity.
  - intros ob mode extra H Hne. unfold ED_object_mode_compat_test in *.
    rewrite (proj2 (Z.eqb_neq _ _) Hne) in H.
    destruct (Z.lor mode extra =? OB_MODE_OBJECT); [reflexivity|].
    repeat match goal with
           | |- context [if ?c then _ else _] =>
               destruct c; [apply truthy_land_lor; exact H|]
           end.
    exact H.
Qed.

Lemma ED_object_mode_compat_test_edges_witness :
  @ED_object_mode_compat_test sample_headers
    (Some (sample_mesh (@OB_MODE_OBJECT sample_headers)))
    (Z.lor (@OB_MODE_SCULPT sample_headers) (@OB_MODE_POSE sample_headers)) = true.
Proof.
  apply (proj2 (proj2 (proj2 (@ED_object_mode_compat_test_edges sample_headers)))).
  - reflexivity.
  - discriminate.
Defined.

(** X12. Whenever [ED_object_mode_set_ex] returns: without an active object
    it returns whether the mode asked for is [OB_MODE_OBJECT] and does
    nothing; with one, it returns true exactly when the object ends in the
    target mode (the mode asked for, or [OB_MODE_EDIT_GPENCIL] when Edit
    mode is asked for on a grease pencil object).  When the object is in the
    target mode already, or the target mode is incompatible with it, the
    state is left as it was and nothing is reported.  A true result comes
    with no report; a false one comes from an incompatible mode or with
    exactly one error report. *)
Theorem ED_object_mode_set_ex_result {headers : Headers} (Rest : Type)
    (WM_operatortype_find : bContext Rest -> option string -> bool -> option wmOperatorType)
    (WM_operator_name_call_ptr :
       bContext Rest -> option wmOperatorType -> Z -> Ptr -> bContext Rest)
    (C C' : bContext Rest) (mode : eObjectMode)
    (use_undo : bool) (reports : Ptr) (result : bool) (events : list Event) :
  ED_object_mode_set_ex Rest WM_operatortype_find WM_operator_name_call_ptr
    C mode use_undo reports = Some (result, C', events) ->
  match OBACT C with
  | None => result = (mode =? OB_MODE_OBJECT) /\ C' = C /\ events = []
  | Some ob =>
      let target :=
        if (ob_type (memory C ob) =? OB_GPENCIL) && (mode =? OB_MODE_EDIT)
        then OB_MODE_EDIT_GPENCIL else mode in
      (result = true <-> ob_mode (memory C' ob) = target)
      /\ (ob_mode (memory C ob) = target
          \/ ED_object_mode_compat_test (Some (memory C ob)) target = false ->
          C' = C /\ events = [])
      /\ (result = true -> events = [])
      /\ (result = false ->
          ED_object_mode_compat_test (Some (memory C ob)) target = false
          \/ exists ot : wmOperatorType,
               events = [BKE_reportf reports RPT_ERROR
                           "Unable to execute '%s', error changing modes" (ot_name ot)])
  end.
Proof.
  unfold ED_object_mode_set_ex. destruct (OBACT C) as [ob|].
  2:{ intros H. injection H as <- <- <-. auto. }
  cbv zeta.
  set (target := if (ob_type (memory C ob) =? OB_GPENCIL) && (mode =? OB_MODE_EDIT)
                 then OB_MODE_EDIT_GPENCIL else mode).
  destruct (Z.eqb_spec (ob_mode (memory C ob)) target) as [Eq|Hne].
  { intros H. injection H as <- <- <-.
    split; [tauto|]. split; [auto|]. split; [auto|]. intros H; discriminate H. }
  destruct (ED_object_mode_compat_test (Some (memory C ob)) target) eqn:Hc; simpl negb; cbv iota.
  2:{ intros H. injection H as <- <- <-.
      split; [split; [intros H; discriminate H|intros H; contradiction]|].
      split; [auto|]. split; [auto|]. intros _. left. reflexivity. }
  match goal with
  | |- (if negb (ob_mode (memory ?c ob) =? target) then _ else _) = _ -> _ => set (C3 := c)
  end.
  destruct (Z.eqb_spec (ob_mode (memory C3 ob)) target) as [Eq|Hne3]; simpl negb; cbv iota.
  - intros H. injection H as <- <- <-.
    split; [tauto|]. split; [intros [?|?]; congruence|].
    split; [auto|]. intros H; discriminate H.
  - destruct (WM_operatortype_find C _ false) as [ot|]; [|intros H; discriminate H].
    intros H. injection H as <- <- <-.
    split; [split; [intros H; discriminate H|intros H; contradiction]|].
    split; [intros [?|?]; congruence|].
    split; [intros H; discriminate H|]. intros _. right. exists ot. reflexivity.
Qed.

Lemma ED_object_mode_set_ex_result_witness :
  exists (C' : bContext unit) (events : list Event),
    @ED_object_mode_set_ex sample_headers unit sample_operatortype_find
      sample_operator_call_ptr
      (sample_context (sample_mesh (@OB_MODE_OBJECT sample_headers)))
      (@OB_MODE_EDIT sample_headers) true None
    = Some (true, C', events)
    /\ ob_mode (memory C' 0%nat) = @OB_MODE_EDIT sample_headers
    /\ events = [].
Proof.
  eexists _, _. split; [reflexivity|].
  pose proof (@ED_object_mode_set_ex_result sample_headers unit sample_operatortype_find
                sample_operator_call_ptr
                (sample_context (sample_mesh (@OB_MODE_OBJECT sample_headers))) _
                (@OB_MODE_EDIT sample_headers) true None true _ eq_refl) as H.
  simpl in H. destruct H as (H1 & _ & H3 & _).
  split; [apply H1; reflexivity|apply H3; reflexivity].
Defined.

(** X13. On an active grease pencil object, [ED_object_mode_set_ex] asked
    for [OB_MODE_EDIT] does exactly what it does when asked for
    [OB_MODE_EDIT_GPENCIL]. *)
Theorem ED_object_mode_set_ex_gpencil_edit {headers : Headers} (Rest : Type)
    (WM_operatortype_find : bContext Rest -> option string -> bool -> option wmOperatorType)
    (WM_operator_name_call_ptr :
       bContext Rest -> option wmOperatorType -> Z -> Ptr -> bContext Rest)
    (C : bContext Rest) (ob : ObjectRef)
    (use_undo : bool) (reports : Ptr) :
  OBACT C = Some ob -> ob_type (memory C ob) = OB_GPENCIL ->
  ED_object_mode_set_ex Rest WM_operatortype_find WM_operator_name_call_ptr
    C OB_MODE_EDIT use_undo reports
  = ED_object_mode_set_ex Rest WM_operatortype_find WM_operator_name_call_ptr
      C OB_MODE_EDIT_GPENCIL use_undo reports.
Proof.
  intros Hact Hty. unfold ED_object_mode_set_ex. rewrite Hact, Hty, !Z.eqb_refl.
  simpl andb. destruct (OB_MODE_EDIT_GPENCIL =? OB_MODE_EDIT); reflexivity.
Qed.

Lemma ED_object_mode_set_ex_gpencil_edit_witness :
  @ED_object_mode_set_ex sample_headers unit sample_operatortype_find
    sample_operator_call_ptr
    (sample_context (sample_object (@OB_GPENCIL sample_headers)
                                   (@OB_MODE_OBJECT sample_headers)))
    (@OB_MODE_EDIT sample_headers) true None
  = @ED_object_mode_set_ex sample_headers unit sample_operatortype_find
      sample_operator_call_ptr
      (sample_context (sample_object (@OB_GPENCIL sample_headers)
                                     (@OB_MODE_OBJECT sample_headers)))
      (@OB_MODE_EDIT_GPENCIL sample_headers) true None.
Proof.
  apply (@ED_object_mode_set_ex_gpencil_edit sample_headers unit sample_operatortype_find
           sample_operator_call_ptr _ 0%nat); reflexivity.
Defined.

Lemma wrap_signed_small (bits z : Z) :
  0 < bits -> - 2 ^ (bits - 1) <= z < 2 ^ (bits - 1) -> wrap_signed bits z = z.
Proof.
  intros Hb Hz. unfold wrap_signed.
  assert (E : 2 ^ bits = 2 * 2 ^ (bits - 1)).
  { replace bits with (Z.succ (bits - 1)) at 1 by lia. apply Z.pow_succ_r. lia. }
  rewrite E, Z.mod_small; lia.
Qed.

Lemma wrap_signed_incr (bits d : Z) :
  0 < bits -> - 2 ^ (bits - 1) <= d < 2 ^ (bits - 1) ->
  wrap_signed bits (d + 1)
  = if d <? 2 ^ (bits - 1) - 1 then d + 1 else - 2 ^ (bits - 1).
Proof.
  intros Hb Hd. destruct (Z.ltb_spec d (2 ^ (bits - 1) - 1)) as [H|H].
  - apply wrap_signed_small; lia.
  - unfold wrap_signed.
    assert (E : 2 ^ bits = 2 * 2 ^ (bits - 1)).
    { replace bits with (Z.succ (bits - 1)) at 1 by lia. apply Z.pow_succ_r. lia. }
    replace (d + 1 + 2 ^ (bits - 1)) with (2 ^ bits) by lia.
    rewrite Z_mod_same_full. lia.
Qed.

Lemma wrap_signed_decr_incr (bits d : Z) :
  0 < bits -> - 2 ^ (bits - 1) <= d < 2 ^ (bits - 1) ->
  wrap_signed bits (wrap_signed bits (d + 1) - 1) = d.
Proof.
  intros Hb Hd. rewrite (wrap_signed_incr bits d Hb Hd).
  destruct (Z.ltb_spec d (2 ^ (bits - 1) - 1)) as [H|H].
  - replace (d + 1 - 1) with d by lia. apply wrap_signed_small; assumption.
  - unfold wrap_signed.
    assert (E : 2 ^ bits = 2 * 2 ^ (bits - 1)).
    { replace bits with (Z.succ (bits - 1)) at 1 by lia. apply Z.pow_succ_r. lia. }
    replace (- 2 ^ (bits - 1) - 1 + 2 ^ (bits - 1)) with (2 ^ bits - 1 + (-1) * 2 ^ bits)
      by lia.
    rewrite Z_mod_plus_full, Z.mod_small; lia.
Qed.

(** X14. [ED_object_mode_set_ex] leaves the undo depth of the window manager
    as it found it, provided the operator does and the depth is a value of
    its integer type: either the state is untouched, or it is the state the
    operator returns, the operator having run at the same depth when
    [use_undo] is set and at the incremented depth when it is not.  The
    incremented depth is one more than the depth, except at the largest
    value of the type, where the increment wraps around to the smallest
    value; the decrement that follows undoes it in both cases. *)
Theorem ED_object_mode_set_ex_undo_depth {headers : Headers} (Rest : Type)
    (WM_operatortype_find : bContext Rest -> option string -> bool -> option wmOperatorType)
    (WM_operator_name_call_ptr :
       bContext Rest -> option wmOperatorType -> Z -> Ptr -> bContext Rest)
    (C C' : bContext Rest) (mode : eObjectMode)
    (use_undo : bool) (reports : Ptr) (result : bool) (events : list Event) :
  0 < op_undo_depth_bits ->
  - 2 ^ (op_undo_depth_bits - 1) <= op_undo_depth C < 2 ^ (op_undo_depth_bits - 1) ->
  (forall (c : bContext Rest) (ot : option wmOperatorType) (k : Z) (p : Ptr),
      op_undo_depth (WM_operator_name_call_ptr c ot k p) = op_undo_depth c) ->
  ED_object_mode_set_ex Rest WM_operatortype_find WM_operator_name_call_ptr
    C mode use_undo reports = Some (result, C', events) ->
  op_undo_depth C' = op_undo_depth C
  /\ (C' = C
      \/ exists (ot : option wmOperatorType) (deeper : Z),
           deeper = (if op_undo_depth C <? 2 ^ (op_undo_depth_bits - 1) - 1
                     then op_undo_depth C + 1
                     else - 2 ^ (op_undo_depth_bits - 1))
           /\ if use_undo
              then C' = WM_operator_name_call_ptr C ot WM_OP_EXEC_REGION_WIN None
              else C' = set_op_undo_depth
                          (WM_operator_name_call_ptr
                             (set_op_undo_depth C deeper)
                             ot WM_OP_EXEC_REGION_WIN None)
                          (op_undo_depth C)).
Proof.
  intros Hbits Hrange Hop. unfold ED_object_mode_set_ex. destruct (OBACT C) as [ob|].
  2:{ intros H. injection H as <- <- <-. auto. }
  cbv zeta.
  destruct (ob_mode (memory C ob) =? _).
  { intros H. injection H as <- <- <-. auto. }
  destruct (negb (ED_object_mode_compat_test _ _)).
  { intros H. injection H as <- <- <-. auto. }
  set (deeper := if op_undo_depth C <? 2 ^ (op_undo_depth_bits - 1) - 1
                 then op_undo_depth C + 1
                 else - 2 ^ (op_undo_depth_bits - 1)).
  match goal with
  | |- (if negb (ob_mode (memory ?c ob) =? _) then match ?o with _ => _ end else _) = _ -> _ =>
      set (C3 := c); set (ot := o);
      assert (HC3 : op_undo_depth C3 = op_undo_depth C
                    /\ if use_undo
                       then C3 = WM_operator_name_call_ptr C ot WM_OP_EXEC_REGION_WIN None
                       else C3 = set_op_undo_depth
                                   (WM_operator_name_call_ptr
                                      (set_op_undo_depth C deeper)
                                      ot WM_OP_EXEC_REGION_WIN None)
                                   (op_undo_depth C))
  end.
  { unfold C3, deeper. destruct use_undo; simpl negb; cbv iota.
    - rewrite Hop. auto.
    - rewrite Hop. simpl op_undo_depth.
      rewrite (wrap_signed_decr_incr _ _ Hbits Hrange),
        (wrap_signed_incr _ _ Hbits Hrange).
      auto. }
  destruct HC3 as [Hd HC3].
  destruct (negb (ob_mode (memory C3 ob) =? _)).
  - destruct ot as [t|] eqn:Eot; [|discriminate].
    intros H. injection H as <- <- <-. split; [assumption|].
    right. exists (Some t), deeper. split; [reflexivity|exact HC3].
  - intros H. injection H as <- <- <-. split; [assumption|].
    right. exists ot, deeper. split; [reflexivity|exact HC3].
Qed.

Lemma ED_object_mode_set_ex_undo_depth_witness :
  exists (C' : bContext unit) (events : list Event),
    @ED_object_mode_set_ex sample_headers unit sample_operatortype_find
      sample_operator_call_ptr
      (set_op_undo_depth (sample_context (sample_mesh (@OB_MODE_OBJECT sample_headers)))
                         2147483647)
      (@OB_MODE_EDIT sample_headers) false None
    = Some (true, C', events)
    /\ op_undo_depth C' = 2147483647.
Proof.
  eexists _, _. split; [vm_compute; reflexivity|].
  apply (@ED_object_mode_set_ex_undo_depth sample_headers unit sample_operatortype_find
           sample_operator_call_ptr
           (set_op_undo_depth (sample_context (sample_mesh (@OB_MODE_OBJECT sample_headers)))
                              2147483647) _
           (@OB_MODE_EDIT sample_headers) false None true []).
  - reflexivity.
  - simpl. lia.
  - intros c [ot|] k p; reflexivity.
  - vm_compute. reflexivity.
Defined.

(** X15. Whenever [ED_object_mode_compat_set] returns, it returns true
    exactly when the object ends in the mode asked for or in
    [OB_MODE_OBJECT].  An object already in one of these two modes is left
    alone; otherwise the toggle operator of the mode the object is in is
    run, once.  A true result comes with no report and a false one with
    exactly one error report. *)
Theorem ED_object_mode_compat_set_result {headers : Headers} (Rest : Type)
    (WM_operatortype_find : bContext Rest -> option string -> bool -> option wmOperatorType)
    (WM_operator_name_call : bContext Rest -> option string -> Z -> Ptr -> bContext Rest)
    (C C' : bContext Rest) (ob : ObjectRef)
    (mode : eObjectMode) (reports : Ptr) (result : bool) (events : list Event) :
  ELEM_wf ->
  ED_object_mode_compat_set Rest WM_operatortype_find WM_operator_name_call
    C ob mode reports = Some (result, C', events) ->
  (result = true
   <-> ob_mode (memory C' ob) = mode \/ ob_mode (memory C' ob) = OB_MODE_OBJECT)
  /\ (ob_mode (memory C ob) = mode \/ ob_mode (memory C ob) = OB_MODE_OBJECT ->
      result = true /\ C' = C /\ events = [])
  /\ (ob_mode (memory C ob) <> mode -> ob_mode (memory C ob) <> OB_MODE_OBJECT ->
      C' = WM_operator_name_call C (object_mode_op_string (ob_mode (memory C ob)))
             WM_OP_EXEC_REGION_WIN None)
  /\ (result = true -> events = [])
  /\ (result = false ->
      exists ot : wmOperatorType,
        events = [BKE_reportf reports RPT_ERROR
                    "Unable to execute '%s', error changing modes" (ot_name ot)]).
Proof.
  intros HE. unfold ED_object_mode_compat_set. rewrite !HE.
  assert (Hel : forall a, (a =? mode) || (a =? OB_MODE_OBJECT) = true
                          <-> a = mode \/ a = OB_MODE_OBJECT).
  { intros a. rewrite orb_true_iff, !Z.eqb_eq. tauto. }
  destruct ((ob_mode (memory C ob) =? mode) || (ob_mode (memory C ob) =? OB_MODE_OBJECT))
    eqn:E0; simpl negb; cbv iota.
  { intros H. injection H as <- <- <-. apply Hel in E0.
    repeat split; auto; try discriminate; intros; tauto. }
  cbv zeta. rewrite ?HE.
  set (C1 := WM_operator_name_call C _ _ _).
  assert (Hn0 : ~ (ob_mode (memory C ob) = mode \/ ob_mode (memory C ob) = OB_MODE_OBJECT)).
  { rewrite <- Hel, E0. discriminate. }
  destruct ((ob_mode (memory C1 ob) =? mode) || (ob_mode (memory C1 ob) =? OB_MODE_OBJECT))
    eqn:E1; simpl negb; cbv iota.
  - intros H. injection H as <- <- <-. apply Hel in E1.
    repeat split; auto; try discriminate; intros; tauto.
  - destruct (WM_operatortype_find C1 _ false) as [ot|]; [|discriminate].
    intros H. injection H as <- <- <-.
    assert (Hn1 : ~ (ob_mode (memory C1 ob) = mode \/ ob_mode (memory C1 ob) = OB_MODE_OBJECT)).
    { rewrite <- Hel, E1. discriminate. }
    split; [split; [discriminate|tauto]|].
    split; [tauto|]. split; [reflexivity|]. split; [discriminate|].
    intros _. exists ot. reflexivity.
Qed.

Lemma ED_object_mode_compat_set_result_witness :
  exists (C' : bContext unit) (events : list Event),
    @ED_object_mode_compat_set sample_headers unit sample_operatortype_find
      sample_operator_call
      (sample_context (sample_mesh (@OB_MODE_EDIT sample_headers))) 0%nat
      (@OB_MODE_SCULPT sample_headers) None
    = Some (true, C', events)
    /\ (ob_mode (memory C' 0%nat) = @OB_MODE_SCULPT sample_headers
        \/ ob_mode (memory C' 0%nat) = @OB_MODE_OBJECT sample_headers).
Proof.
  eexists _, _. split; [reflexivity|].
  apply (@ED_object_mode_compat_set_result sample_headers unit sample_operatortype_find
           sample_operator_call
           (sample_context (sample_mesh (@OB_MODE_EDIT sample_headers))) _ 0%nat
           (@OB_MODE_SCULPT sample_headers) None true []).
  - intros a b c. reflexivity.
  - reflexivity.
  - reflexivity.
Defined.

(** X16. [ED_object_mode_generic_has_data] and [ED_object_mode_generic_exit]
    agree: the test makes no exit call and satisfies the assertion on entry;
    the exit satisfies it exactly when [bmain] is not null, always ends with
    the result false, and makes exactly one exit call when the test returns
    true and none when it returns false. *)
Theorem ED_object_mode_generic_has_data_iff_exit {headers : Headers}
    (BKE_object_is_in_editmode : Object -> bool) (bmain depsgraph scene : Ptr) (ob : Object) :
  filter is_exit_call
    (snd (ED_object_mode_generic_has_data BKE_object_is_in_editmode depsgraph ob)) = []
  /\ head (snd (ED_object_mode_generic_has_data BKE_object_is_in_editmode depsgraph ob))
     = Some (BLI_assert true)
  /\ head (ED_object_mode_generic_exit BKE_object_is_in_editmode bmain depsgraph scene ob)
     = Some (BLI_assert (negb (is_NULL bmain)))
  /\ fst (ed_object_mode_generic_exit_ex BKE_object_is_in_editmode
            bmain depsgraph scene ob false) = false
  /\ if fst (ED_object_mode_generic_has_data BKE_object_is_in_editmode depsgraph ob)
     then exists e : Event,
            filter is_exit_call
              (ED_object_mode_generic_exit BKE_object_is_in_editmode
                 bmain depsgraph scene ob) = [e]
     else filter is_exit_call
            (ED_object_mode_generic_exit BKE_object_is_in_editmode
               bmain depsgraph scene ob) = [].
Proof.
  unfold ED_object_mode_generic_has_data, ED_object_mode_generic_exit,
    ed_object_mode_generic_exit_ex.
  assert (Hentry : eqb (is_NULL bmain) false = negb (is_NULL bmain))
    by (destruct bmain; reflexivity).
  rewrite Hentry.
  repeat match goal with
         | |- context [if truthy ?c then _ else _] => destruct (truthy c)
         | |- context [if BKE_object_is_in_editmode ob then _ else _] =>
             destruct (BKE_object_is_in_editmode ob)
         | |- context [if sculpt_mode_is ob ?m then _ else _] => destruct (sculpt_mode_is ob m)
         | |- context [match ob_pose ob with _ => _ end] => destruct (ob_pose ob)
         | |- context [if ob_type ob =? ?k then _ else _] => destruct (ob_type ob =? k)
         end;
    simpl; repeat split; eauto.
Qed.

(** X17. With [OB_MODE_OBJECT] zero, an object in Object mode has mode data
    exactly when it is a grease pencil object: the generic exit then calls
    [ED_object_gpencil_exit] on it and makes no call on an object of any
    other type, and no assertion of the test fails. *)
Theorem ED_object_mode_generic_object_mode {headers : Headers}
    (BKE_object_is_in_editmode : Object -> bool) (bmain depsgraph scene : Ptr) (ob : Object) :
  OB_MODE_OBJECT = 0 -> ob_mode ob = OB_MODE_OBJECT ->
  fst (ED_object_mode_generic_has_data BKE_object_is_in_editmode depsgraph ob)
  = (ob_type ob =? OB_GPENCIL)
  /\ filter is_exit_call
       (ED_object_mode_generic_exit BKE_object_is_in_editmode bmain depsgraph scene ob)
     = (if ob_type ob =? OB_GPENCIL then [ED_object_gpencil_exit bmain ob] else [])
  /\ ~ In (BLI_assert false)
       (snd (ED_object_mode_generic_has_data BKE_object_is_in_editmode depsgraph ob)).
Proof.
  intros H0 Hm.
  unfold ED_object_mode_generic_has_data, ED_object_mode_generic_exit,
    ed_object_mode_generic_exit_ex.
  rewrite Hm, H0. simpl Z.land. cbn [truthy Z.eqb negb].
  destruct (ob_type ob =? OB_GPENCIL); simpl; repeat split; try reflexivity;
    intros H; repeat (destruct H as [H|H]; [discriminate H|]); destruct H.
Qed.

Lemma ED_object_mode_generic_object_mode_witness :
  fst (@ED_object_mode_generic_has_data sample_headers (fun _ => false) None
         (sample_mesh (@OB_MODE_OBJECT sample_headers)))
  = false
  /\ fst (@ED_object_mode_generic_has_data sample_headers (fun _ => false) None
            (sample_object (@OB_GPENCIL sample_headers) (@OB_MODE_OBJECT sample_headers)))
     = true.
Proof.
  split.
  - apply (@ED_object_mode_generic_object_mode sample_headers (fun _ => false)
             None None None (sample_mesh (@OB_MODE_OBJECT sample_headers))); reflexivity.
  - apply (@ED_object_mode_generic_object_mode sample_headers (fun _ => false)
             None None None
             (sample_object (@OB_GPENCIL sample_headers) (@OB_MODE_OBJECT sample_headers)));
      reflexivity.
Defined.

(** X18. [ED_object_mode_set] runs the operator at the undo depth it finds:
    the state it returns is the state it was given or the state the
    operator returns when run on the state it was given, with the depth not
    raised; and an error it reports goes to a null report list. *)
Theorem ED_object_mode_set_runs_at_depth {headers : Headers} (Rest : Type)
    (WM_operatortype_find : bContext Rest -> option string -> bool -> option wmOperatorType)
    (WM_operator_name_call_ptr :
       bContext Rest -> option wmOperatorType -> Z -> Ptr -> bContext Rest)
    (C C' : bContext Rest) (mode : eObjectMode) (result : bool) (events : list Event) :
  ED_object_mode_set Rest WM_operatortype_find WM_operator_name_call_ptr C mode
  = Some (result, C', events) ->
  (C' = C
   \/ exists opstring : option string,
        C' = WM_operator_name_call_ptr C (WM_operatortype_find C opstring false)
               WM_OP_EXEC_REGION_WIN None)
  /\ (events = []
      \/ exists name : string,
           events = [BKE_reportf None RPT_ERROR
                       "Unable to execute '%s', error changing modes" name]).
Proof.
  unfold ED_object_mode_set, ED_object_mode_set_ex. destruct (OBACT C) as [ob|].
  2:{ intros H. injection H as <- <- <-. auto. }
  cbv zeta.
  destruct (ob_mode (memory C ob) =? _).
  { intros H. injection H as <- <- <-. auto. }
  destruct (negb (ED_object_mode_compat_test _ _)).
  { intros H. injection H as <- <- <-. auto. }
  simpl negb. cbv iota.
  match goal with
  | |- (if negb (ob_mode (memory (WM_operator_name_call_ptr C (WM_operatortype_find C ?s false)
                                    _ _) ob) =? _) then _ else _) = _ -> _ =>
      set (opstring := s)
  end.
  destruct (negb (ob_mode (memory _ ob) =? _)).
  - destruct (WM_operatortype_find C opstring false) as [ot|] eqn:Eot; [|intros H; discriminate H].
    intros H. injection H as <- <- <-. split.
    + right. exists opstring. rewrite Eot. reflexivity.
    + right. exists (ot_name ot). reflexivity.
  - intros H. injection H as <- <- <-. split; [|auto].
    right. exists opstring. reflexivity.
Qed.

Lemma ED_object_mode_set_runs_at_depth_witness :
  exists (C' : bContext unit) (events : list Event),
    @ED_object_mode_set sample_headers unit sample_operatortype_find
      sample_operator_call_ptr
      (sample_context (sample_mesh (@OB_MODE_OBJECT sample_headers)))
      (@OB_MODE_EDIT sample_headers)
    = Some (true, C', events)
    /\ (C' = sample_context (sample_mesh (@OB_MODE_OBJECT sample_headers))
        \/ exists opstring : option string,
             C' = sample_operator_call_ptr
                    (sample_context (sample_mesh (@OB_MODE_OBJECT sample_headers)))
                    (sample_operatortype_find
                       (sample_context (sample_mesh (@OB_MODE_OBJECT sample_headers)))
                       opstring false)
                    (@WM_OP_EXEC_REGION_WIN sample_headers) None)
    /\ (events = []
        \/ exists name : string,
             events = [BKE_reportf None (@RPT_ERROR sample_headers)
                         "Unable to execute '%s', error changing modes" name]).
Proof.
  eexists _, _. split; [reflexivity|].
  apply (@ED_object_mode_set_runs_at_depth sample_headers unit sample_operatortype_find
           sample_operator_call_ptr
           (sample_context (sample_mesh (@OB_MODE_OBJECT sample_headers))) _
           (@OB_MODE_EDIT sample_headers) true []).
  reflexivity.
Defined.

Lemma truthy_land_wider (mode mask more : Z) :
  truthy (Z.land mode mask) = true -> truthy (Z.land mode (Z.lor mask more)) = true.
Proof.
  rewrite !truthy_true, Z.land_lor_distr_r, Z.lor_eq_0_iff. tauto.
Qed.

Lemma truthy_land_wider_r (mode mask more : Z) :
  truthy (Z.land mode mask) = true -> truthy (Z.land mode (Z.lor more mask)) = true.
Proof.
  rewrite !truthy_true, Z.land_lor_distr_r, Z.lor_eq_0_iff. tauto.
Qed.

(** X19. Whenever [object_switch_object_poll] lets the Switch Object
    operator run, there is a 3D region and an active object, and the mode of
    that object is compatible with every mesh; when it has the Edit flag it
    is compatible with every object of the eight types that have modes. *)
Theorem object_switch_object_poll_compat {headers : Headers} (Rest : Type)
    (CTX_wm_region_view3d : bContext Rest -> Ptr)
    (CTX_data_active_object : bContext Rest -> option ObjectRef)
    (C : bContext Rest) :
  object_switch_object_poll Rest CTX_wm_region_view3d CTX_data_active_object C = true ->
  exists ob : ObjectRef,
    CTX_data_active_object C = Some ob
    /\ is_NULL (CTX_wm_region_view3d C) = false
    /\ (forall dst : Object,
           ob_type dst = OB_MESH ->
           ED_object_mode_compat_test (Some dst) (ob_mode (memory C ob)) = true)
    /\ (forall dst : Object,
           Z.land (ob_mode (memory C ob)) OB_MODE_EDIT <> 0 ->
           In (ob_type dst) object_types ->
           ED_object_mode_compat_test (Some dst) (ob_mode (memory C ob)) = true).
Proof.
  unfold object_switch_object_poll.
  destruct (is_NULL (CTX_wm_region_view3d C)); [intros H; discriminate H|].
  destruct (CTX_data_active_object C) as [ob|]; [|intros H; discriminate H].
  intros Hmode. exists ob. split; [reflexivity|]. split; [reflexivity|].
  set (mode := ob_mode (memory C ob)) in *.
  split.
  - intros dst Hty. unfold ED_object_mode_compat_test. rewrite Hty, Z.eqb_refl.
    destruct (mode =? OB_MODE_OBJECT); [reflexivity|].
    do 4 apply truthy_land_wider. exact Hmode.
  - intros dst Hedit Hin. apply truthy_true in Hedit.
    unfold ED_object_mode_compat_test.
    destruct (mode =? OB_MODE_OBJECT); [reflexivity|].
    unfold object_types in Hin. simpl in Hin.
    repeat match goal with
           | |- (if ?c then _ else _) = true =>
               destruct c eqn:?;
               [first [exact Hedit
                      | do 5 apply truthy_land_wider; exact Hedit
                      | apply truthy_land_wider; exact Hedit]|]
           end.
    exfalso.
    repeat match goal with
           | H : (_ || _) = false |- _ => apply orb_false_elim in H as [? ?]
           end.
    repeat match goal with
           | H : (ob_type dst =? _) = false |- _ => apply Z.eqb_neq in H
           end.
    intuition congruence.
Qed.

Lemma object_switch_object_poll_compat_witness :
  exists ob : ObjectRef,
    OBACT (sample_context (sample_mesh (@OB_MODE_SCULPT sample_headers))) = Some ob
    /\ is_NULL (Some 0%nat) = false
    /\ (forall dst : Object,
           ob_type dst = @OB_MESH sample_headers ->
           @ED_object_mode_compat_test sample_headers (Some dst)
             (ob_mode (memory (sample_context (sample_mesh (@OB_MODE_SCULPT sample_headers)))
                              ob)) = true)
    /\ (forall dst : Object,
           Z.land (ob_mode (memory (sample_context
                                      (sample_mesh (@OB_MODE_SCULPT sample_headers))) ob))
                  (@OB_MODE_EDIT sample_headers) <> 0 ->
           In (ob_type dst) (@object_types sample_headers) ->
           @ED_object_mode_compat_test sample_headers (Some dst)
             (ob_mode (memory (sample_context (sample_mesh (@OB_MODE_SCULPT sample_headers)))
                              ob)) = true).
Proof.
  apply (@object_switch_object_poll_compat sample_headers unit (fun _ => Some 0%nat) OBACT
           (sample_context (sample_mesh (@OB_MODE_SCULPT sample_headers)))).
  reflexivity.
Defined.
